(** * xl/player.py: playback queue, engines, streams and sink

    A shallow embedding of [xl/player.py] (the Exaile playback core) and the
    properties of it that the specification states.

    Conventions of the model:
    - Python objects that are mutated and shared ([AudioStream] instances held
      by the engine, by timers and by idle callbacks) live in a store
      ([heap]) and are referred to by identity.
    - Every method is a function on [World] in a small state-and-exception
      monad [M]; a Python exception that escapes a method is [Raise].
    - The wall clock, durations and timer delays are whole milliseconds;
      GStreamer positions are nanoseconds; [int(time.time())] is the clock
      divided by 1000.
    - GStreamer state changes are taken to complete at once: [get_state]
      reports the state last set on the element, and setting the state of
      the pipeline sets the state of the elements it contains.
    - Stream volumes are IEEE binary64 numbers, as the [volume] property of
      the GStreamer element and Python's [float] are.
    - A track object and a playlist object are truthy ([if not track],
      [if self.current_playlist]); [==] on tracks is equality of the records.
    - [seek] is left out: [AudioStream.seek] blocks its calling thread on a
      [threading.Event] that another thread sets, which a sequential model
      of the methods does not express. *)

From Stdlib Require Import ZArith QArith Floats Uint63 String Ascii List Bool Lia.
From stdpp Require Import base option list gmap strings.
Import ListNotations.

Open Scope string_scope.
Open Scope list_scope.
Open Scope Z_scope.

(** ** Python values and builtins *)

Inductive PyExc : Type :=
| AttributeError
| NameError
| ZeroDivisionError
| IndexError
| QueryError
| AssertionError.

Inductive GstState : Type :=
| STATE_NULL
| STATE_READY
| STATE_PAUSED
| STATE_PLAYING.

#[global] Instance GstState_eq_dec : EqDecision GstState.
Proof. solve_decision. Defined.

(** [gst.SECOND]: nanoseconds per second. *)
Definition SECOND : Z := 1000000000.

(** A track of the collection (an external [xl.track.Track]): what the player
    asks of it.  [duration_ms] is [get_duration()*1000].  The player takes
    the locator apart and puts it together again with functions that are not
    of this file ([urlparse.urlsplit], [common.local_file_from_url],
    [urllib.pathname2url], [urlparse.urlunsplit]); the record carries what
    they answer for the locator: [loc_scheme] is [urlsplit(loc)[0]], and
    [io_uri] the URI that [_get_track_uri] puts together, with the scheme and
    the network location of the locator, the local path quoted anew, and
    neither query nor fragment. *)
Record Track : Type := {
  track_id : nat;
  loc : string;
  loc_scheme : string;
  io_uri : string;
  is_local : bool;
  file_exists : bool;
  duration_ms : Z
}.

#[global] Instance Track_eq_dec : EqDecision Track.
Proof. solve_decision. Defined.

(** The values the model passes around as Python objects: event arguments,
    the stop-track marker, the stored [playtime] tag. *)
Inductive PyObj : Type :=
| ONone
| OInt (z : Z)
| OStr (s : string)
| OTrack (t : Track)
| OStream (sid : nat)
| OQueue
| OPlayer.

#[global] Instance PyObj_eq_dec : EqDecision PyObj.
Proof. solve_decision. Defined.

(** [a == b] on these values. *)
Definition py_eq (a b : PyObj) : bool := bool_decide (a = b).

Definition obj_of_track (t : option Track) : PyObj :=
  match t with
  | Some t => OTrack t
  | None => ONone
  end.

(** [int(s)] for a [str]: optional blanks, optional sign, decimal digits. *)
Definition is_blank (c : ascii) : bool :=
  match c with
  | " "%char | "009"%char | "010"%char | "011"%char | "012"%char | "013"%char => true
  | _ => false
  end.

Fixpoint lstrip (s : string) : string :=
  match s with
  | String c r => if is_blank c then lstrip r else s
  | EmptyString => s
  end.

Definition digit_of (c : ascii) : option Z :=
  let n := Z.of_nat (nat_of_ascii c) in
  if (48 <=? n) && (n <=? 57) then Some (n - 48) else None.

(** Digits, then only blanks. *)
Fixpoint int_digits (acc : Z) (seen : bool) (s : string) : option Z :=
  match s with
  | EmptyString => if seen then Some acc else None
  | String c r =>
      match digit_of c with
      | Some d => int_digits (10 * acc + d) true r
      | None =>
          if seen && (match lstrip s with EmptyString => true | _ => false end)
          then Some acc else None
      end
  end.

Definition py_int (s : string) : option Z :=
  match lstrip s with
  | String "-"%char r => Z.opp <$> int_digits 0 false r
  | String "+"%char r => int_digits 0 false r
  | r => int_digits 0 false r
  end.

(** [s.split(sep)] for a separator of one character: the pieces between the
    separators, of which there is always at least one. *)
Fixpoint split_on (sep : ascii) (s : string) : list string :=
  match s with
  | EmptyString => [EmptyString]
  | String c r =>
      if Ascii.eqb c sep then EmptyString :: split_on sep r
      else match split_on sep r with
           | h :: t => String c h :: t
           | [] => [String c EmptyString]
           end
  end.

(** [float(z)] for a Python [int]. *)
Definition float_of_Z (z : Z) : float :=
  match z with
  | Z0 => 0%float
  | Zpos _ => PrimFloat.of_uint63 (Uint63.of_Z z)
  | Zneg p => PrimFloat.opp (PrimFloat.of_uint63 (Uint63.of_Z (Zpos p)))
  end.

(** The Python literal [0.01]: the binary64 number nearest to 1/100. *)
Definition f0_01 : float := 0x1.47ae147ae147bp-7%float.

(** ** Settings ([xl.settings]), with the defaults the code passes *)

Record Settings : Type := {
  user_fade_enabled : bool;     (* player/user_fade_enabled, False *)
  user_fade : Z;                (* player/user_fade, 1000 *)
  crossfading : bool;           (* player/crossfading, False *)
  crossfade_duration : Z        (* player/crossfade_duration, 3000 *)
}.

Definition default_settings : Settings :=
  {| user_fade_enabled := false; user_fade := 1000;
     crossfading := false; crossfade_duration := 3000 |}.

(** The other keys are read from the store of [xl.settings] itself:
    [settings.get_option(key, default)]. *)
Inductive OptVal : Type :=
| VStr (s : string)
| VInt (z : Z)
| VFloat (f : float)
| VBool (b : bool)
| VList (l : list string).

Definition Options : Type := gmap string OptVal.

Definition get_option (opts : Options) (key : string) (default : OptVal) : OptVal :=
  match opts !! key with
  | Some v => v
  | None => default
  end.

(** ** Objects *)

(** [AudioStream]: one decode pipeline segment.  [as_volume] is the
    [volume] property of [self.vol]; [as_state] the state of the bin;
    [as_query] what [self.dec.query_position] answers ([None]: it raises
    [gst.QueryError]); [as_notify_id] whether the [notify::source] handler
    for CD devices is connected. *)
Record AudioStream : Type := {
  as_name : string;
  as_track : option Track;
  as_playtime_stamp : option Z;
  as_last_position : Z;
  as_settle_flag : Z;
  as_notify_id : bool;
  as_uri : option string;
  as_volume : float;
  as_state : GstState;
  as_query : option Z
}.

(** [BaseGSTPlayer] ([GSTPlayer], [GaplessPlayer]): one playbin. *)
Record BaseGSTPlayer : Type := {
  b_current : option Track;
  b_last_position : Z;
  b_playtime_stamp : option Z;
  b_state : GstState;           (* state of self.playbin *)
  b_uri : option string;        (* playbin "uri" property *)
  b_notify_id : bool;
  b_query : option Z            (* playbin.query_position *)
}.

(** [UnifiedPlayer].  [u_streams] is [self.streams] (identities of the
    streams, [None] for an empty slot); [u_pipe] the streams added to
    [self.pipe]; [u_adder] the streams linked to [self.adder];
    [u_gobject_timer_id] the attribute [gobject.timer_id] that [play]
    assigns. *)
Record UnifiedPlayer : Type := {
  u_current_stream : nat;
  u_timer_id : Z;
  u_gobject_timer_id : Z;
  u_streams : list (option nat);
  u_pipe_state : GstState;
  u_pipe : list nat;
  u_adder : list nat
}.

(** [AudioSink]: [sink_vol] is the [volume] property of [self.vol]. *)
Record AudioSink : Type := {
  sink_name : string;
  sink_elem : string;
  sink_vol : float
}.

(** The playlist the queue falls back to ([xl.playlist.Playlist], external):
    the tracks it will hand out, and its [current_playing] flag. *)
Record Playlist : Type := {
  pl_tracks : list Track;
  pl_current_playing : bool
}.

(** [PlayQueue]. *)
Record PlayQueue : Type := {
  ordered_tracks : list Track;
  current_pos : Z;
  current_playing : bool;
  current_playlist : option Playlist;
  stop_track : PyObj
}.

(** Which engine class [get_player()] chose for [self.player]. *)
Inductive Engine : Type :=
| EngineBase
| EngineUnified.

(** The classes that [get_player()] chooses from. *)
Inductive PlayerClass : Type :=
| ClassGSTPlayer
| ClassGaplessPlayer
| ClassUnifiedPlayer.

(** [get_player()]: the class named by [player/engine]; a name that is none
    of the three falls back to [GSTPlayer]. *)
Definition get_player (opts : Options) : PlayerClass :=
  match get_option opts "player/engine" (VStr "normal") with
  | VStr pname =>
      if String.eqb pname "normal" then ClassGSTPlayer
      else if String.eqb pname "gapless" then ClassGaplessPlayer
      else if String.eqb pname "unified" then ClassUnifiedPlayer
      else ClassGSTPlayer
  | _ => ClassGSTPlayer
  end.

(** A message on the GStreamer bus, by its type: what [on_message] reads of
    it ([parse_error()[0].message], [parse_buffering()]). *)
Inductive Message : Type :=
| MESSAGE_TAG
| MESSAGE_EOS
| MESSAGE_ERROR (message : string)
| MESSAGE_BUFFERING (percent : Z)
| MESSAGE_OTHER.

(** What GLib main-loop sources call. *)
Inductive Callback : Type :=
| CbStreamSetState (sid : nat) (st : GstState)   (* stream.set_state, st *)
| CbSetStatePipe (st : GstState)                 (* self._set_state, self.pipe, st *)
| CbFadeStream (sid : nat) (direction : Z) (delete : bool)
| CbStartCrossfade
| CbStop
| CbSettleStateSub (sid : nat).

#[global] Instance Callback_eq_dec : EqDecision Callback.
Proof. solve_decision. Defined.

(** A source of the main loop: [src_interval] is [None] for [idle_add] and
    the delay in milliseconds for [timeout_add]. *)
Record Source : Type := {
  src_id : Z;
  src_interval : option Z;
  src_cb : Callback
}.

Definition Event : Type := (string * PyObj * PyObj)%type.

Record World : Type := {
  now : Z;
  events : list Event;
  playtime : gmap nat PyObj;
  settings : Settings;
  sources : list Source;
  next_source_id : Z;
  heap : gmap nat AudioStream;
  next_stream_id : nat;
  engine : Engine;
  base : BaseGSTPlayer;
  unified : UnifiedPlayer;
  audio_sink : AudioSink;
  queue : PlayQueue
}.

(** ** Field updates *)

Definition set_now (v : Z) (w : World) : World :=
  {| now := v; events := events w; playtime := playtime w; settings := settings w;
     sources := sources w; next_source_id := next_source_id w; heap := heap w;
     next_stream_id := next_stream_id w; engine := engine w; base := base w;
     unified := unified w; audio_sink := audio_sink w; queue := queue w |}.

Definition set_events (v : list Event) (w : World) : World :=
  {| now := now w; events := v; playtime := playtime w; settings := settings w;
     sources := sources w; next_source_id := next_source_id w; heap := heap w;
     next_stream_id := next_stream_id w; engine := engine w; base := base w;
     unified := unified w; audio_sink := audio_sink w; queue := queue w |}.

Definition set_playtime (v : gmap nat PyObj) (w : World) : World :=
  {| now := now w; events := events w; playtime := v; settings := settings w;
     sources := sources w; next_source_id := next_source_id w; heap := heap w;
     next_stream_id := next_stream_id w; engine := engine w; base := base w;
     unified := unified w; audio_sink := audio_sink w; queue := queue w |}.

Definition set_sources (v : list Source) (w : World) : World :=
  {| now := now w; events := events w; playtime := playtime w; settings := settings w;
     sources := v; next_source_id := next_source_id w; heap := heap w;
     next_stream_id := next_stream_id w; engine := engine w; base := base w;
     unified := unified w; audio_sink := audio_sink w; queue := queue w |}.

Definition set_next_source_id (v : Z) (w : World) : World :=
  {| now := now w; events := events w; playtime := playtime w; settings := settings w;
     sources := sources w; next_source_id := v; heap := heap w;
     next_stream_id := next_stream_id w; engine := engine w; base := base w;
     unified := unified w; audio_sink := audio_sink w; queue := queue w |}.

Definition set_heap (v : gmap nat AudioStream) (w : World) : World :=
  {| now := now w; events := events w; playtime := playtime w; settings := settings w;
     sources := sources w; next_source_id := next_source_id w; heap := v;
     next_stream_id := next_stream_id w; engine := engine w; base := base w;
     unified := unified w; audio_sink := audio_sink w; queue := queue w |}.

Definition set_next_stream_id (v : nat) (w : World) : World :=
  {| now := now w; events := events w; playtime := playtime w; settings := settings w;
     sources := sources w; next_source_id := next_source_id w; heap := heap w;
     next_stream_id := v; engine := engine w; base := base w;
     unified := unified w; audio_sink := audio_sink w; queue := queue w |}.

Definition set_base (v : BaseGSTPlayer) (w : World) : World :=
  {| now := now w; events := events w; playtime := playtime w; settings := settings w;
     sources := sources w; next_source_id := next_source_id w; heap := heap w;
     next_stream_id := next_stream_id w; engine := engine w; base := v;
     unified := unified w; audio_sink := audio_sink w; queue := queue w |}.

Definition set_unified (v : UnifiedPlayer) (w : World) : World :=
  {| now := now w; events := events w; playtime := playtime w; settings := settings w;
     sources := sources w; next_source_id := next_source_id w; heap := heap w;
     next_stream_id := next_stream_id w; engine := engine w; base := base w;
     unified := v; audio_sink := audio_sink w; queue := queue w |}.

Definition set_audio_sink (v : AudioSink) (w : World) : World :=
  {| now := now w; events := events w; playtime := playtime w; settings := settings w;
     sources := sources w; next_source_id := next_source_id w; heap := heap w;
     next_stream_id := next_stream_id w; engine := engine w; base := base w;
     unified := unified w; audio_sink := v; queue := queue w |}.

Definition set_queue (v : PlayQueue) (w : World) : World :=
  {| now := now w; events := events w; playtime := playtime w; settings := settings w;
     sources := sources w; next_source_id := next_source_id w; heap := heap w;
     next_stream_id := next_stream_id w; engine := engine w; base := base w;
     unified := unified w; audio_sink := audio_sink w; queue := v |}.

Definition set_settings (v : Settings) (w : World) : World :=
  {| now := now w; events := events w; playtime := playtime w; settings := v;
     sources := sources w; next_source_id := next_source_id w; heap := heap w;
     next_stream_id := next_stream_id w; engine := engine w; base := base w;
     unified := unified w; audio_sink := audio_sink w; queue := queue w |}.

(** ** The state-and-exception monad *)

Inductive Res (A : Type) : Type :=
| Ok (a : A) (w : World)
| Raise (e : PyExc) (w : World).

Arguments Ok {A} a w.
Arguments Raise {A} e w.

Definition M (A : Type) : Type := World -> Res A.

Definition ret {A} (a : A) : M A := fun w => Ok a w.

Definition bind {A B} (m : M A) (k : A -> M B) : M B :=
  fun w =>
    match m w with
    | Ok a w' => k a w'
    | Raise e w' => Raise e w'
    end.

Definition raise {A} (e : PyExc) : M A := fun w => Raise e w.

(** [try: m  except: h] with a handler for every exception. *)
Definition try_except {A} (m : M A) (h : PyExc -> M A) : M A :=
  fun w =>
    match m w with
    | Ok a w' => Ok a w'
    | Raise e w' => h e w'
    end.

Definition gets {A} (f : World -> A) : M A := fun w => Ok (f w) w.

Definition modify (f : World -> World) : M unit := fun w => Ok tt (f w).

Declare Scope py_scope.
Delimit Scope py_scope with py.
Notation "x <- c ;; k" := (bind c (fun x => k))
  (at level 100, c at next level, right associativity) : py_scope.
Notation "c ;; k" := (bind c (fun _ => k))
  (at level 100, right associativity) : py_scope.
Open Scope py_scope.

(** The world a computation leaves, whether it returns or raises. *)
Definition world_of {A} (r : Res A) : World :=
  match r with
  | Ok _ w => w
  | Raise _ w => w
  end.

Definition value_of {A} (r : Res A) : option A :=
  match r with
  | Ok a _ => Some a
  | Raise _ _ => None
  end.

(** ** Process-wide services: events, clock, main loop *)

(** [event.log_event(type, object, data)]. *)
Definition log_event (ty : string) (obj data : PyObj) : M unit :=
  modify (fun w => set_events (events w ++ [(ty, obj, data)]) w).

(** [int(time.time())]. *)
Definition int_time (w : World) : Z := now w / 1000.

(** [int(time.time() - stamp)] for a stamp in whole seconds. *)
Definition int_since (stamp : Z) (w : World) : Z := Z.quot (now w - 1000 * stamp) 1000.

Module gobject.

(** [gobject.idle_add] and [gobject.timeout_add]: a new source, whose handle
    is returned. *)
Definition add_source (interval : option Z) (cb : Callback) : M Z :=
  fun w =>
    let id := next_source_id w in
    Ok id (set_next_source_id (id + 1)
             (set_sources (sources w ++ [{| src_id := id; src_interval := interval;
                                            src_cb := cb |}]) w)).

Definition idle_add (cb : Callback) : M Z := add_source None cb.

Definition timeout_add (interval : Z) (cb : Callback) : M Z :=
  add_source (Some interval) cb.

Definition source_remove (id : Z) : M unit :=
  modify (fun w => set_sources (filter (fun s => src_id s ≠ id) (sources w)) w).

End gobject.

(** ** AudioStream *)

Module AudioStream.

Definition with_track (v : option Track) (s : AudioStream) : AudioStream :=
  {| as_name := as_name s; as_track := v; as_playtime_stamp := as_playtime_stamp s;
     as_last_position := as_last_position s; as_settle_flag := as_settle_flag s;
     as_notify_id := as_notify_id s; as_uri := as_uri s; as_volume := as_volume s;
     as_state := as_state s; as_query := as_query s |}.

Definition with_playtime_stamp (v : option Z) (s : AudioStream) : AudioStream :=
  {| as_name := as_name s; as_track := as_track s; as_playtime_stamp := v;
     as_last_position := as_last_position s; as_settle_flag := as_settle_flag s;
     as_notify_id := as_notify_id s; as_uri := as_uri s; as_volume := as_volume s;
     as_state := as_state s; as_query := as_query s |}.

Definition with_last_position (v : Z) (s : AudioStream) : AudioStream :=
  {| as_name := as_name s; as_track := as_track s; as_playtime_stamp := as_playtime_stamp s;
     as_last_position := v; as_settle_flag := as_settle_flag s;
     as_notify_id := as_notify_id s; as_uri := as_uri s; as_volume := as_volume s;
     as_state := as_state s; as_query := as_query s |}.

Definition with_settle_flag (v : Z) (s : AudioStream) : AudioStream :=
  {| as_name := as_name s; as_track := as_track s; as_playtime_stamp := as_playtime_stamp s;
     as_last_position := as_last_position s; as_settle_flag := v;
     as_notify_id := as_notify_id s; as_uri := as_uri s; as_volume := as_volume s;
     as_state := as_state s; as_query := as_query s |}.

Definition with_notify_id (v : bool) (s : AudioStream) : AudioStream :=
  {| as_name := as_name s; as_track := as_track s; as_playtime_stamp := as_playtime_stamp s;
     as_last_position := as_last_position s; as_settle_flag := as_settle_flag s;
     as_notify_id := v; as_uri := as_uri s; as_volume := as_volume s;
     as_state := as_state s; as_query := as_query s |}.

Definition with_uri (v : option string) (s : AudioStream) : AudioStream :=
  {| as_name := as_name s; as_track := as_track s; as_playtime_stamp := as_playtime_stamp s;
     as_last_position := as_last_position s; as_settle_flag := as_settle_flag s;
     as_notify_id := as_notify_id s; as_uri := v; as_volume := as_volume s;
     as_state := as_state s; as_query := as_query s |}.

Definition with_volume (v : float) (s : AudioStream) : AudioStream :=
  {| as_name := as_name s; as_track := as_track s; as_playtime_stamp := as_playtime_stamp s;
     as_last_position := as_last_position s; as_settle_flag := as_settle_flag s;
     as_notify_id := as_notify_id s; as_uri := as_uri s; as_volume := v;
     as_state := as_state s; as_query := as_query s |}.

Definition with_state (v : GstState) (s : AudioStream) : AudioStream :=
  {| as_name := as_name s; as_track := as_track s; as_playtime_stamp := as_playtime_stamp s;
     as_last_position := as_last_position s; as_settle_flag := as_settle_flag s;
     as_notify_id := as_notify_id s; as_uri := as_uri s; as_volume := as_volume s;
     as_state := v; as_query := as_query s |}.

Definition with_query (v : option Z) (s : AudioStream) : AudioStream :=
  {| as_name := as_name s; as_track := as_track s; as_playtime_stamp := as_playtime_stamp s;
     as_last_position := as_last_position s; as_settle_flag := as_settle_flag s;
     as_notify_id := as_notify_id s; as_uri := as_uri s; as_volume := as_volume s;
     as_state := as_state s; as_query := v |}.

(** [AudioStream.__init__]: the [volume] element starts at 1.0. *)
Definition init (name : string) : AudioStream :=
  {| as_name := name; as_track := None; as_playtime_stamp := None;
     as_last_position := 0; as_settle_flag := 0; as_notify_id := false;
     as_uri := None; as_volume := 1%float; as_state := STATE_NULL;
     as_query := Some 0 |}.

(** The object behind an identity.  An identity always comes from the store,
    so the [None] case is not reachable from the engine. *)
Definition self (sid : nat) : M AudioStream :=
  fun w =>
    match heap w !! sid with
    | Some s => Ok s w
    | None => Raise AttributeError w
    end.

Definition update (sid : nat) (f : AudioStream -> AudioStream) : M unit :=
  modify (fun w => set_heap (alter f sid (heap w)) w).

Definition set_volume (sid : nat) (vol : float) : M unit :=
  update sid (with_volume vol).

Definition get_volume (sid : nat) : M float :=
  s <- self sid;; ret (as_volume s).

Definition reset_playtime_stamp (sid : nat) : M unit :=
  t <- gets int_time;;
  update sid (with_playtime_stamp (Some t)).

(** [if self.track and self.playtime_stamp:] a stamp of 0 is falsy. *)
Definition stamp_truthy (stamp : option Z) : option Z :=
  match stamp with
  | Some z => if z =? 0 then None else Some z
  | None => None
  end.

(** The [last] that [update_playtime] adds to, from [track['playtime']]. *)
Definition last_playtime (v : PyObj) : Z :=
  match v with
  | OStr s => default 0 (py_int s)
  | OInt z => z
  | _ => 0
  end.

Definition credit_playtime (t : Track) (stamp : Z) : M unit :=
  modify (fun w =>
    let last := last_playtime (default ONone (playtime w !! track_id t)) in
    set_playtime (<[track_id t := OInt (last + int_since stamp w)]> (playtime w)) w).

Definition update_playtime (sid : nat) : M unit :=
  s <- self sid;;
  match as_track s, stamp_truthy (as_playtime_stamp s) with
  | Some t, Some stamp =>
      credit_playtime t stamp;;
      update sid (with_playtime_stamp None)
  | _, _ => ret tt
  end.

Definition set_track (sid : nat) (track : option Track) : M bool :=
  match track with
  | None => ret false
  | Some t =>
      if is_local t && negb (file_exists t) then ret false
      else
        update sid (with_track (Some t));;
        reset_playtime_stamp sid;;
        update sid (with_uri (Some (loc t)));;
        (if String.prefix "cdda://" (loc t)
         then update sid (with_notify_id true) else ret tt);;
        ret true
  end.

(** [gst.Bin.set_state(self, state)]. *)
Definition bin_set_state (sid : nat) (st : GstState) : M unit :=
  update sid (with_state st).

Definition _settle_state (sid : nat) : M unit :=
  update sid (with_settle_flag 1);;
  gobject.idle_add (CbSettleStateSub sid);;
  ret tt.

Definition set_state (sid : nat) (st : GstState) : M unit :=
  update sid (with_settle_flag 0);;
  match st with
  | STATE_PLAYING =>
      bin_set_state sid st;;
      _settle_state sid;;
      reset_playtime_stamp sid
  | STATE_PAUSED =>
      update_playtime sid;;
      bin_set_state sid st;;
      reset_playtime_stamp sid
  | _ =>
      update_playtime sid;;
      bin_set_state sid st
  end.

Definition _get_gst_state (sid : nat) : M GstState :=
  s <- self sid;; ret (as_state s).

Definition is_playing (sid : nat) : M bool :=
  st <- _get_gst_state sid;; ret (bool_decide (st = STATE_PLAYING)).

Definition is_paused (sid : nat) : M bool :=
  st <- _get_gst_state sid;; ret (bool_decide (st = STATE_PAUSED)).

Definition get_current (sid : nat) : M (option Track) :=
  p <- is_playing sid;;
  q <- (if p then ret true else is_paused sid);;
  if q then (s <- self sid;; ret (as_track s)) else ret None.

Definition get_position (sid : nat) : M Z :=
  p <- is_paused sid;;
  if p then (s <- self sid;; ret (as_last_position s))
  else
    s <- self sid;;
    update sid (with_last_position (default 0 (as_query s)));;
    s' <- self sid;;
    ret (as_last_position s').

(** The idle callback that [_settle_state] installs; its result says whether
    the callback stays installed. *)
Definition _settle_state_sub (sid : nat) : M bool :=
  s <- self sid;;
  st <- _get_gst_state sid;;
  if (as_settle_flag s =? 1) && bool_decide (st = STATE_PAUSED) then
    set_state sid STATE_PLAYING;;
    ret true
  else
    update sid (with_settle_flag 0);;
    log_event "stream_settled" (OStream sid) ONone;;
    ret false.

End AudioStream.

(** ** AudioSink *)

Module AudioSink.

Definition set_volume (vol : float) : M unit :=
  modify (fun w =>
    set_audio_sink {| sink_name := sink_name (audio_sink w);
                      sink_elem := sink_elem (audio_sink w);
                      sink_vol := vol |} w).

(** [get_volume] evaluates [self.vol.get_property("volume")] and drops it:
    the method has no [return], so the call yields [None]. *)
Definition get_volume : M (option float) :=
  _ <- gets (fun w => sink_vol (audio_sink w));;
  ret None.

(** What can go wrong while a sink is built. *)
Inductive SinkError : Type :=
| KeyError
| TypeError
| ValueError
| ElementNotFoundError.

(** [for v in options]: a list gives its strings, a [str] its characters,
    anything else is not iterable. *)
Definition option_strings (v : OptVal) : SinkError + list string :=
  match v with
  | VList l => inr l
  | VStr s => inr (map (fun c => String c EmptyString) (list_ascii_of_string s))
  | _ => inl TypeError
  end.

(** [dict(seq)]: every element of the sequence has to be of length two. *)
Fixpoint dict_items (seq : list (list string)) : SinkError + list (string * string) :=
  match seq with
  | [] => inr []
  | [k; v] :: r =>
      match dict_items r with
      | inr l => inr ((k, v) :: l)
      | inl e => inl e
      end
  | _ :: _ => inl ValueError
  end.

(** [d.update(items)]: a later item replaces an earlier one of the same key. *)
Definition dict_update (d : gmap string string) (items : list (string * string))
  : gmap string string :=
  foldl (fun m kv => <[kv.1 := kv.2]> m) d items.

Section Construction.

(** The store of [xl.settings]; the GStreamer installation: whether
    [gst.element_factory_make(factory)] finds the factory, and whether
    [set_property(param, value)] on an element of that factory succeeds. *)
Variable opts : Options.
Variable available : string -> bool.
Variable settable : string -> string -> string -> bool.

(** [load_options]: the result is the properties that have been set on
    [self.sink]; a property that cannot be set is logged and passed over.
    Nothing here catches what [dict(...)] raises. *)
Definition load_options (name elem : string) (options : gmap string string)
  : SinkError + gmap string string :=
  match option_strings
          (get_option opts ("player/" ++ name ++ "_sink_options")%string (VList [])) with
  | inl e => inl e
  | inr strs =>
      match dict_items (map (split_on "="%char) strs) with
      | inl e => inl e
      | inr items =>
          let optdict := dict_update options items in
          inr (filter (fun kv => settable elem kv.1 kv.2 = true) optdict)
      end
  end.

(** [AudioSink.__init__]: the [ProviderBin] (an [identity] element, no
    provider being registered yet), the [volume] element, which starts at
    1.0, and the sink element; then [load_options].  An element is made when
    its factory is there; [ProviderHandler.__init__], which is of another
    file, and the adding and linking of elements that have been made are
    taken to succeed. *)
Definition init (name elem : string) (options : gmap string string)
  : SinkError + (AudioSink * gmap string string) :=
  if negb (available "identity") then inl ElementNotFoundError
  else if negb (available "volume") then inl ElementNotFoundError
  else if negb (available elem) then inl ElementNotFoundError
  else
    match load_options name elem options with
    | inl e => inl e
    | inr props =>
        inr ({| sink_name := name; sink_elem := elem; sink_vol := 1%float |}, props)
    end.

End Construction.

End AudioSink.

(** ** Sink presets *)

Record Preset : Type := {
  preset_name : string;
  preset_elem : string;
  preset_options : gmap string string
}.

(** [SINK_PRESETS]; [gettext] is [xl.nls.gettext], which translates the
    display names. *)
Definition SINK_PRESETS (gettext : string -> string) : gmap string Preset :=
  list_to_map
    [ ("auto", {| preset_name := gettext "Automatic"; preset_elem := "autoaudiosink";
                  preset_options := ∅ |});
      ("alsa", {| preset_name := gettext "Alsa"; preset_elem := "alsasink";
                  preset_options := ∅ |});
      ("oss", {| preset_name := gettext "Oss"; preset_elem := "osssink";
                 preset_options := ∅ |});
      ("pulse", {| preset_name := gettext "Pulseaudio"; preset_elem := "pulsesink";
                   preset_options := ∅ |}) ].

(** [sink_from_preset(preset)]: whatever is raised on the way, the answer is
    [None].  A preset that is not a [str] is no key of the table. *)
Definition sink_from_preset (gettext : string -> string) (opts : Options)
    (available : string -> bool) (settable : string -> string -> string -> bool)
    (preset : OptVal) : option (AudioSink * gmap string string) :=
  match preset with
  | VStr p =>
      match SINK_PRESETS gettext !! p with
      | Some d =>
          match AudioSink.init opts available settable
                  (preset_name d) (preset_elem d) (preset_options d) with
          | inr sink => Some sink
          | inl _ => None
          end
      | None => None
      end
  | _ => None
  end.

(** ** ProviderBin: the registry of provided elements *)

Module ProviderBin.

Section Providers.

(** A provider is an object with an [index] attribute; [list.remove]
    compares providers with [==]. *)
Context {Provider : Type} `{EqDecision Provider}.
Variable index : Provider -> Z.

(** [l.remove(p)]: the list without the first [p]; [None] where Python
    raises [ValueError]. *)
Fixpoint list_remove (p : Provider) (l : list Provider) : option (list Provider) :=
  match l with
  | [] => None
  | x :: r => if decide (x = p) then Some r else (fun r' => x :: r') <$> list_remove p r
  end.

(** [self.elements[provider.index] =
       self.elements.get(provider.index, []) + [provider]]. *)
Definition on_new_provider (provider : Provider) (elements : gmap Z (list Provider))
  : gmap Z (list Provider) :=
  <[index provider := default [] (elements !! index provider) ++ [provider]]> elements.

(** [self.elements[provider.index].remove(provider)] inside [try], every
    exception passed over: a missing index, a provider that is not listed. *)
Definition on_del_provider (provider : Provider) (elements : gmap Z (list Provider))
  : gmap Z (list Provider) :=
  match elements !! index provider with
  | Some l =>
      match list_remove provider l with
      | Some l' => <[index provider := l']> elements
      | None => elements
      end
  | None => elements
  end.

End Providers.

End ProviderBin.

(** ** BaseGSTPlayer *)

Module BaseGSTPlayer.

Definition with_current (v : option Track) (p : BaseGSTPlayer) : BaseGSTPlayer :=
  {| b_current := v; b_last_position := b_last_position p;
     b_playtime_stamp := b_playtime_stamp p; b_state := b_state p; b_uri := b_uri p;
     b_notify_id := b_notify_id p; b_query := b_query p |}.

Definition with_last_position (v : Z) (p : BaseGSTPlayer) : BaseGSTPlayer :=
  {| b_current := b_current p; b_last_position := v;
     b_playtime_stamp := b_playtime_stamp p; b_state := b_state p; b_uri := b_uri p;
     b_notify_id := b_notify_id p; b_query := b_query p |}.

Definition with_playtime_stamp (v : option Z) (p : BaseGSTPlayer) : BaseGSTPlayer :=
  {| b_current := b_current p; b_last_position := b_last_position p;
     b_playtime_stamp := v; b_state := b_state p; b_uri := b_uri p;
     b_notify_id := b_notify_id p; b_query := b_query p |}.

Definition with_state (v : GstState) (p : BaseGSTPlayer) : BaseGSTPlayer :=
  {| b_current := b_current p; b_last_position := b_last_position p;
     b_playtime_stamp := b_playtime_stamp p; b_state := v; b_uri := b_uri p;
     b_notify_id := b_notify_id p; b_query := b_query p |}.

Definition with_uri (v : option string) (p : BaseGSTPlayer) : BaseGSTPlayer :=
  {| b_current := b_current p; b_last_position := b_last_position p;
     b_playtime_stamp := b_playtime_stamp p; b_state := b_state p; b_uri := v;
     b_notify_id := b_notify_id p; b_query := b_query p |}.

Definition with_notify_id (v : bool) (p : BaseGSTPlayer) : BaseGSTPlayer :=
  {| b_current := b_current p; b_last_position := b_last_position p;
     b_playtime_stamp := b_playtime_stamp p; b_state := b_state p; b_uri := b_uri p;
     b_notify_id := v; b_query := b_query p |}.

Definition with_query (v : option Z) (p : BaseGSTPlayer) : BaseGSTPlayer :=
  {| b_current := b_current p; b_last_position := b_last_position p;
     b_playtime_stamp := b_playtime_stamp p; b_state := b_state p; b_uri := b_uri p;
     b_notify_id := b_notify_id p; b_query := v |}.

(** [BaseGSTPlayer.__init__]. *)
Definition init : BaseGSTPlayer :=
  {| b_current := None; b_last_position := 0; b_playtime_stamp := None;
     b_state := STATE_NULL; b_uri := None; b_notify_id := false; b_query := None |}.

Definition update (f : BaseGSTPlayer -> BaseGSTPlayer) : M unit :=
  modify (fun w => set_base (f (base w)) w).

Definition _get_gst_state : M GstState := gets (fun w => b_state (base w)).

Definition is_playing : M bool :=
  st <- _get_gst_state;; ret (bool_decide (st = STATE_PLAYING)).

Definition is_paused : M bool :=
  st <- _get_gst_state;; ret (bool_decide (st = STATE_PAUSED)).

(** ['playing'], ['paused'] or ['stopped']. *)
Definition get_state : M string :=
  st <- _get_gst_state;;
  ret (match st with
       | STATE_PLAYING => "playing"
       | STATE_PAUSED => "paused"
       | _ => "stopped"
       end).

Definition get_position : M Z :=
  p <- is_paused;;
  if p then gets (fun w => b_last_position (base w))
  else
    q <- gets (fun w => b_query (base w));;
    update (with_last_position (default 0 q));;
    gets (fun w => b_last_position (base w)).

(** [self.get_position()/gst.SECOND]: whole seconds. *)
Definition get_time : M Z :=
  p <- get_position;; ret (p / SECOND).

(** [self.get_time()/float(self.current.get_duration())], the quotient as a
    rational; [self.current] being [None] raises [AttributeError], which the
    [except ZeroDivisionError] clause does not catch. *)
Definition get_progress : M Q :=
  try_except
    (t <- get_time;;
     cur <- gets (fun w => b_current (base w));;
     match cur with
     | None => raise AttributeError
     | Some tr =>
         if duration_ms tr =? 0 then raise ZeroDivisionError
         else ret (inject_Z t / (inject_Z (duration_ms tr) / inject_Z 1000))%Q
     end)
    (fun e => match e with
              | ZeroDivisionError => ret 0%Q
              | _ => raise e
              end).

Definition update_playtime : M unit :=
  cur <- gets (fun w => b_current (base w));;
  stamp <- gets (fun w => b_playtime_stamp (base w));;
  match cur, AudioStream.stamp_truthy stamp with
  | Some t, Some stamp =>
      AudioStream.credit_playtime t stamp;;
      update (with_playtime_stamp None)
  | _, _ => ret tt
  end.

Definition reset_playtime_stamp : M unit :=
  t <- gets int_time;;
  update (with_playtime_stamp (Some t)).

Definition stop : M bool :=
  p <- is_playing;;
  q <- (if p then ret true else is_paused);;
  if q then
    update_playtime;;
    current <- gets (fun w => b_current (base w));;
    update (with_state STATE_NULL);;
    update (with_current None);;
    log_event "playback_end" OPlayer (obj_of_track current);;
    ret true
  else ret false.

(** [_get_track_uri]: the assertion that the locator has a scheme fails
    with [AssertionError]; otherwise the URI is the locator put together
    again (see [Track]). *)
Definition _get_track_uri (track : Track) : M string :=
  if String.eqb (loc_scheme track) EmptyString then raise AssertionError
  else ret (io_uri track).

(** [play]: [self.current] is assigned before [_get_track_uri] is called, the
    stamp, the URI and the state after it.  [urlparse.urlsplit(uri)[0] ==
    "cdda"] is read off the head of the URI. *)
Definition play (track : option Track) : M bool :=
  stop;;
  match track with
  | None => ret false
  | Some t =>
      if is_local t && negb (file_exists t) then ret false
      else
        update (with_current (Some t));;
        uri <- _get_track_uri t;;
        reset_playtime_stamp;;
        update (with_uri (Some uri));;
        (if String.prefix "cdda:" uri
         then update (with_notify_id true) else ret tt);;
        update (with_state STATE_PLAYING);;
        log_event "playback_start" OPlayer (OTrack t);;
        ret true
  end.

Definition pause : M bool :=
  p <- is_playing;;
  if p then
    update_playtime;;
    update (with_state STATE_PAUSED);;
    reset_playtime_stamp;;
    cur <- gets (fun w => b_current (base w));;
    log_event "playback_pause" OPlayer (obj_of_track cur);;
    ret true
  else ret false.

Definition unpause : M bool :=
  p <- is_paused;;
  if p then
    reset_playtime_stamp;;
    cur <- gets (fun w => b_current (base w));;
    match cur with
    | None => raise AttributeError
    | Some t =>
        (if is_local t then ret tt else update (with_state STATE_READY));;
        update (with_state STATE_PLAYING);;
        log_event "playback_resume" OPlayer (OTrack t);;
        ret true
    end
  else ret false.

Definition toggle_pause : M unit :=
  p <- is_paused;;
  (if p then unpause else pause);;
  cur <- gets (fun w => b_current (base w));;
  log_event "playback_toggle_pause" OPlayer (obj_of_track cur).

Definition _on_playback_error (message : string) : M unit :=
  log_event "playback_error" OPlayer (OStr message).

(** [on_message(bus, message)].  [tag_func] and [eof_func] are looked up on
    the instance: [tag_func] may be unset, [eof_func] is the subclass's.  The
    handler answers [True]. *)
Definition on_message (tag_func : option (M unit)) (eof_func : M unit)
    (message : Message) : M bool :=
  (match message with
   | MESSAGE_TAG =>
       match tag_func with
       | Some f => f
       | None => ret tt
       end
   | MESSAGE_EOS =>
       p <- is_paused;;
       if p then ret tt else eof_func
   | MESSAGE_ERROR m => _on_playback_error m
   | MESSAGE_BUFFERING percent =>
       (if percent <? 100 then update (with_state STATE_PAUSED)
        else update (with_state STATE_PLAYING));;
       if percent mod 5 =? 0
       then log_event "playback_buffering" OPlayer (OInt percent)
       else ret tt
   | MESSAGE_OTHER => ret tt
   end);;
  ret true.

End BaseGSTPlayer.

(** ** UnifiedPlayer *)

Module UnifiedPlayer.

Definition with_current_stream (v : nat) (u : UnifiedPlayer) : UnifiedPlayer :=
  {| u_current_stream := v; u_timer_id := u_timer_id u;
     u_gobject_timer_id := u_gobject_timer_id u; u_streams := u_streams u;
     u_pipe_state := u_pipe_state u; u_pipe := u_pipe u; u_adder := u_adder u |}.

Definition with_timer_id (v : Z) (u : UnifiedPlayer) : UnifiedPlayer :=
  {| u_current_stream := u_current_stream u; u_timer_id := v;
     u_gobject_timer_id := u_gobject_timer_id u; u_streams := u_streams u;
     u_pipe_state := u_pipe_state u; u_pipe := u_pipe u; u_adder := u_adder u |}.

Definition with_gobject_timer_id (v : Z) (u : UnifiedPlayer) : UnifiedPlayer :=
  {| u_current_stream := u_current_stream u; u_timer_id := u_timer_id u;
     u_gobject_timer_id := v; u_streams := u_streams u;
     u_pipe_state := u_pipe_state u; u_pipe := u_pipe u; u_adder := u_adder u |}.

Definition with_streams (v : list (option nat)) (u : UnifiedPlayer) : UnifiedPlayer :=
  {| u_current_stream := u_current_stream u; u_timer_id := u_timer_id u;
     u_gobject_timer_id := u_gobject_timer_id u; u_streams := v;
     u_pipe_state := u_pipe_state u; u_pipe := u_pipe u; u_adder := u_adder u |}.

Definition with_pipe_state (v : GstState) (u : UnifiedPlayer) : UnifiedPlayer :=
  {| u_current_stream := u_current_stream u; u_timer_id := u_timer_id u;
     u_gobject_timer_id := u_gobject_timer_id u; u_streams := u_streams u;
     u_pipe_state := v; u_pipe := u_pipe u; u_adder := u_adder u |}.

Definition with_pipe (v : list nat) (u : UnifiedPlayer) : UnifiedPlayer :=
  {| u_current_stream := u_current_stream u; u_timer_id := u_timer_id u;
     u_gobject_timer_id := u_gobject_timer_id u; u_streams := u_streams u;
     u_pipe_state := u_pipe_state u; u_pipe := v; u_adder := u_adder u |}.

Definition with_adder (v : list nat) (u : UnifiedPlayer) : UnifiedPlayer :=
  {| u_current_stream := u_current_stream u; u_timer_id := u_timer_id u;
     u_gobject_timer_id := u_gobject_timer_id u; u_streams := u_streams u;
     u_pipe_state := u_pipe_state u; u_pipe := u_pipe u; u_adder := v |}.

(** [UnifiedPlayer.__init__]. *)
Definition init : UnifiedPlayer :=
  {| u_current_stream := 1; u_timer_id := 0; u_gobject_timer_id := 0;
     u_streams := [None; None]; u_pipe_state := STATE_NULL;
     u_pipe := []; u_adder := [] |}.

Definition update (f : UnifiedPlayer -> UnifiedPlayer) : M unit :=
  modify (fun w => set_unified (f (unified w)) w).

(** [self.pipe.set_state(st)]: the pipeline and every element added to it. *)
Definition pipe_set_state (st : GstState) : M unit :=
  modify (fun w =>
    set_heap (foldr (alter (AudioStream.with_state st)) (heap w) (u_pipe (unified w)))
      (set_unified (with_pipe_state st (unified w)) w)).

(** [self.streams[i]]. *)
Definition slot (i : nat) : M (option nat) :=
  fun w =>
    match u_streams (unified w) !! i with
    | Some s => Ok s w
    | None => Raise IndexError w
    end.

(** A method call on [self.streams[i]], which may be [None]. *)
Definition on_slot {A} (i : nat) (f : nat -> M A) : M A :=
  s <- slot i;;
  match s with
  | Some sid => f sid
  | None => raise AttributeError
  end.

Definition _get_current : M (option Track) :=
  cs <- gets (fun w => u_current_stream (unified w));;
  s <- slot cs;;
  match s with
  | Some sid => AudioStream.get_current sid
  | None => ret None
  end.

Definition _get_gst_state : M GstState := gets (fun w => u_pipe_state (unified w)).

Definition is_playing : M bool :=
  st <- _get_gst_state;; ret (bool_decide (st = STATE_PLAYING)).

Definition is_paused : M bool :=
  st <- _get_gst_state;; ret (bool_decide (st = STATE_PAUSED)).

Definition get_state : M string :=
  st <- _get_gst_state;;
  ret (match st with
       | STATE_PLAYING => "playing"
       | STATE_PAUSED => "paused"
       | _ => "stopped"
       end).

Definition get_position : M Z :=
  try_except
    (cs <- gets (fun w => u_current_stream (unified w));;
     on_slot cs AudioStream.get_position)
    (fun e => match e with
              | AttributeError => ret 0
              | _ => raise e
              end).

Definition get_time : M Z :=
  p <- get_position;; ret (p / SECOND).

Definition get_progress : M Q :=
  try_except
    (t <- get_time;;
     cur <- _get_current;;
     match cur with
     | None => raise AttributeError
     | Some tr =>
         if duration_ms tr =? 0 then raise ZeroDivisionError
         else ret (inject_Z t / (inject_Z (duration_ms tr) / inject_Z 1000))%Q
     end)
    (fun e => match e with
              | ZeroDivisionError => ret 0%Q
              | _ => raise e
              end).

(** [self.streams[self.streams.index(stream)] = None]. *)
Fixpoint clear_first (sid : nat) (l : list (option nat)) : list (option nat) :=
  match l with
  | [] => []
  | x :: r => if bool_decide (x = Some sid) then None :: r else x :: clear_first sid r
  end.

(** [unlink_stream].  [stream] being [None] raises [AttributeError] on the
    first line, which the method answers with [True].  [self.pipe.remove] of
    an element that is not in the pipeline raises [gst.RemoveError]; the
    clause [except RemoveError] names something the module never defines, so
    what reaches the outer handlers is a [NameError], answered with [False]
    before the slot is cleared. *)
Definition unlink_stream (stream : option nat) : M bool :=
  try_except
    (match stream with
     | None => raise AttributeError
     | Some sid =>
         update (fun u => with_adder (filter (fun x => x ≠ sid) (u_adder u)) u);;
         gobject.idle_add (CbStreamSetState sid STATE_NULL);;
         pipe <- gets (fun w => u_pipe (unified w));;
         if bool_decide (sid ∈ pipe) then
           update (fun u => with_pipe (filter (fun x => x ≠ sid) (u_pipe u)) u);;
           update (fun u => with_streams (clear_first sid (u_streams u)) u);;
           ret true
         else raise NameError
     end)
    (fun e => match e with
              | AttributeError => ret true
              | _ => ret false
              end).

Definition _reset_crossfade_timer : M unit :=
  tid <- gets (fun w => u_timer_id (unified w));;
  (if tid =? 0 then ret tt else gobject.source_remove tid);;
  p <- is_playing;;
  if negb p then ret tt else
  st <- gets settings;;
  if negb (crossfading st) then ret tt else
  let duration := crossfade_duration st in
  cur <- _get_current;;
  match cur with
  | None => raise AttributeError
  | Some tr =>
      t <- get_time;;
      let time := duration_ms tr - (t * 1000 + duration) in
      if time <? duration then
        gobject.idle_add CbStartCrossfade;; ret tt
      else
        id <- gobject.timeout_add time CbStartCrossfade;;
        update (with_timer_id id)
  end.

(** [for stream in self.streams: self.unlink_stream(stream)], reading the
    list as it is when each index is reached. *)
Fixpoint unlink_each (idxs : list nat) : M unit :=
  match idxs with
  | [] => ret tt
  | i :: r =>
      s <- gets (fun w => u_streams (unified w) !! i);;
      match s with
      | Some s => unlink_stream s;; unlink_each r
      | None => ret tt
      end
  end.

Definition stop : M bool :=
  p <- is_playing;;
  q <- (if p then ret true else is_paused);;
  if q then
    current <- _get_current;;
    pipe_set_state STATE_NULL;;
    n <- gets (fun w => length (u_streams (unified w)));;
    unlink_each (seq 0 n);;
    _reset_crossfade_timer;;
    log_event "playback_end" OPlayer (obj_of_track current);;
    ret true
  else ret false.

Definition link_stream (sid : nat) (track : option Track) : M bool :=
  update (fun u => with_pipe (u_pipe u ++ [sid]) u);;
  update (fun u => with_adder (u_adder u ++ [sid]) u);;
  ok <- AudioStream.set_track sid track;;
  if negb ok then
    stop;;
    ret false
  else ret true.

(** [AudioStream("Stream%s"%(next), caps=self.caps)]: a new object. *)
Definition new_stream (slot_no : nat) : M nat :=
  fun w =>
    let sid := next_stream_id w in
    let name := ("Stream" ++ (if bool_decide (slot_no = 0%nat) then "0" else "1"))%string in
    Ok sid (set_next_stream_id (S sid)
              (set_heap (<[sid := AudioStream.init name]> (heap w)) w)).

(** [play(track, user)]: [None] for the bare [return], else the boolean. *)
Definition play (track : option Track) (user : bool) : M (option bool) :=
  match track with
  | None => ret None
  | Some t =>
      cs <- gets (fun w => u_current_stream (unified w));;
      let next := (1 - cs)%nat in
      sn <- slot next;;
      (match sn with
       | Some _ => unlink_stream sn;; ret tt
       | None => ret tt
       end);;
      st <- gets settings;;
      fd <- (if user then
               if user_fade_enabled st then ret (true, user_fade st)
               else (c <- slot cs;; unlink_stream c;; ret (false, 0))
             else
               if crossfading st then ret (true, crossfade_duration st)
               else (c <- slot cs;; unlink_stream c;; ret (false, 0)));;
      let fading := fst fd in
      let duration := snd fd in
      sid <- new_stream next;;
      update (fun u => with_streams (<[next := Some sid]> (u_streams u)) u);;
      ok <- on_slot next (fun s => link_stream s track);;
      if negb ok then ret (Some false) else
      (if fading then on_slot next (fun s => AudioStream.set_volume s 0%float)
       else ret tt);;
      pipe_set_state STATE_PLAYING;;
      on_slot next (fun s => AudioStream.update s (AudioStream.with_settle_flag 1));;
      on_slot next (fun s => gobject.idle_add (CbStreamSetState s STATE_PLAYING));;
      gobject.idle_add (CbSetStatePipe STATE_PLAYING);;
      (if fading then
         let timeout := Z.quot duration 100 in
         sn <- slot next;;
         (match sn with
          | Some s => gobject.timeout_add timeout (CbFadeStream s 1 false);; ret tt
          | None => ret tt
          end);;
         sc <- slot cs;;
         (match sc with
          | Some s => gobject.timeout_add timeout (CbFadeStream s (-1) true);; ret tt
          | None => ret tt
          end);;
         if crossfading st then
           let time := duration_ms t - duration in
           id <- gobject.timeout_add time CbStartCrossfade;;
           update (with_gobject_timer_id id)
         else ret tt
       else ret tt);;
      update (with_current_stream next);;
      log_event "playback_start" OPlayer (OTrack t);;
      ret (Some true)
  end.

Definition _set_state (st : GstState) : M bool :=
  pipe_set_state st;; ret false.

(** [_fade_stream(stream, direction, delete)]; the result says whether the
    timer keeps running. *)
Definition _fade_stream (sid : nat) (direction : Z) (delete : bool) : M bool :=
  v <- AudioStream.get_volume sid;;
  let current := (v + float_of_Z direction / 100)%float in
  AudioStream.set_volume sid current;;
  if delete && (current <? f0_01)%float then
    unlink_stream (Some sid);;
    ret false
  else ret ((f0_01 <=? current)%float && (current <=? 1)%float).

(** [_start_crossfade]; [queue_next] is [self.queue.next], the queue having
    been given to the player by [set_queue]. *)
Definition _start_crossfade
    (queue_next : bool -> option Track -> M (option Track)) : M bool :=
  tr <- queue_next false None;;
  (match tr with
   | Some _ => play tr false;; ret tt
   | None => ret tt
   end);;
  tid <- gets (fun w => u_timer_id (unified w));;
  (if tid =? 0 then ret tt else gobject.source_remove tid);;
  (match tr with
   | None =>
       cur <- _get_current;;
       match cur with
       | None => raise AttributeError
       | Some c =>
           t <- get_time;;
           id <- gobject.timeout_add (duration_ms c - 1000 * t) CbStop;;
           update (with_timer_id id)
       end
   | Some _ => ret tt
   end);;
  ret false.

Definition _on_drained
    (queue_next : bool -> option Track -> M (option Track)) (sid : nat) : M unit :=
  unlink_stream (Some sid);;
  st <- gets settings;;
  if negb (crossfading st) then
    tr <- queue_next false None;;
    play tr false;;
    ret tt
  else ret tt.

Definition pause : M bool :=
  p <- is_playing;;
  if p then
    pipe_set_state STATE_PAUSED;;
    _reset_crossfade_timer;;
    cur <- _get_current;;
    log_event "playback_pause" OPlayer (obj_of_track cur);;
    ret true
  else ret false.

Definition unpause : M bool :=
  p <- is_paused;;
  if p then
    cur <- _get_current;;
    match cur with
    | None => raise AttributeError
    | Some t =>
        (if is_local t then ret tt else pipe_set_state STATE_READY);;
        pipe_set_state STATE_PLAYING;;
        _reset_crossfade_timer;;
        cur' <- _get_current;;
        log_event "playback_resume" OPlayer (obj_of_track cur');;
        ret true
    end
  else ret false.

Definition toggle_pause : M unit :=
  p <- is_paused;;
  (if p then unpause else pause);;
  ret tt.

End UnifiedPlayer.

(** ** PlayQueue *)

Module PlayQueue.

Definition with_ordered_tracks (v : list Track) (q : PlayQueue) : PlayQueue :=
  {| ordered_tracks := v; current_pos := current_pos q;
     current_playing := current_playing q; current_playlist := current_playlist q;
     stop_track := stop_track q |}.

Definition with_current_pos (v : Z) (q : PlayQueue) : PlayQueue :=
  {| ordered_tracks := ordered_tracks q; current_pos := v;
     current_playing := current_playing q; current_playlist := current_playlist q;
     stop_track := stop_track q |}.

Definition with_current_playing (v : bool) (q : PlayQueue) : PlayQueue :=
  {| ordered_tracks := ordered_tracks q; current_pos := current_pos q;
     current_playing := v; current_playlist := current_playlist q;
     stop_track := stop_track q |}.

Definition with_current_playlist (v : option Playlist) (q : PlayQueue) : PlayQueue :=
  {| ordered_tracks := ordered_tracks q; current_pos := current_pos q;
     current_playing := current_playing q; current_playlist := v;
     stop_track := stop_track q |}.

Definition with_stop_track (v : PyObj) (q : PlayQueue) : PlayQueue :=
  {| ordered_tracks := ordered_tracks q; current_pos := current_pos q;
     current_playing := current_playing q; current_playlist := current_playlist q;
     stop_track := v |}.

(** [PlayQueue.__init__]: an empty queue, no playlist, [stop_track = -1]. *)
Definition init : PlayQueue :=
  {| ordered_tracks := []; current_pos := 0; current_playing := false;
     current_playlist := None; stop_track := OInt (-1) |}.

Definition update (f : PlayQueue -> PlayQueue) : M unit :=
  modify (fun w => set_queue (f (queue w)) w).

(** Modelled from the spec: [playlist.Playlist.next], which is not in this
    file; the spec has the queue "ask the active playlist to advance",
    absence being "represented, not signaled as failure".  The playlist
    hands out its tracks in order and then [None]. *)
Definition playlist_next (pl : Playlist) : option Track * Playlist :=
  match pl_tracks pl with
  | [] => (None, pl)
  | t :: r => (Some t, {| pl_tracks := r; pl_current_playing := pl_current_playing pl |})
  end.

Definition playlist_set_current_playing (b : bool) (pl : Playlist) : Playlist :=
  {| pl_tracks := pl_tracks pl; pl_current_playing := b |}.

(** [self.player.current], [self.player.stop()], [self.player.play(track)]
    on the engine the queue was built with. *)
Definition player_current : M (option Track) :=
  e <- gets engine;;
  match e with
  | EngineBase => gets (fun w => b_current (base w))
  | EngineUnified => UnifiedPlayer._get_current
  end.

Definition player_stop : M bool :=
  e <- gets engine;;
  match e with
  | EngineBase => BaseGSTPlayer.stop
  | EngineUnified => UnifiedPlayer.stop
  end.

(** [self.player.get_state()]. *)
Definition player_get_state : M string :=
  e <- gets engine;;
  match e with
  | EngineBase => BaseGSTPlayer.get_state
  | EngineUnified => UnifiedPlayer.get_state
  end.

Definition player_play (track : option Track) : M unit :=
  e <- gets engine;;
  match e with
  | EngineBase => BaseGSTPlayer.play track;; ret tt
  | EngineUnified => UnifiedPlayer.play track true;; ret tt
  end.

(** The test [self.player.current == self.stop_track] and, when it holds,
    the stop: the result says whether [next] returns at this point. *)
Definition stop_on_marker : M bool :=
  cur <- player_current;;
  marker <- gets (fun w => stop_track (queue w));;
  if py_eq (obj_of_track cur) marker then
    player_stop;;
    marker' <- gets (fun w => stop_track (queue w));;
    log_event "stop_track" OQueue marker';;
    update (with_stop_track (OInt (-1)));;
    ret true
  else ret false.

(** The track the queue or the current playlist hands out. *)
Definition take_track : M (option Track) :=
  q <- gets queue;;
  match ordered_tracks q with
  | [] =>
      match current_playlist q with
      | Some pl =>
          let r := playlist_next pl in
          update (with_current_playlist
                    (Some (playlist_set_current_playing true (snd r))));;
          update (with_current_playing false);;
          ret (fst r)
      | None => ret None
      end
  | t :: rest =>
      update (with_ordered_tracks rest);;
      update (with_current_pos 0);;
      update (with_current_playing true);;
      q' <- gets queue;;
      (match current_playlist q' with
       | Some pl =>
           update (with_current_playlist
                     (Some (playlist_set_current_playing false pl)))
       | None => ret tt
       end);;
      ret (Some t)
  end.

(** [next(player, track)].  A track object is truthy, and so is a playlist
    object. *)
Definition next (player : bool) (track : option Track) : M (option Track) :=
  r <- (match track with
        | Some _ => ret (Some track)
        | None =>
            stopped <- (if player then stop_on_marker else ret false);;
            if stopped then ret None
            else (t <- take_track;; ret (Some t))
        end);;
  match r with
  | None => ret None
  | Some track =>
      if player then
        match track with
        | None => player_stop;; ret None
        | Some _ => player_play track;; ret track
        end
      else ret track
  end.

(** [self.player.get_time()]. *)
Definition player_get_time : M Z :=
  e <- gets engine;;
  match e with
  | EngineBase => BaseGSTPlayer.get_time
  | EngineUnified => UnifiedPlayer.get_time
  end.

Section Playlist.

(** Methods of [xl.playlist.Playlist], a class of another file:
    [playlist.Playlist.get_current(self)] on the queue itself, and
    [get_current()] and [prev()] of the current playlist.  Whatever they
    do, they do it to the world. *)
Variable Playlist_get_current : M (option Track).
Variable playlist_get_current : Playlist -> M (option Track).
Variable playlist_prev : Playlist -> M (option Track).

Definition get_current : M (option Track) :=
  cur <- player_current;;
  pos <- gets (fun w => current_pos (queue w));;
  if bool_decide (is_Some cur) && (0 <? pos) then player_current
  else
    current <- Playlist_get_current;;
    match current with
    | Some _ => ret current
    | None =>
        pl <- gets (fun w => current_playlist (queue w));;
        match pl with
        | Some pl => playlist_get_current pl
        | None => ret None
        end
    end.

(** [prev()]: the track is [None] unless one of the branches assigns it. *)
Definition prev : M (option Track) :=
  cur <- player_current;;
  track <- (match cur with
            | Some _ =>
                t <- player_get_time;;
                if t <? 5 then
                  pl <- gets (fun w => current_playlist (queue w));;
                  match pl with
                  | Some pl => playlist_prev pl
                  | None => ret None
                  end
                else player_current
            | None => get_current
            end);;
  player_play track;;
  ret track.

End Playlist.

End PlayQueue.

(** ** GSTPlayer and GaplessPlayer: what they add to BaseGSTPlayer *)

Module GSTPlayer.

(** [eof_func]: [self.queue.next()]. *)
Definition eof_func : M unit :=
  PlayQueue.next true None;; ret tt.

End GSTPlayer.

Module GaplessPlayer.

Definition eof_func : M unit :=
  PlayQueue.next true None;; ret tt.

(** [_on_finish], the idle callback of the [about-to-finish] signal. *)
Definition _on_finish : M unit :=
  next <- PlayQueue.next true None;;
  match next with
  | None => BaseGSTPlayer.stop;; ret tt
  | Some t =>
      uri <- BaseGSTPlayer._get_track_uri t;;
      BaseGSTPlayer.update (BaseGSTPlayer.with_uri (Some uri))
  end.

End GaplessPlayer.

(** ** The main loop and the passing of time *)

Module MainLoop.

(** What a source calls; the result is the truth value of what the callback
    returns ([stream.set_state] returns [None]). *)
Definition call (cb : Callback) : M bool :=
  match cb with
  | CbStreamSetState sid st => AudioStream.set_state sid st;; ret false
  | CbSetStatePipe st => UnifiedPlayer._set_state st
  | CbFadeStream sid direction delete => UnifiedPlayer._fade_stream sid direction delete
  | CbStartCrossfade => UnifiedPlayer._start_crossfade PlayQueue.next
  | CbStop => UnifiedPlayer.stop
  | CbSettleStateSub sid => AudioStream._settle_state_sub sid
  end.

(** One dispatch of the source [id]: it stays installed while its callback
    returns a true value; a callback that raises is dropped. *)
Definition dispatch (id : Z) : M unit :=
  srcs <- gets sources;;
  match find (fun s => src_id s =? id) srcs with
  | None => ret tt
  | Some s =>
      keep <- try_except (call (src_cb s)) (fun _ => ret false);;
      if keep then ret tt else gobject.source_remove id
  end.

Fixpoint dispatch_all (ids : list Z) : M unit :=
  match ids with
  | [] => ret tt
  | id :: r => dispatch id;; dispatch_all r
  end.

(** The idle callbacks that are installed now, each run once. *)
Definition run_idle : M unit :=
  srcs <- gets sources;;
  dispatch_all (map src_id (filter (fun s => src_interval s = None) srcs)).

Fixpoint dispatch_times (n : nat) (id : Z) : M unit :=
  match n with
  | O => ret tt
  | S n => dispatch id;; dispatch_times n id
  end.

(** [ms] milliseconds pass: the clock moves, and so does the position of
    every element that is playing. *)
Definition moved (ms : Z) (st : GstState) (q : option Z) : option Z :=
  if bool_decide (st = STATE_PLAYING) then Some (default 0 q + ms * 1000000) else q.

Definition elapse (ms : Z) : M unit :=
  modify (fun w =>
    set_now (now w + ms)
      (set_base (BaseGSTPlayer.with_query (moved ms (b_state (base w)) (b_query (base w)))
                   (base w))
         (set_heap ((fun s => AudioStream.with_query (moved ms (as_state s) (as_query s)) s)
                      <$> heap w) w))).

End MainLoop.

(** ** Worlds to start from *)

Definition init_world (e : Engine) (st : Settings) : World :=
  {| now := 1000000; events := []; playtime := ∅; settings := st;
     sources := []; next_source_id := 1; heap := ∅; next_stream_id := 0;
     engine := e; base := BaseGSTPlayer.init; unified := UnifiedPlayer.init;
     audio_sink := {| sink_name := "Automatic"; sink_elem := "autoaudiosink";
                      sink_vol := 1%float |};
     queue := PlayQueue.init |}.

(** Run a script of steps, stopping at the first that raises. *)
Fixpoint run (steps : list (M unit)) : M unit :=
  match steps with
  | [] => ret tt
  | m :: r => m;; run r
  end.

Definition do_ {A} (m : M A) : M unit := m;; ret tt.

(** ** Tracks, settings and states used in examples *)

Definition track_a : Track :=
  {| track_id := 1; loc := "file:///music/a.ogg"; loc_scheme := "file";
     io_uri := "file:///music/a.ogg"; is_local := true;
     file_exists := true; duration_ms := 200000 |}.

Definition track_b : Track :=
  {| track_id := 2; loc := "file:///music/b.ogg"; loc_scheme := "file";
     io_uri := "file:///music/b.ogg"; is_local := true;
     file_exists := true; duration_ms := 180000 |}.

Definition track_c : Track :=
  {| track_id := 3; loc := "file:///music/c.ogg"; loc_scheme := "file";
     io_uri := "file:///music/c.ogg"; is_local := true;
     file_exists := true; duration_ms := 240000 |}.

(** A track that claims local storage, whose file is gone. *)
Definition track_missing : Track :=
  {| track_id := 4; loc := "file:///music/gone.ogg"; loc_scheme := "file";
     io_uri := "file:///music/gone.ogg"; is_local := true;
     file_exists := false; duration_ms := 180000 |}.

(** A track of two seconds. *)
Definition track_short : Track :=
  {| track_id := 5; loc := "file:///music/jingle.ogg"; loc_scheme := "file";
     io_uri := "file:///music/jingle.ogg"; is_local := true;
     file_exists := true; duration_ms := 2000 |}.

Definition settings_user_fade : Settings :=
  {| user_fade_enabled := true; user_fade := 1000;
     crossfading := false; crossfade_duration := 3000 |}.

Definition settings_crossfade : Settings :=
  {| user_fade_enabled := false; user_fade := 1000;
     crossfading := true; crossfade_duration := 3000 |}.

(** A [GSTPlayer] that plays [track_a]. *)
Definition base_playing_a : World :=
  world_of (BaseGSTPlayer.play (Some track_a) (init_world EngineBase default_settings)).

(** ** Observations of the world *)

(** The events of type [stop_track]. *)
Definition stop_events (w : World) : list Event :=
  filter (fun e : Event => e.1.1 = "stop_track") (events w).

(** [m] leaves the observation [f] of the world as it was, whether it
    returns or raises. *)
Definition preserves {X A} (f : World -> X) (m : M A) : Prop :=
  forall w, f (world_of (m w)) = f w.

(** An observation that the engines cannot change: it does not depend on
    the clock, the playtime tags, the main-loop sources, the streams or the
    engine objects, nor on events other than [stop_track]. *)
Class PlayerFrame {X} (f : World -> X) : Prop := {
  frame_now : forall v w, f (set_now v w) = f w;
  frame_playtime : forall v w, f (set_playtime v w) = f w;
  frame_sources : forall v w, f (set_sources v w) = f w;
  frame_next_source_id : forall v w, f (set_next_source_id v w) = f w;
  frame_heap : forall v w, f (set_heap v w) = f w;
  frame_next_stream_id : forall v w, f (set_next_stream_id v w) = f w;
  frame_base : forall v w, f (set_base v w) = f w;
  frame_unified : forall v w, f (set_unified v w) = f w;
  frame_events : forall ty o d w,
    ty <> "stop_track" -> f (set_events (events w ++ [(ty, o, d)]) w) = f w
}.

(** The marker and the [stop_track] events, observed together. *)
Definition marker_obs (w : World) : PyObj * list Event :=
  (stop_track (queue w), stop_events w).

(** ** States used in examples *)

(** The same, with [track_a] marked as the stop track. *)
Definition base_playing_a_marked : World :=
  set_queue (PlayQueue.with_stop_track (OTrack track_a) (queue base_playing_a))
    base_playing_a.

(** The same, with [track_b] waiting in the queue. *)
Definition base_marked_queued : World :=
  set_queue (PlayQueue.with_ordered_tracks [track_b] (queue base_playing_a_marked))
    base_playing_a_marked.

(** Play [t], pause, resume, stop, on each engine, with the given times in
    between; the idle callbacks run when the main loop is free. *)
Definition unified_pause_cycle (t : Track) (play_ms pause_ms resume_ms : Z) : M unit :=
  run [ do_ (UnifiedPlayer.play (Some t) true);
        MainLoop.run_idle; MainLoop.run_idle;
        MainLoop.elapse play_ms;
        do_ UnifiedPlayer.pause;
        MainLoop.elapse pause_ms;
        do_ UnifiedPlayer.unpause;
        MainLoop.elapse resume_ms;
        do_ UnifiedPlayer.stop;
        MainLoop.run_idle ].

Definition base_pause_cycle (t : Track) (play_ms pause_ms resume_ms : Z) : M unit :=
  run [ do_ (BaseGSTPlayer.play (Some t));
        MainLoop.elapse play_ms;
        do_ BaseGSTPlayer.pause;
        MainLoop.elapse pause_ms;
        do_ BaseGSTPlayer.unpause;
        MainLoop.elapse resume_ms;
        do_ BaseGSTPlayer.stop ].

Definition base_pause_stop (t : Track) (play_ms pause_ms : Z) : M unit :=
  run [ do_ (BaseGSTPlayer.play (Some t));
        MainLoop.elapse play_ms;
        do_ BaseGSTPlayer.pause;
        MainLoop.elapse pause_ms;
        do_ BaseGSTPlayer.stop ].

(** The sources that call [_start_crossfade]. *)
Definition crossfade_sources (w : World) : list Source :=
  filter (fun s => src_cb s = CbStartCrossfade) (sources w).

(** The volume of a stream. *)
Definition stream_volume (sid : nat) (w : World) : float :=
  match heap w !! sid with
  | Some s => as_volume s
  | None => 0%float
  end.

(** [UnifiedPlayer] with user fades on: [track_a] has been played and has
    finished fading in. *)
Definition unified_playing_a : World :=
  world_of (run [ do_ (UnifiedPlayer.play (Some track_a) true);
                  MainLoop.run_idle; MainLoop.run_idle;
                  MainLoop.dispatch_times 100 3 ]
              (init_world EngineUnified settings_user_fade)).

(** Then the user plays [track_b]: a fade from stream 0 to stream 1, whose
    timers are the sources 7 (in) and 8 (out). *)
Definition fading_a_to_b : World :=
  world_of (run [ do_ (UnifiedPlayer.play (Some track_b) true);
                  MainLoop.run_idle; MainLoop.run_idle ] unified_playing_a).

(** [n] rounds of the two fade timers: after each round, the volume of the
    incoming stream, that of the outgoing stream, and whether the outgoing
    stream is still linked to the mixer. *)
Fixpoint crossfade_trace (n : nat) (id_in id_out : Z) (s_in s_out : nat) (w : World)
  : list (float * float * bool) :=
  match n with
  | O => []
  | S n =>
      let w' := world_of ((MainLoop.dispatch id_in;; MainLoop.dispatch id_out) w) in
      (stream_volume s_in w', stream_volume s_out w',
       bool_decide (s_out ∈ u_adder (unified w')))
        :: crossfade_trace n id_in id_out s_in s_out w'
  end.

Fixpoint monotone (le : float -> float -> bool) (l : list float) : bool :=
  match l with
  | a :: r => match r with
              | b :: _ => le a b && monotone le r
              | [] => true
              end
  | [] => true
  end.

(** One round of that fade, then the user plays [track_c]. *)
Definition fading_interrupted : World :=
  world_of (run [ MainLoop.dispatch 7; MainLoop.dispatch 8;
                  do_ (UnifiedPlayer.play (Some track_c) true) ] fading_a_to_b).

(** [n] rounds of the two fade timers. *)
Fixpoint crossfade_rounds (n : nat) (id_in id_out : Z) : M unit :=
  match n with
  | O => ret tt
  | S n => MainLoop.dispatch id_in;; MainLoop.dispatch id_out;;
           crossfade_rounds n id_in id_out
  end.

(** What [_reset_crossfade_timer] does to the main loop: the source that
    [self.timer_id] names goes first; then at most one source is added, a
    call of [_start_crossfade], and if it is a timer its handle is kept in
    [self.timer_id]. *)
Definition without_timer (w : World) : list Source :=
  if u_timer_id (unified w) =? 0 then sources w
  else filter (fun s => src_id s ≠ u_timer_id (unified w)) (sources w).

(** What unlinking streams leaves of the engine: everything but the main
    loop, the pipeline membership, a mixer that only loses streams, and
    slots that are either as before or emptied of a stream that is no longer
    in the mixer. *)
Definition unlinked_from (w w' : World) : Prop :=
  u_pipe_state (unified w') = u_pipe_state (unified w) /\
  u_current_stream (unified w') = u_current_stream (unified w) /\
  length (u_streams (unified w')) = length (u_streams (unified w)) /\
  events w' = events w /\ settings w' = settings w /\
  heap w' = heap w /\ next_stream_id w' = next_stream_id w /\
  (forall x, x ∈ u_adder (unified w') -> x ∈ u_adder (unified w)) /\
  (forall i, u_streams (unified w') !! i = u_streams (unified w) !! i \/
             (u_streams (unified w') !! i = Some None /\
              exists sid, u_streams (unified w) !! i = Some (Some sid) /\
                          sid ∉ u_adder (unified w'))).

(** [UnifiedPlayer] with crossfading on and [track_c] in the queue; then two
    automatic transitions, to [track_a] and to [track_b]. *)
Definition crossfade_queue_c : World :=
  set_queue (PlayQueue.with_ordered_tracks [track_c] PlayQueue.init)
    (init_world EngineUnified settings_crossfade).

Definition two_plays : World :=
  world_of (run [ do_ (UnifiedPlayer.play (Some track_a) false);
                  MainLoop.run_idle; MainLoop.run_idle;
                  do_ (UnifiedPlayer.play (Some track_b) false);
                  MainLoop.run_idle; MainLoop.run_idle ] crossfade_queue_c).

(** [UnifiedPlayer] with crossfading on: [track_a] is played, paused and
    resumed, so that [unpause] has armed a start timer and recorded it in
    [self.timer_id]. *)
Definition crossfade_resumed : World :=
  world_of (run [ do_ (UnifiedPlayer.play (Some track_a) false);
                  MainLoop.run_idle; MainLoop.run_idle;
                  do_ UnifiedPlayer.pause; do_ UnifiedPlayer.unpause ]
              (init_world EngineUnified settings_crossfade)).

(** An idle call of [stream.set_state(gst.STATE_NULL)], as [unlink_stream]
    queues it. *)
Definition idle_set_state_null (s : Source) : Prop :=
  src_interval s = None /\ exists sid, src_cb s = CbStreamSetState sid STATE_NULL.

(** The volumes that [n] ticks of one fade timer give a stream that starts
    at [v]. *)
Fixpoint fade_values (direction : Z) (v : float) (n : nat) : list float :=
  match n with
  | O => []
  | S n =>
      let v' := (v + float_of_Z direction / 100)%float in
      v' :: fade_values direction v' n
  end.

(** Whether a source calls [_fade_stream]. *)
Definition is_fade_cb (cb : Callback) : bool :=
  match cb with
  | CbFadeStream _ _ _ => true
  | _ => false
  end.

(** The fade timers that are pending, each with its interval and its call. *)
Definition fade_timers (w : World) : list (option Z * Callback) :=
  map (fun s => (src_interval s, src_cb s))
    (filter (fun s => is_fade_cb (src_cb s) = true) (sources w)).

(** What a tick of a fade timer answers when it has set the volume [v]:
    whether the timer goes on. *)
Definition fade_answer (delete : bool) (v : float) : bool :=
  negb (delete && (v <? f0_01)%float) && ((f0_01 <=? v)%float && (v <=? 1)%float).

(** [n] ticks in a row of one fade timer: what each answers, and the volume
    it leaves. *)
Fixpoint fade_ticks (sid : nat) (direction : Z) (delete : bool) (n : nat)
  : M (list (bool * float)) :=
  match n with
  | O => ret []
  | S n =>
      b <- UnifiedPlayer._fade_stream sid direction delete;;
      v <- AudioStream.get_volume sid;;
      r <- fade_ticks sid direction delete n;;
      ret ((b, v) :: r)
  end.

(** The playtime that [update_playtime] would add to, for track [t]. *)
Definition credited (t : Track) (w : World) : Z :=
  AudioStream.last_playtime (default ONone (playtime w !! track_id t)).

(** ** Definitions for the further properties *)

(** The number of times [c] stands in [s]. *)
Fixpoint occurrences (c : ascii) (s : string) : nat :=
  match s with
  | EmptyString => 0%nat
  | String x r => ((if Ascii.eqb x c then 1 else 0) + occurrences c r)%nat
  end.

(** The option strings in which [=] stands exactly once. *)
Definition well_formed_options (strs : list string) : Prop :=
  Forall (fun v => occurrences "="%char v = 1%nat) strs.

(** The option string [param=value]. *)
Definition option_string (kv : string * string) : string :=
  (kv.1 ++ String "="%char kv.2)%string.

(** Whether the playbin is playing or paused. *)
Definition base_active (w : World) : bool :=
  bool_decide (b_state (base w) = STATE_PLAYING) || bool_decide (b_state (base w) = STATE_PAUSED).

(** The playtime tags once the play time of the current track is credited. *)
Definition base_credited (w : World) : gmap nat PyObj :=
  match b_current (base w), AudioStream.stamp_truthy (b_playtime_stamp (base w)) with
  | Some c, Some stamp =>
      <[track_id c := OInt (credited c w + int_since stamp w)]> (playtime w)
  | _, _ => playtime w
  end.

(** [GSTPlayer] playing [track_a], [track_b] waiting in the queue. *)
Definition base_playing_a_queued : World :=
  set_queue (PlayQueue.with_ordered_tracks [track_b] (queue base_playing_a)) base_playing_a.

(** Play [t]; the stream buffers ([low] percent, then [high] percent); stop;
    with the given times in between. *)
Definition base_buffering_cycle (t : Track) (low high play_ms buffer_ms resume_ms : Z)
  : M unit :=
  run [ do_ (BaseGSTPlayer.play (Some t));
        MainLoop.elapse play_ms;
        do_ (BaseGSTPlayer.on_message None GSTPlayer.eof_func (MESSAGE_BUFFERING low));
        MainLoop.elapse buffer_ms;
        do_ (BaseGSTPlayer.on_message None GSTPlayer.eof_func (MESSAGE_BUFFERING high));
        MainLoop.elapse resume_ms;
        do_ BaseGSTPlayer.stop ].

(** [n] calls of [next(player=False)], and what they return. *)
Fixpoint drain (n : nat) : M (list (option Track)) :=
  match n with
  | O => ret []
  | S n =>
      t <- PlayQueue.next false None;;
      r <- drain n;;
      ret (t :: r)
  end.

(** The position that [BaseGSTPlayer.get_position] answers. *)
Definition base_position (w : World) : Z :=
  if bool_decide (b_state (base w) = STATE_PAUSED) then b_last_position (base w)
  else default 0 (b_query (base w)).

(** [GSTPlayer] six seconds into [track_a]. *)
Definition base_playing_a_6s : World :=
  world_of (MainLoop.elapse 6000 base_playing_a).

(** The streams that the slots hold. *)
Definition slot_streams (w : World) : list nat := omap id (u_streams (unified w)).

(** The shape of the graph: two slots, one of them current; the streams
    linked to the mixer are those added to the pipeline, which are those the
    slots hold, each once; they are objects of the store, and the store has
    only objects that have been made. *)
Definition graph_ok (w : World) : Prop :=
  length (u_streams (unified w)) = 2%nat /\
  (u_current_stream (unified w) < 2)%nat /\
  u_adder (unified w) = u_pipe (unified w) /\
  u_pipe (unified w) ≡ₚ slot_streams w /\
  NoDup (u_pipe (unified w)) /\
  (forall s, s ∈ u_pipe (unified w) -> is_Some (heap w !! s)) /\
  (forall s, is_Some (heap w !! s) -> (s < next_stream_id w)%nat).

(** What [graph_ok] reads of the world. *)
Definition graph_obs (w : World)
  : list (option nat) * nat * list nat * list nat * nat * gset nat :=
  (u_streams (unified w), u_current_stream (unified w), u_adder (unified w),
   u_pipe (unified w), next_stream_id w, dom (heap w)).

(** [m], started where [P] holds, returns where [Q] holds of its result or
    raises where [E] holds. *)
Definition hoare {A} (P : World -> Prop) (m : M A) (Q : A -> World -> Prop)
    (E : World -> Prop) : Prop :=
  forall w, P w ->
    match m w with
    | Ok a w' => Q a w'
    | Raise _ w' => E w'
    end.

(** [m] keeps the shape of the graph, whether it returns or raises. *)
Definition keeps {A} (m : M A) : Prop :=
  hoare graph_ok m (fun _ => graph_ok) graph_ok.

(** Whether the pipeline is playing or paused. *)
Definition unified_active (w : World) : bool :=
  bool_decide (u_pipe_state (unified w) = STATE_PLAYING)
  || bool_decide (u_pipe_state (unified w) = STATE_PAUSED).

(** Whether [play(track, user)] fades. *)
Definition fades (user : bool) (st : Settings) : bool :=
  if user then user_fade_enabled st else crossfading st.

(** A new stream put in an empty slot, added to the pipeline and linked to
    the mixer. *)
Definition attached (next : nat) (name : string) (w : World) : World :=
  let sid := next_stream_id w in
  set_unified
    (UnifiedPlayer.with_adder (u_adder (unified w) ++ [sid])
       (UnifiedPlayer.with_pipe (u_pipe (unified w) ++ [sid])
          (UnifiedPlayer.with_streams (<[next := Some sid]> (u_streams (unified w)))
             (unified w))))
    (set_next_stream_id (S sid) (set_heap (<[sid := AudioStream.init name]> (heap w)) w)).

(** What happens to the engine, from outside and from the main loop. *)
Inductive Action : Type :=
| APlay (track : option Track) (user : bool)
| AStop
| APause
| AUnpause
| ATogglePause
| ANext (player : bool) (track : option Track)
| ADrained (sid : nat)
| ADispatch (id : Z)
| AIdle
| AElapse (ms : Z)
| AQueue (q : PlayQueue)
| ASettings (st : Settings).

(** [AQueue] and [ASettings] stand for what the rest of the program does to
    the queue and to the settings. *)
Definition perform (a : Action) : M unit :=
  match a with
  | APlay track user => UnifiedPlayer.play track user;; ret tt
  | AStop => UnifiedPlayer.stop;; ret tt
  | APause => UnifiedPlayer.pause;; ret tt
  | AUnpause => UnifiedPlayer.unpause;; ret tt
  | ATogglePause => UnifiedPlayer.toggle_pause
  | ANext player track => PlayQueue.next player track;; ret tt
  | ADrained sid => UnifiedPlayer._on_drained PlayQueue.next sid
  | ADispatch id => MainLoop.dispatch id
  | AIdle => MainLoop.run_idle
  | AElapse ms => MainLoop.elapse ms
  | AQueue q => modify (set_queue q)
  | ASettings st => modify (set_settings st)
  end.

(** The world after a history of actions; after an action that raises, the
    world is as the exception left it. *)
Fixpoint history (acts : list Action) (w : World) : World :=
  match acts with
  | [] => w
  | a :: r => history r (world_of (perform a w))
  end.

(** The unified engine playing [track_a], nothing in the queue. *)
Definition unified_gapless_a : World :=
  history [APlay (Some track_a) false; AIdle; AIdle]
    (init_world EngineUnified default_settings).

(** The same with crossfading on, after a pause and a resume: [unpause] has
    armed a start timer and recorded it in [self.timer_id]. *)
Definition unified_crossfade_resumed : World :=
  history [APlay (Some track_a) false; AIdle; AIdle; APause; AUnpause]
    (init_world EngineUnified settings_crossfade).

(** * Properties *)

(** Settle the [bool_decide] tests that the hypotheses decide. *)
Ltac decide_tests :=
  repeat match goal with
  | |- context [bool_decide ?P] =>
      first [ rewrite (bool_decide_eq_true_2 P)
                by (first [assumption | reflexivity | congruence])
            | rewrite (bool_decide_eq_false_2 P)
                by (first [assumption | discriminate | congruence]) ]
  end.

(** ** AudioSink.get_volume *)

(** C10: whatever volume [set_volume] stored in the sink's volume element,
    [get_volume] returns [None]: it reads the property and drops it. *)
Theorem AudioSink_get_volume_returns_None (v : float) (w : World) :
  exists w',
    AudioSink.set_volume v w = Ok tt w' /\
    sink_vol (audio_sink w') = v /\
    AudioSink.get_volume w' = Ok None w' /\
    value_of (AudioSink.get_volume w') <> Some (Some v).
Proof.
  eexists; repeat split; try reflexivity.
  cbn; congruence.
Qed.

(** ** get_progress *)

Lemma BaseGSTPlayer_get_progress_no_current (w : World) :
  b_current (base w) = None ->
  exists w', BaseGSTPlayer.get_progress w = Raise AttributeError w'.
Proof.
  intros H.
  unfold BaseGSTPlayer.get_progress, try_except, bind, BaseGSTPlayer.get_time,
    BaseGSTPlayer.get_position, BaseGSTPlayer.is_paused,
    BaseGSTPlayer._get_gst_state, bind, gets, ret.
  destruct (bool_decide _); simpl; rewrite H; simpl; eauto.
Qed.

Lemma BaseGSTPlayer_get_progress_zero_duration (w : World) (t : Track) :
  b_current (base w) = Some t -> duration_ms t = 0 ->
  exists w', BaseGSTPlayer.get_progress w = Ok 0%Q w'.
Proof.
  intros H Hd.
  unfold BaseGSTPlayer.get_progress, try_except, bind, BaseGSTPlayer.get_time,
    BaseGSTPlayer.get_position, BaseGSTPlayer.is_paused,
    BaseGSTPlayer._get_gst_state, bind, gets, ret.
  destruct (bool_decide _); simpl; rewrite H, Hd; simpl; eauto.
Qed.

Lemma BaseGSTPlayer_get_progress_ratio (w : World) (t : Track) :
  b_current (base w) = Some t -> duration_ms t <> 0 ->
  exists secs w',
    BaseGSTPlayer.get_time w = Ok secs w' /\
    BaseGSTPlayer.get_progress w =
      Ok (inject_Z secs / (inject_Z (duration_ms t) / inject_Z 1000))%Q w'.
Proof.
  intros H Hd. apply Z.eqb_neq in Hd.
  unfold BaseGSTPlayer.get_progress, try_except, bind, BaseGSTPlayer.get_time,
    BaseGSTPlayer.get_position, BaseGSTPlayer.is_paused,
    BaseGSTPlayer._get_gst_state, bind, gets, ret.
  destruct (bool_decide _); simpl; rewrite H, Hd; simpl; eauto.
Qed.

(** C9: with no current track, [get_progress] does not return 0: the
    attribute access on [None] raises and only [ZeroDivisionError] is
    caught.  Both engines, freshly built. *)
Theorem get_progress_without_track_raises :
  BaseGSTPlayer.get_progress (init_world EngineBase default_settings)
    = Raise AttributeError
        (world_of (BaseGSTPlayer.get_time (init_world EngineBase default_settings))) /\
  UnifiedPlayer.get_progress (init_world EngineUnified default_settings)
    = Raise AttributeError (init_world EngineUnified default_settings).
Proof. split; reflexivity. Qed.

(** ** Binding a track whose file is missing *)

Lemma BaseGSTPlayer_stop_idle (w : World) :
  b_state (base w) <> STATE_PLAYING -> b_state (base w) <> STATE_PAUSED ->
  BaseGSTPlayer.stop w = Ok false w.
Proof.
  intros H1 H2.
  unfold BaseGSTPlayer.stop, BaseGSTPlayer.is_playing, BaseGSTPlayer.is_paused,
    BaseGSTPlayer._get_gst_state, bind, gets, ret.
  rewrite !bool_decide_eq_false_2 by assumption. reflexivity.
Qed.

Lemma BaseGSTPlayer_stop_active (w : World) :
  b_state (base w) = STATE_PLAYING \/ b_state (base w) = STATE_PAUSED ->
  exists w',
    BaseGSTPlayer.stop w = Ok true w' /\
    b_current (base w') = None /\
    b_state (base w') = STATE_NULL /\
    events w' = events w ++ [("playback_end", OPlayer, obj_of_track (b_current (base w)))].
Proof.
  intros H.
  unfold BaseGSTPlayer.stop, BaseGSTPlayer.is_playing, BaseGSTPlayer.is_paused,
    BaseGSTPlayer._get_gst_state, BaseGSTPlayer.update_playtime, bind, gets, ret.
  destruct (b_current (base w)) as [t|] eqn:Hc;
    [destruct (AudioStream.stamp_truthy (b_playtime_stamp (base w))) eqn:Hs|];
    destruct H as [H | H]; decide_tests; cbn; rewrite ?Hc, ?Hs; cbn;
    eexists; repeat split; cbn; rewrite ?Hc; reflexivity.
Qed.

(** [stop] on a player that is playing or paused credits the play time of
    the current track. *)
Lemma BaseGSTPlayer_stop_playtime (w : World) :
  b_state (base w) = STATE_PLAYING \/ b_state (base w) = STATE_PAUSED ->
  playtime (world_of (BaseGSTPlayer.stop w)) = base_credited w.
Proof.
  intros H.
  unfold BaseGSTPlayer.stop, BaseGSTPlayer.is_playing, BaseGSTPlayer.is_paused,
    BaseGSTPlayer._get_gst_state, BaseGSTPlayer.update_playtime, base_credited,
    bind, gets, ret.
  destruct (b_current (base w)) as [t|] eqn:Hc;
    [destruct (AudioStream.stamp_truthy (b_playtime_stamp (base w))) eqn:Hs|];
    destruct H as [H | H]; decide_tests; cbn; rewrite ?Hc, ?Hs; reflexivity.
Qed.

(** C8 (amended): binding a local track whose file is missing returns
    [False].  [AudioStream.set_track] leaves everything as it was.
    [BaseGSTPlayer.play] has called [stop()] first, and does nothing else: a
    player that is neither playing nor paused is unchanged; one that is
    playing or paused has been stopped (playbin down, play time of the
    current track credited, current track cleared, [playback_end] emitted).
    The missing track is never bound. *)
Theorem bind_missing_local_track (t : Track) (sid : nat) (w : World) :
  is_local t = true -> file_exists t = false ->
  AudioStream.set_track sid (Some t) w = Ok false w /\
  (exists b w',
      BaseGSTPlayer.stop w = Ok b w' /\
      BaseGSTPlayer.play (Some t) w = Ok false w' /\
      (b_state (base w) <> STATE_PLAYING -> b_state (base w) <> STATE_PAUSED -> w' = w) /\
      (b_state (base w) = STATE_PLAYING \/ b_state (base w) = STATE_PAUSED ->
         b_current (base w') = None /\ b_state (base w') = STATE_NULL /\
         playtime w' = base_credited w /\
         b_uri (base w') = b_uri (base w) /\
         events w' = events w ++
           [("playback_end", OPlayer, obj_of_track (b_current (base w)))])).
Proof.
  intros Hl He. split.
  - unfold AudioStream.set_track. rewrite Hl, He. reflexivity.
  - assert (Hplay : BaseGSTPlayer.play (Some t) w
                    = (BaseGSTPlayer.stop;; ret false) w).
    { unfold BaseGSTPlayer.play. rewrite Hl, He. reflexivity. }
    destruct (decide (b_state (base w) = STATE_PLAYING \/ b_state (base w) = STATE_PAUSED))
      as [Ha | Hi].
    + destruct (BaseGSTPlayer_stop_active w Ha) as (w' & Hs & Hc & Hst & Hev).
      pose proof (BaseGSTPlayer_stop_playtime w Ha) as Hpt.
      assert (Huri : b_uri (base (world_of (BaseGSTPlayer.stop w))) = b_uri (base w)).
      { clear. unfold BaseGSTPlayer.stop, BaseGSTPlayer.is_playing,
          BaseGSTPlayer.is_paused, BaseGSTPlayer._get_gst_state,
          BaseGSTPlayer.update_playtime, bind, gets, ret.
        destruct (bool_decide (b_state (base w) = STATE_PLAYING));
          [|destruct (bool_decide (b_state (base w) = STATE_PAUSED)); [|reflexivity]];
          cbn; (destruct (b_current (base w));
                [destruct (AudioStream.stamp_truthy _)|]; reflexivity). }
      rewrite Hs in Hpt, Huri. cbn [world_of] in Hpt, Huri.
      exists true, w'. rewrite Hplay. unfold bind. rewrite Hs.
      repeat split; try assumption; try reflexivity.
      intros H1 H2. destruct Ha; contradiction.
    + assert (H1 : b_state (base w) <> STATE_PLAYING) by tauto.
      assert (H2 : b_state (base w) <> STATE_PAUSED) by tauto.
      exists false, w. rewrite Hplay. unfold bind.
      rewrite (BaseGSTPlayer_stop_idle w H1 H2).
      split; [reflexivity|]. split; [reflexivity|]. split; [reflexivity|].
      intros H. contradiction.
Qed.

Lemma bind_missing_local_track_witness :
  AudioStream.set_track 0 (Some track_missing) base_playing_a_6s
    = Ok false base_playing_a_6s /\
  (exists b w',
      BaseGSTPlayer.stop base_playing_a_6s = Ok b w' /\
      BaseGSTPlayer.play (Some track_missing) base_playing_a_6s = Ok false w' /\
      (b_state (base base_playing_a_6s) <> STATE_PLAYING ->
       b_state (base base_playing_a_6s) <> STATE_PAUSED -> w' = base_playing_a_6s) /\
      (b_state (base base_playing_a_6s) = STATE_PLAYING \/
       b_state (base base_playing_a_6s) = STATE_PAUSED ->
         b_current (base w') = None /\ b_state (base w') = STATE_NULL /\
         playtime w' = base_credited base_playing_a_6s /\
         b_uri (base w') = b_uri (base base_playing_a_6s) /\
         events w' = events base_playing_a_6s ++
           [("playback_end", OPlayer, obj_of_track (b_current (base base_playing_a_6s)))])).
Proof.
  apply (bind_missing_local_track track_missing 0%nat base_playing_a_6s); reflexivity.
Defined.

(** C8 as stated fails for [BaseGSTPlayer.play]: while [track_a] plays, a
    failed attempt on the missing track clears the current-track binding and
    takes the playbin down. *)
Lemma bind_missing_stops_playback :
  b_current (base base_playing_a) = Some track_a /\
  b_state (base base_playing_a) = STATE_PLAYING /\
  value_of (BaseGSTPlayer.play (Some track_missing) base_playing_a) = Some false /\
  b_current (base (world_of (BaseGSTPlayer.play (Some track_missing) base_playing_a)))
    = None /\
  b_state (base (world_of (BaseGSTPlayer.play (Some track_missing) base_playing_a)))
    = STATE_NULL /\
  BaseGSTPlayer.play (Some track_missing) base_playing_a <> Ok false base_playing_a.
Proof.
  repeat split; try reflexivity.
  intros H.
  apply (f_equal (fun r => b_current (base (world_of r)))) in H.
  vm_compute in H. discriminate.
Qed.

(** ** What the engines leave alone *)
#[global] Instance PlayerFrame_queue : PlayerFrame queue.
Proof. split; reflexivity. Qed.

#[global] Instance PlayerFrame_engine : PlayerFrame engine.
Proof. split; reflexivity. Qed.

#[global] Instance PlayerFrame_settings : PlayerFrame settings.
Proof. split; reflexivity. Qed.

#[global] Instance PlayerFrame_stop_events : PlayerFrame stop_events.
Proof.
  split; try reflexivity.
  intros ty o d w H. unfold stop_events. cbn.
  rewrite filter_app, filter_cons_False by (cbn; congruence).
  rewrite filter_nil. apply app_nil_r.
Qed.

Section Frame.
Context {X : Type} (f : World -> X) `{!PlayerFrame f}.

Lemma preserves_ret {A} (a : A) : preserves f (ret a).
Proof. intros w; reflexivity. Qed.

Lemma preserves_raise {A} (e : PyExc) : preserves f (@raise A e).
Proof. intros w; reflexivity. Qed.

Lemma preserves_gets {A} (g : World -> A) : preserves f (gets g).
Proof. intros w; reflexivity. Qed.

Lemma preserves_modify (g : World -> World) :
  (forall w, f (g w) = f w) -> preserves f (modify g).
Proof. intros H w; apply H. Qed.

Lemma preserves_bind {A B} (m : M A) (k : A -> M B) :
  preserves f m -> (forall a, preserves f (k a)) -> preserves f (bind m k).
Proof.
  intros Hm Hk w. unfold bind. specialize (Hm w).
  destruct (m w) as [a w' | e w']; cbn in *.
  - rewrite Hk. exact Hm.
  - exact Hm.
Qed.

Lemma preserves_try_except {A} (m : M A) (h : PyExc -> M A) :
  preserves f m -> (forall e, preserves f (h e)) -> preserves f (try_except m h).
Proof.
  intros Hm Hh w. unfold try_except. specialize (Hm w).
  destruct (m w) as [a w' | e w']; cbn in *.
  - exact Hm.
  - rewrite Hh. exact Hm.
Qed.

End Frame.

Ltac frame_fields :=
  repeat first
    [ rewrite frame_now | rewrite frame_playtime | rewrite frame_sources
    | rewrite frame_next_source_id | rewrite frame_heap
    | rewrite frame_next_stream_id | rewrite frame_base | rewrite frame_unified ];
  try reflexivity.

Create HintDb frame.

Ltac frame_step :=
  lazymatch goal with
  | |- preserves _ (bind _ _) => apply preserves_bind; [| intros ?]
  | |- preserves _ (ret _) => apply preserves_ret
  | |- preserves _ (raise _) => apply preserves_raise
  | |- preserves _ (gets _) => apply preserves_gets
  | |- preserves _ (try_except _ _) => apply preserves_try_except; [| intros ?]
  | |- preserves _ (modify _) => apply preserves_modify; intros ?; frame_fields
  | |- preserves _ (log_event _ _ _) =>
      apply preserves_modify; intros ?; apply frame_events; discriminate
  | |- preserves _ (match ?x with _ => _ end) => destruct x
  | |- preserves _ (let _ := _ in _) => cbv zeta
    | |- _ => solve [eauto with frame typeclass_instances]
  end.

Ltac frame := repeat frame_step.

Section FrameLemmas.
Context {X : Type} (f : World -> X) `{!PlayerFrame f}.

Lemma frame_add_source i cb : preserves f (gobject.add_source i cb).
Proof. intros w; unfold gobject.add_source, world_of; frame_fields. Qed.

Lemma frame_idle_add cb : preserves f (gobject.idle_add cb).
Proof. apply frame_add_source. Qed.

Lemma frame_timeout_add i cb : preserves f (gobject.timeout_add i cb).
Proof. apply frame_add_source. Qed.

Lemma frame_source_remove id : preserves f (gobject.source_remove id).
Proof. unfold gobject.source_remove; frame. Qed.

Lemma frame_stream_self sid : preserves f (AudioStream.self sid).
Proof. intros w; unfold AudioStream.self; destruct (heap w !! sid); reflexivity. Qed.

Lemma frame_stream_update sid g : preserves f (AudioStream.update sid g).
Proof. unfold AudioStream.update; frame. Qed.

End FrameLemmas.

#[global] Hint Resolve frame_add_source frame_idle_add frame_timeout_add
  frame_source_remove frame_stream_self frame_stream_update : frame.

Section FrameStreams.
Context {X : Type} (f : World -> X) `{!PlayerFrame f}.

Lemma frame_stream_set_volume sid v : preserves f (AudioStream.set_volume sid v).
Proof. unfold AudioStream.set_volume; frame. Qed.

Lemma frame_stream_get_volume sid : preserves f (AudioStream.get_volume sid).
Proof. unfold AudioStream.get_volume; frame. Qed.

Lemma frame_stream_reset_playtime_stamp sid :
  preserves f (AudioStream.reset_playtime_stamp sid).
Proof. unfold AudioStream.reset_playtime_stamp; frame. Qed.

Lemma frame_credit_playtime t stamp : preserves f (AudioStream.credit_playtime t stamp).
Proof. unfold AudioStream.credit_playtime; frame. Qed.

Hint Resolve frame_stream_reset_playtime_stamp frame_credit_playtime : frame.

Lemma frame_stream_update_playtime sid : preserves f (AudioStream.update_playtime sid).
Proof. unfold AudioStream.update_playtime; frame. Qed.

Lemma frame_stream_set_track sid t : preserves f (AudioStream.set_track sid t).
Proof. unfold AudioStream.set_track; frame. Qed.

Lemma frame_stream_get_gst_state sid : preserves f (AudioStream._get_gst_state sid).
Proof. unfold AudioStream._get_gst_state; frame. Qed.

Hint Resolve frame_stream_get_gst_state : frame.

Lemma frame_stream_is_playing sid : preserves f (AudioStream.is_playing sid).
Proof. unfold AudioStream.is_playing; frame. Qed.

Lemma frame_stream_is_paused sid : preserves f (AudioStream.is_paused sid).
Proof. unfold AudioStream.is_paused; frame. Qed.

Hint Resolve frame_stream_is_playing frame_stream_is_paused : frame.

Lemma frame_stream_get_current sid : preserves f (AudioStream.get_current sid).
Proof. unfold AudioStream.get_current; frame. Qed.

Lemma frame_stream_get_position sid : preserves f (AudioStream.get_position sid).
Proof. unfold AudioStream.get_position; frame. Qed.

End FrameStreams.

#[global] Hint Resolve frame_stream_set_volume frame_stream_get_volume
  frame_stream_reset_playtime_stamp frame_credit_playtime
  frame_stream_update_playtime frame_stream_set_track frame_stream_get_gst_state
  frame_stream_is_playing frame_stream_is_paused frame_stream_get_current
  frame_stream_get_position : frame.

Section FrameBase.
Context {X : Type} (f : World -> X) `{!PlayerFrame f}.

Lemma frame_base_update g : preserves f (BaseGSTPlayer.update g).
Proof. unfold BaseGSTPlayer.update; frame. Qed.

Lemma frame_base_get_gst_state : preserves f BaseGSTPlayer._get_gst_state.
Proof. unfold BaseGSTPlayer._get_gst_state; frame. Qed.

Hint Resolve frame_base_update frame_base_get_gst_state : frame.

Lemma frame_base_is_playing : preserves f BaseGSTPlayer.is_playing.
Proof. unfold BaseGSTPlayer.is_playing; frame. Qed.

Lemma frame_base_is_paused : preserves f BaseGSTPlayer.is_paused.
Proof. unfold BaseGSTPlayer.is_paused; frame. Qed.

Lemma frame_base_update_playtime : preserves f BaseGSTPlayer.update_playtime.
Proof. unfold BaseGSTPlayer.update_playtime; frame. Qed.

Lemma frame_base_reset_playtime_stamp : preserves f BaseGSTPlayer.reset_playtime_stamp.
Proof. unfold BaseGSTPlayer.reset_playtime_stamp; frame. Qed.

Hint Resolve frame_base_is_playing frame_base_is_paused frame_base_update_playtime
  frame_base_reset_playtime_stamp : frame.

Lemma frame_base_stop : preserves f BaseGSTPlayer.stop.
Proof. unfold BaseGSTPlayer.stop; frame. Qed.

Hint Resolve frame_base_stop : frame.

Lemma frame_base_get_track_uri t : preserves f (BaseGSTPlayer._get_track_uri t).
Proof. unfold BaseGSTPlayer._get_track_uri; frame. Qed.

Hint Resolve frame_base_get_track_uri : frame.

Lemma frame_base_play t : preserves f (BaseGSTPlayer.play t).
Proof. unfold BaseGSTPlayer.play; frame. Qed.

End FrameBase.

#[global] Hint Resolve frame_base_update frame_base_get_gst_state
  frame_base_is_playing frame_base_is_paused frame_base_update_playtime
  frame_base_reset_playtime_stamp frame_base_stop frame_base_play : frame.

Section FrameUnified.
Context {X : Type} (f : World -> X) `{!PlayerFrame f}.

Lemma frame_unified_update g : preserves f (UnifiedPlayer.update g).
Proof. unfold UnifiedPlayer.update; frame. Qed.

Lemma frame_pipe_set_state st : preserves f (UnifiedPlayer.pipe_set_state st).
Proof. unfold UnifiedPlayer.pipe_set_state; frame. Qed.

Lemma frame_slot i : preserves f (UnifiedPlayer.slot i).
Proof.
  intros w; unfold UnifiedPlayer.slot.
  destruct (u_streams (unified w) !! i); reflexivity.
Qed.

Hint Resolve frame_unified_update frame_pipe_set_state frame_slot : frame.

Lemma frame_on_slot {A} i (g : nat -> M A) :
  (forall sid, preserves f (g sid)) -> preserves f (UnifiedPlayer.on_slot i g).
Proof. intros H; unfold UnifiedPlayer.on_slot; frame. Qed.

Lemma frame_unified_get_current : preserves f UnifiedPlayer._get_current.
Proof. unfold UnifiedPlayer._get_current; frame. Qed.

Lemma frame_unified_get_gst_state : preserves f UnifiedPlayer._get_gst_state.
Proof. unfold UnifiedPlayer._get_gst_state; frame. Qed.

Hint Resolve frame_unified_get_current frame_unified_get_gst_state : frame.

Lemma frame_unified_is_playing : preserves f UnifiedPlayer.is_playing.
Proof. unfold UnifiedPlayer.is_playing; frame. Qed.

Lemma frame_unified_is_paused : preserves f UnifiedPlayer.is_paused.
Proof. unfold UnifiedPlayer.is_paused; frame. Qed.

Lemma frame_unified_get_position : preserves f UnifiedPlayer.get_position.
Proof.
  unfold UnifiedPlayer.get_position; frame.
  apply frame_on_slot; intros; frame.
Qed.

Hint Resolve frame_unified_is_playing frame_unified_is_paused
  frame_unified_get_position : frame.

Lemma frame_unified_get_time : preserves f UnifiedPlayer.get_time.
Proof. unfold UnifiedPlayer.get_time; frame. Qed.

Lemma frame_unlink_stream s : preserves f (UnifiedPlayer.unlink_stream s).
Proof. unfold UnifiedPlayer.unlink_stream; frame. Qed.

Hint Resolve frame_unified_get_time frame_unlink_stream : frame.

Lemma frame_reset_crossfade_timer : preserves f UnifiedPlayer._reset_crossfade_timer.
Proof. unfold UnifiedPlayer._reset_crossfade_timer; frame. Qed.

Lemma frame_unlink_each idxs : preserves f (UnifiedPlayer.unlink_each idxs).
Proof. induction idxs as [|i r IH]; cbn [UnifiedPlayer.unlink_each]; frame. Qed.

Hint Resolve frame_reset_crossfade_timer frame_unlink_each : frame.

Lemma frame_unified_stop : preserves f UnifiedPlayer.stop.
Proof. unfold UnifiedPlayer.stop; frame. Qed.

Hint Resolve frame_unified_stop : frame.

Lemma frame_link_stream sid t : preserves f (UnifiedPlayer.link_stream sid t).
Proof. unfold UnifiedPlayer.link_stream; frame. Qed.

Lemma frame_new_stream n : preserves f (UnifiedPlayer.new_stream n).
Proof. intros w; unfold UnifiedPlayer.new_stream, world_of; frame_fields. Qed.

Hint Resolve frame_link_stream frame_new_stream : frame.

Lemma frame_unified_play t user : preserves f (UnifiedPlayer.play t user).
Proof.
  unfold UnifiedPlayer.play; frame;
    try (apply frame_on_slot; intros; frame).
Qed.

End FrameUnified.

#[global] Hint Resolve frame_unified_update frame_pipe_set_state frame_slot
  frame_unified_get_current frame_unified_get_gst_state frame_unified_is_playing
  frame_unified_is_paused frame_unified_get_position frame_unified_get_time
  frame_unlink_stream frame_reset_crossfade_timer frame_unlink_each
  frame_unified_stop frame_link_stream frame_new_stream frame_unified_play : frame.

Section FrameQueue.
Context {X : Type} (f : World -> X) `{!PlayerFrame f}.

Lemma frame_player_current : preserves f PlayQueue.player_current.
Proof. unfold PlayQueue.player_current; frame. Qed.

Lemma frame_player_stop : preserves f PlayQueue.player_stop.
Proof. unfold PlayQueue.player_stop; frame. Qed.

Lemma frame_player_play t : preserves f (PlayQueue.player_play t).
Proof. unfold PlayQueue.player_play; frame. Qed.

End FrameQueue.

#[global] Hint Resolve frame_player_current frame_player_stop frame_player_play : frame.

(** ** Stepping through a computation *)

Lemma bind_eq {A B} (m : M A) (k : A -> M B) (w : World) :
  bind m k w = match m w with
               | Ok a w' => k a w'
               | Raise e w' => Raise e w'
               end.
Proof. reflexivity. Qed.

Lemma world_of_bind {A B} (m : M A) (k : A -> M B) (w : World) :
  world_of (bind m k w) = match m w with
                          | Ok a w' => world_of (k a w')
                          | Raise e w' => w'
                          end.
Proof. unfold bind; destruct (m w); reflexivity. Qed.

Lemma gets_eq {A} (g : World -> A) (w : World) : gets g w = Ok (g w) w.
Proof. reflexivity. Qed.

Lemma ret_eq {A} (a : A) (w : World) : ret a w = Ok a w.
Proof. reflexivity. Qed.

Lemma raise_eq {A} (e : PyExc) (w : World) : @raise A e w = Raise e w.
Proof. reflexivity. Qed.

Lemma modify_eq (g : World -> World) (w : World) : modify g w = Ok tt (g w).
Proof. reflexivity. Qed.

Lemma try_except_eq {A} (m : M A) (h : PyExc -> M A) (w : World) :
  try_except m h w = match m w with
                     | Ok a w' => Ok a w'
                     | Raise e w' => h e w'
                     end.
Proof. reflexivity. Qed.

(** Run the computation in the goal as far as it is determined. *)
Ltac msimpl :=
  repeat (progress (rewrite ?bind_eq, ?gets_eq, ?ret_eq, ?modify_eq, ?raise_eq,
                      ?try_except_eq; cbv beta iota)).

Lemma unified_is_playing_eq (w : World) :
  UnifiedPlayer.is_playing w
  = Ok (bool_decide (u_pipe_state (unified w) = STATE_PLAYING)) w.
Proof. reflexivity. Qed.

Lemma unified_is_paused_eq (w : World) :
  UnifiedPlayer.is_paused w
  = Ok (bool_decide (u_pipe_state (unified w) = STATE_PAUSED)) w.
Proof. reflexivity. Qed.

(** ** Stopping: both engines *)

Lemma clear_first_length sid l : length (UnifiedPlayer.clear_first sid l) = length l.
Proof.
  induction l as [|x r IH]; cbn; [reflexivity|].
  destruct (bool_decide (x = Some sid)); cbn; congruence.
Qed.

(** [unlink_stream] never raises, and what it changes is the mixer, the
    pipeline membership, the slots and the idle queue. *)
Lemma unlink_stream_returns (s : option nat) (w : World) :
  exists b w',
    UnifiedPlayer.unlink_stream s w = Ok b w' /\
    u_pipe_state (unified w') = u_pipe_state (unified w) /\
    u_timer_id (unified w') = u_timer_id (unified w) /\
    u_current_stream (unified w') = u_current_stream (unified w) /\
    length (u_streams (unified w')) = length (u_streams (unified w)) /\
    events w' = events w /\
    settings w' = settings w.
Proof.
  destruct s as [sid|]; unfold UnifiedPlayer.unlink_stream, try_except, bind; cbn.
  - destruct (bool_decide (sid ∈ _)); cbn; do 2 eexists;
      repeat split; cbn; try reflexivity.
    apply clear_first_length.
  - do 2 eexists; repeat split; reflexivity.
Qed.

Lemma unlink_each_returns (idxs : list nat) (w : World) :
  exists w',
    UnifiedPlayer.unlink_each idxs w = Ok tt w' /\
    u_pipe_state (unified w') = u_pipe_state (unified w) /\
    u_timer_id (unified w') = u_timer_id (unified w) /\
    u_current_stream (unified w') = u_current_stream (unified w) /\
    length (u_streams (unified w')) = length (u_streams (unified w)) /\
    events w' = events w /\
    settings w' = settings w.
Proof.
  revert w; induction idxs as [|i r IH]; intros w; cbn [UnifiedPlayer.unlink_each].
  - exists w; repeat split; reflexivity.
  - unfold bind, gets.
    destruct (u_streams (unified w) !! i) as [s|].
    + destruct (unlink_stream_returns s w) as (b & w1 & -> & H1 & H2 & H3 & H4 & H5 & H6).
      destruct (IH w1) as (w2 & -> & G1 & G2 & G3 & G4 & G5 & G6).
      exists w2; repeat split; congruence.
    + exists w; repeat split; reflexivity.
Qed.

(** Off the playing state, [_reset_crossfade_timer] only removes the source
    that [self.timer_id] names. *)
Lemma reset_crossfade_timer_not_playing (w : World) :
  u_pipe_state (unified w) <> STATE_PLAYING ->
  UnifiedPlayer._reset_crossfade_timer w =
    Ok tt (if u_timer_id (unified w) =? 0 then w
           else set_sources
                  (filter (fun s => src_id s ≠ u_timer_id (unified w)) (sources w)) w).
Proof.
  intros H.
  unfold UnifiedPlayer._reset_crossfade_timer, UnifiedPlayer.is_playing,
    UnifiedPlayer._get_gst_state, gobject.source_remove, bind, gets, ret, modify.
  destruct (u_timer_id (unified w) =? 0); cbn; decide_tests; reflexivity.
Qed.

Lemma UnifiedPlayer_stop_returns (w : World) (cur : option Track) :
  UnifiedPlayer._get_current w = Ok cur w ->
  exists b w',
    UnifiedPlayer.stop w = Ok b w' /\
    u_pipe_state (unified w') <> STATE_PLAYING /\
    u_pipe_state (unified w') <> STATE_PAUSED.
Proof.
  intros Hc.
  assert (Hactive : exists w',
      (current <- UnifiedPlayer._get_current;;
       UnifiedPlayer.pipe_set_state STATE_NULL;;
       n <- gets (fun w => length (u_streams (unified w)));;
       UnifiedPlayer.unlink_each (seq 0 n);;
       UnifiedPlayer._reset_crossfade_timer;;
       log_event "playback_end" OPlayer (obj_of_track current);;
       ret true) w = Ok true w' /\
      u_pipe_state (unified w') = STATE_NULL).
  { rewrite bind_eq, Hc. cbv beta iota. rewrite bind_eq.
    set (w1 := world_of (UnifiedPlayer.pipe_set_state STATE_NULL w)).
    change (UnifiedPlayer.pipe_set_state STATE_NULL w) with (Ok tt w1).
    cbv beta iota. rewrite bind_eq. unfold gets at 1. cbv beta iota.
    rewrite bind_eq.
    destruct (unlink_each_returns (seq 0 (length (u_streams (unified w1)))) w1)
      as (w2 & -> & G1 & _).
    assert (Hn : u_pipe_state (unified w2) = STATE_NULL) by (rewrite G1; reflexivity).
    rewrite bind_eq.
    rewrite reset_crossfade_timer_not_playing by congruence.
    eexists. split; [reflexivity|].
    destruct (u_timer_id (unified w2) =? 0); exact Hn. }
  destruct Hactive as (w' & Hrun & Hn).
  assert (Hstop : UnifiedPlayer.stop w =
            if bool_decide (u_pipe_state (unified w) = STATE_PLAYING)
               || bool_decide (u_pipe_state (unified w) = STATE_PAUSED)
            then Ok true w' else Ok false w).
  { rewrite <- Hrun. unfold UnifiedPlayer.stop.
    rewrite bind_eq, unified_is_playing_eq. cbv beta iota.
    rewrite bind_eq.
    destruct (bool_decide (u_pipe_state (unified w) = STATE_PLAYING)).
    - reflexivity.
    - rewrite unified_is_paused_eq.
      destruct (bool_decide (u_pipe_state (unified w) = STATE_PAUSED)); reflexivity. }
  rewrite Hstop.
  destruct (u_pipe_state (unified w)) eqn:Hs; decide_tests; cbn [orb];
    first [ exists false, w; rewrite Hs; repeat split; discriminate
          | exists true, w'; rewrite Hn; repeat split; discriminate ].
Qed.

Lemma BaseGSTPlayer_stop_returns (w : World) :
  exists b w',
    BaseGSTPlayer.stop w = Ok b w' /\
    b_state (base w') <> STATE_PLAYING /\
    b_state (base w') <> STATE_PAUSED.
Proof.
  destruct (decide (b_state (base w) = STATE_PLAYING \/ b_state (base w) = STATE_PAUSED))
    as [Ha | Hi].
  - destruct (BaseGSTPlayer_stop_active w Ha) as (w' & -> & _ & Hs & _).
    exists true, w'. rewrite Hs. repeat split; discriminate.
  - exists false, w. rewrite BaseGSTPlayer_stop_idle by tauto. tauto.
Qed.

(** ** PlayQueue.next and the stop-track marker *)

Lemma player_stop_returns (w : World) (cur : option Track) :
  PlayQueue.player_current w = Ok cur w ->
  exists b w1,
    PlayQueue.player_stop w = Ok b w1 /\
    PlayQueue.player_get_state w1 = Ok "stopped" w1.
Proof.
  intros Hc.
  cbv [PlayQueue.player_current bind gets] in Hc.
  unfold PlayQueue.player_stop, PlayQueue.player_get_state.
  rewrite bind_eq. unfold gets at 1. cbv beta iota.
  destruct (engine w) eqn:He.
  - destruct (BaseGSTPlayer_stop_returns w) as (b & w1 & Hs & H1 & H2).
    exists b, w1. split; [exact Hs|].
    pose proof (frame_base_stop engine w) as Hf. rewrite Hs in Hf. cbn in Hf.
    rewrite bind_eq. unfold gets at 1. cbv beta iota. rewrite Hf, He.
    unfold BaseGSTPlayer.get_state, BaseGSTPlayer._get_gst_state, bind, gets, ret.
    destruct (b_state (base w1)); congruence.
  - destruct (UnifiedPlayer_stop_returns w cur Hc) as (b & w1 & Hs & H1 & H2).
    exists b, w1. split; [exact Hs|].
    pose proof (frame_unified_stop engine w) as Hf. rewrite Hs in Hf. cbn in Hf.
    rewrite bind_eq. unfold gets at 1. cbv beta iota. rewrite Hf, He.
    unfold UnifiedPlayer.get_state, UnifiedPlayer._get_gst_state, bind, gets, ret.
    destruct (u_pipe_state (unified w1)); congruence.
Qed.

(** [get_state] reads the engine objects only. *)
Lemma player_get_state_same (w w' : World) (s : string) :
  PlayQueue.player_get_state w = Ok s w ->
  engine w' = engine w -> base w' = base w -> unified w' = unified w ->
  PlayQueue.player_get_state w' = Ok s w'.
Proof.
  unfold PlayQueue.player_get_state, BaseGSTPlayer.get_state, UnifiedPlayer.get_state,
    BaseGSTPlayer._get_gst_state, UnifiedPlayer._get_gst_state.
  intros H He Hb Hu. revert H. msimpl. rewrite He.
  destruct (engine w); msimpl; rewrite ?Hb, ?Hu; intros H; inversion H as [Hs];
    rewrite Hs; reflexivity.
Qed.

#[global] Instance PlayerFrame_marker_obs : PlayerFrame marker_obs.
Proof.
  split; try reflexivity.
  intros ty o d w H. unfold marker_obs. f_equal.
  apply (frame_events (f := stop_events)); assumption.
Qed.

Lemma take_track_marker_obs : preserves marker_obs PlayQueue.take_track.
Proof.
  intros w. unfold PlayQueue.take_track, PlayQueue.update, bind, gets, modify, ret.
  destruct (ordered_tracks (queue w)) as [|t r]; cbn.
  - destruct (current_playlist (queue w)); reflexivity.
  - destruct (current_playlist (queue w)); reflexivity.
Qed.

(** With the marker at its sentinel, the test of [next] fails whatever is
    rendering. *)
Lemma stop_on_marker_cleared (w : World) :
  stop_track (queue w) = OInt (-1) ->
  marker_obs (world_of (PlayQueue.stop_on_marker w)) = marker_obs w /\
  value_of (PlayQueue.stop_on_marker w) <> Some true.
Proof.
  intros Hm. unfold PlayQueue.stop_on_marker.
  pose proof (frame_player_current marker_obs w) as Hf.
  rewrite !bind_eq. destruct (PlayQueue.player_current w) as [cur w1 | e w1]; cbn in Hf.
  - msimpl.
    assert (Hm1 : stop_track (queue w1) = OInt (-1)).
    { unfold marker_obs in Hf. congruence. }
    rewrite Hm1.
    assert (Hne : py_eq (obj_of_track cur) (OInt (-1)) = false).
    { unfold py_eq. apply bool_decide_eq_false_2. destruct cur; cbn; discriminate. }
    rewrite Hne. msimpl. cbn. split; [exact Hf | discriminate].
  - cbn. split; [exact Hf | discriminate].
Qed.

Lemma next_marker_cleared (player : bool) (t : option Track) (w : World) :
  stop_track (queue w) = OInt (-1) ->
  marker_obs (world_of (PlayQueue.next player t w)) = marker_obs w.
Proof.
  intros Hm. unfold PlayQueue.next.
  assert (Htail : forall r : option (option Track),
    preserves marker_obs
      (match r with
       | None => ret None
       | Some track =>
           if player then
             match track with
             | None => PlayQueue.player_stop;; ret None
             | Some _ => PlayQueue.player_play track;; ret track
             end
           else ret track
       end)).
  { intros r. frame. }
  rewrite world_of_bind.
  destruct t as [t|].
  - exact (Htail (Some (Some t)) w).
  - rewrite bind_eq.
    assert (Htake : forall w1, marker_obs w1 = marker_obs w ->
      marker_obs
        match (t <- PlayQueue.take_track;; ret (Some t)) w1 with
        | Ok a w' =>
            world_of
              (match a with
               | None => ret None
               | Some track =>
                   if player then
                     match track with
                     | None => PlayQueue.player_stop;; ret None
                     | Some _ => PlayQueue.player_play track;; ret track
                     end
                   else ret track
               end w')
        | Raise _ w' => w'
        end = marker_obs w).
    { intros w1 H1. rewrite bind_eq.
      pose proof (take_track_marker_obs w1) as Ht.
      destruct (PlayQueue.take_track w1) as [tr w2 | e w2]; cbn [world_of] in Ht.
      - transitivity (marker_obs w2); [exact (Htail (Some tr) w2) | congruence].
      - cbv beta iota. congruence. }
    destruct player.
    + destruct (stop_on_marker_cleared w Hm) as [Hobs Hv].
      destruct (PlayQueue.stop_on_marker w) as [[|] w1 | e w1];
        cbn [world_of value_of] in Hobs, Hv.
      * congruence.
      * exact (Htake w1 Hobs).
      * exact Hobs.
    + exact (Htake w eq_refl).
Qed.

Lemma nexts_marker_cleared (calls : list (bool * option Track)) (w : World) :
  stop_track (queue w) = OInt (-1) ->
  marker_obs (world_of (run (map (fun c => do_ (PlayQueue.next c.1 c.2)) calls) w))
  = marker_obs w.
Proof.
  revert w; induction calls as [|[p t] r IH]; intros w Hm; cbn [map run].
  - reflexivity.
  - rewrite world_of_bind. cbn [fst snd]. unfold do_ at 1. rewrite bind_eq.
    pose proof (next_marker_cleared p t w Hm) as Hn.
    destruct (PlayQueue.next p t w) as [a w1 | e w1]; cbn [world_of] in Hn; msimpl.
    + transitivity (marker_obs w1); [|exact Hn].
      apply IH. unfold marker_obs in Hn. congruence.
    + exact Hn.
Qed.

(** C1 (amended): a call [next()] that is to drive the player ([player]
    true, no track given) and finds the rendering track equal to the
    stop-track marker stops the player, emits one [stop_track] event, resets
    the marker to -1 and returns [None]; after that, no sequence of [next]
    calls, whatever their arguments, emits another [stop_track] event.  A
    call with [player=False] does not test the marker, whatever is rendering
    and whatever the queue and the playlist hold: it returns what the queue
    or, the queue being empty, the playlist hands out, and touches nothing
    but the queue, whose marker stays. *)
Theorem next_stops_on_marker (w : World) :
  (forall cur : option Track,
    PlayQueue.player_current w = Ok cur w ->
    obj_of_track cur = stop_track (queue w) ->
    exists b w1,
      PlayQueue.player_stop w = Ok b w1 /\
      let marker := stop_track (queue w) in
      let w' := set_queue (PlayQueue.with_stop_track (OInt (-1)) (queue w1))
                  (set_events (events w1 ++ [("stop_track", OQueue, marker)]) w1) in
      PlayQueue.next true None w = Ok None w' /\
      PlayQueue.player_get_state w' = Ok "stopped" w' /\
      stop_track (queue w') = OInt (-1) /\
      stop_events w' = stop_events w ++ [("stop_track", OQueue, marker)] /\
      forall calls : list (bool * option Track),
        stop_events (world_of (run (map (fun c => do_ (PlayQueue.next c.1 c.2)) calls) w'))
        = stop_events w') /\
  (exists q,
    PlayQueue.next false None w
      = Ok (match ordered_tracks (queue w), current_playlist (queue w) with
            | t :: _, _ => Some t
            | [], Some pl => fst (PlayQueue.playlist_next pl)
            | [], None => None
            end) (set_queue q w) /\
    stop_track q = stop_track (queue w)).
Proof.
  split.
  - intros cur Hc Heq.
    destruct (player_stop_returns w cur Hc) as (b & w1 & Hs & Hst).
    exists b, w1. split; [exact Hs|]. cbv zeta.
    pose proof (frame_player_stop queue w) as Hq. rewrite Hs in Hq. cbn in Hq.
    pose proof (frame_player_stop stop_events w) as He. rewrite Hs in He. cbn in He.
    split; [|split; [|split; [|split]]].
    + unfold PlayQueue.next. rewrite bind_eq, bind_eq.
      unfold PlayQueue.stop_on_marker. rewrite bind_eq, Hc. cbv beta iota.
      rewrite bind_eq. unfold gets at 1. cbv beta iota.
      rewrite Heq. unfold py_eq. rewrite bool_decide_eq_true_2 by reflexivity.
      rewrite bind_eq, Hs. cbv beta iota.
      unfold bind, gets, log_event, PlayQueue.update, modify, ret. rewrite <- Hq.
      reflexivity.
    + apply (player_get_state_same w1); [exact Hst | reflexivity ..].
    + reflexivity.
    + rewrite <- He. unfold stop_events. cbn [events set_queue set_events].
      rewrite filter_app, filter_cons_True by reflexivity.
      rewrite filter_nil. reflexivity.
    + intros calls.
      match goal with |- stop_events (world_of (_ ?w0)) = _ =>
        pose proof (nexts_marker_cleared calls w0 eq_refl) as Hn end.
      unfold marker_obs in Hn. congruence.
  - cbv [PlayQueue.next PlayQueue.take_track PlayQueue.update bind gets modify ret].
    destruct (ordered_tracks (queue w)) as [|t rest] eqn:Hq.
    + destruct (current_playlist (queue w)) as [pl|] eqn:Hp.
      * eexists. split; [reflexivity|]. reflexivity.
      * exists (queue w). split; [destruct w; reflexivity | reflexivity].
    + cbn. destruct (current_playlist (queue w)) as [pl|] eqn:Hp;
        (eexists; split; [reflexivity|]; reflexivity).
Qed.

Lemma next_stops_on_marker_witness :
  PlayQueue.player_current base_playing_a_marked
    = Ok (Some track_a) base_playing_a_marked /\
  obj_of_track (Some track_a) = stop_track (queue base_playing_a_marked) /\
  exists b w1,
    PlayQueue.player_stop base_playing_a_marked = Ok b w1 /\
    let marker := stop_track (queue base_playing_a_marked) in
    let w' := set_queue (PlayQueue.with_stop_track (OInt (-1)) (queue w1))
                (set_events (events w1 ++ [("stop_track", OQueue, marker)]) w1) in
    PlayQueue.next true None base_playing_a_marked = Ok None w' /\
    PlayQueue.player_get_state w' = Ok "stopped" w' /\
    stop_track (queue w') = OInt (-1) /\
    stop_events w' = stop_events base_playing_a_marked ++ [("stop_track", OQueue, marker)] /\
    forall calls : list (bool * option Track),
      stop_events (world_of (run (map (fun c => do_ (PlayQueue.next c.1 c.2)) calls) w'))
      = stop_events w'.
Proof.
  split; [reflexivity|]. split; [reflexivity|].
  apply (proj1 (next_stops_on_marker base_playing_a_marked) (Some track_a)); reflexivity.
Defined.

(** C1 as stated fails for a call with [player=False] (the way
    [UnifiedPlayer] calls [next]): the rendering track equals the marker, yet
    nothing is stopped, no [stop_track] event is emitted, the marker stays
    and the queued track is returned. *)
Lemma next_without_player_ignores_marker :
  PlayQueue.player_current base_marked_queued = Ok (Some track_a) base_marked_queued /\
  stop_track (queue base_marked_queued) = OTrack track_a /\
  exists w',
    PlayQueue.next false None base_marked_queued = Ok (Some track_b) w' /\
    stop_events w' = [] /\
    stop_track (queue w') = OTrack track_a /\
    PlayQueue.player_get_state w' = Ok "playing" w'.
Proof.
  split; [reflexivity|]. split; [reflexivity|].
  eexists. split; [reflexivity|]. repeat split.
Qed.

(** ** Playtime across a pause *)

Lemma base_pause_cycle_playtime :
  playtime (world_of (base_pause_cycle track_a 10000 100000 5000
                        (init_world EngineBase default_settings)))
    !! track_id track_a = Some (OInt 15).
Proof. vm_compute. reflexivity. Qed.

(** Stopping a paused [BaseGSTPlayer] credits the pause: [pause] sets the
    stamp again after flushing. *)
Lemma base_pause_stop_playtime :
  playtime (world_of (base_pause_stop track_a 10000 100000
                        (init_world EngineBase default_settings)))
    !! track_id track_a = Some (OInt 110).
Proof. vm_compute. reflexivity. Qed.

(** *** [BaseGSTPlayer]: what each transport call does to the playtime *)

Lemma get_track_uri_eq (t : Track) (w : World) :
  loc_scheme t <> EmptyString -> BaseGSTPlayer._get_track_uri t w = Ok (io_uri t) w.
Proof.
  intros H. unfold BaseGSTPlayer._get_track_uri.
  apply String.eqb_neq in H. rewrite H. reflexivity.
Qed.

Lemma base_play_starts (w : World) (t : Track) :
  is_local t && negb (file_exists t) = false -> loc_scheme t <> EmptyString ->
  b_state (base w) <> STATE_PLAYING -> b_state (base w) <> STATE_PAUSED ->
  exists w',
    BaseGSTPlayer.play (Some t) w = Ok true w' /\
    b_state (base w') = STATE_PLAYING /\ b_current (base w') = Some t /\
    b_playtime_stamp (base w') = Some (now w / 1000) /\
    playtime w' = playtime w /\ now w' = now w.
Proof.
  intros Hok Hsch H1 H2. unfold BaseGSTPlayer.play.
  rewrite bind_eq, (BaseGSTPlayer_stop_idle w H1 H2). cbv beta iota. rewrite Hok.
  unfold BaseGSTPlayer.reset_playtime_stamp, BaseGSTPlayer.update, int_time, log_event.
  msimpl. rewrite (get_track_uri_eq t _ Hsch).
  msimpl. destruct (String.prefix _ _); msimpl; eexists; split; try reflexivity;
    cbn; repeat split; reflexivity.
Qed.

Lemma elapse_clock (ms : Z) (w : World) :
  exists w',
    MainLoop.elapse ms w = Ok tt w' /\
    b_state (base w') = b_state (base w) /\ b_current (base w') = b_current (base w) /\
    b_playtime_stamp (base w') = b_playtime_stamp (base w) /\
    playtime w' = playtime w /\ now w' = now w + ms.
Proof. eexists. split; [reflexivity|]. cbn. repeat split; reflexivity. Qed.

Lemma base_pause_flushes (w : World) (t : Track) (stamp : Z) :
  b_state (base w) = STATE_PLAYING -> b_current (base w) = Some t ->
  b_playtime_stamp (base w) = Some stamp -> stamp <> 0 ->
  exists w',
    BaseGSTPlayer.pause w = Ok true w' /\
    b_state (base w') = STATE_PAUSED /\ b_current (base w') = Some t /\
    b_playtime_stamp (base w') = Some (now w / 1000) /\
    credited t w' = credited t w + Z.quot (now w - 1000 * stamp) 1000 /\
    now w' = now w.
Proof.
  intros Hs Hc Hst Hnz.
  unfold BaseGSTPlayer.pause, BaseGSTPlayer.is_playing, BaseGSTPlayer._get_gst_state,
    BaseGSTPlayer.update_playtime, BaseGSTPlayer.reset_playtime_stamp,
    BaseGSTPlayer.update, AudioStream.credit_playtime, int_time, int_since, log_event.
  msimpl. rewrite Hs. decide_tests. msimpl. rewrite Hc, Hst.
  unfold AudioStream.stamp_truthy. apply Z.eqb_neq in Hnz. rewrite Hnz. msimpl.
  eexists. split; [reflexivity|]. cbn. rewrite ?Hc.
  repeat split; try reflexivity.
  unfold credited. cbn. rewrite lookup_insert_eq. reflexivity.
Qed.

Lemma base_unpause_restamps (w : World) (t : Track) :
  b_state (base w) = STATE_PAUSED -> b_current (base w) = Some t ->
  exists w',
    BaseGSTPlayer.unpause w = Ok true w' /\
    b_state (base w') = STATE_PLAYING /\ b_current (base w') = Some t /\
    b_playtime_stamp (base w') = Some (now w / 1000) /\
    playtime w' = playtime w /\ now w' = now w.
Proof.
  intros Hs Hc.
  unfold BaseGSTPlayer.unpause, BaseGSTPlayer.is_paused, BaseGSTPlayer._get_gst_state,
    BaseGSTPlayer.reset_playtime_stamp, BaseGSTPlayer.update, int_time, log_event.
  msimpl. rewrite Hs. decide_tests. msimpl.
  change (b_current (base (set_base (BaseGSTPlayer.with_playtime_stamp
            (Some (now w / 1000)) (base w)) w))) with (b_current (base w)).
  rewrite Hc.
  destruct (is_local t); msimpl; eexists; (split; [reflexivity|]); cbn;
    repeat split; first [reflexivity | exact Hc].
Qed.

Lemma base_stop_flushes (w : World) (t : Track) (stamp : Z) :
  b_state (base w) = STATE_PLAYING \/ b_state (base w) = STATE_PAUSED ->
  b_current (base w) = Some t ->
  b_playtime_stamp (base w) = Some stamp -> stamp <> 0 ->
  exists w',
    BaseGSTPlayer.stop w = Ok true w' /\
    credited t w' = credited t w + Z.quot (now w - 1000 * stamp) 1000.
Proof.
  intros Hs Hc Hst Hnz.
  unfold BaseGSTPlayer.stop, BaseGSTPlayer.is_playing, BaseGSTPlayer.is_paused,
    BaseGSTPlayer._get_gst_state, BaseGSTPlayer.update_playtime, BaseGSTPlayer.update,
    AudioStream.credit_playtime, int_since, log_event.
  apply Z.eqb_neq in Hnz.
  destruct Hs as [Hs | Hs]; msimpl; rewrite Hs; decide_tests; msimpl;
    rewrite ?Hs; decide_tests; msimpl; rewrite Hc, Hst;
    unfold AudioStream.stamp_truthy; rewrite Hnz; msimpl;
    (eexists; split; [reflexivity|]); unfold credited; cbn;
    rewrite lookup_insert_eq; reflexivity.
Qed.

(** On [BaseGSTPlayer], a cycle play, pause, resume, stop credits the two
    playing intervals, each counted from the whole second in which it began,
    and nothing for the pause. *)
Lemma base_pause_cycle_credits (w : World) (t : Track) (p q r : Z) :
  is_local t && negb (file_exists t) = false -> loc_scheme t <> EmptyString ->
  b_state (base w) <> STATE_PLAYING -> b_state (base w) <> STATE_PAUSED ->
  1000 <= now w -> 0 <= p -> 0 <= q -> 0 <= r ->
  exists w',
    base_pause_cycle t p q r w = Ok tt w' /\
    credited t w' = credited t w
      + Z.quot (p + now w mod 1000) 1000
      + Z.quot (r + (now w + p + q) mod 1000) 1000.
Proof.
  intros Hok Hsch H1 H2 Hnow Hp Hq Hr. unfold base_pause_cycle. cbn [run]. unfold do_.
  destruct (base_play_starts w t Hok Hsch H1 H2) as (w1 & E1 & S1 & C1 & T1 & P1 & N1).
  rewrite !bind_eq, E1. cbv beta iota. rewrite ret_eq. cbv beta iota.
  destruct (elapse_clock p w1) as (w2 & E2 & S2 & C2 & T2 & P2 & N2).
  rewrite !bind_eq, E2. cbv beta iota.
  destruct (base_pause_flushes w2 t (now w / 1000)) as (w3 & E3 & S3 & C3 & T3 & P3 & N3);
    [congruence | congruence | congruence | |].
  { intros Hz. apply Z.div_small_iff in Hz; lia. }
  rewrite !bind_eq, E3. cbv beta iota. rewrite ret_eq. cbv beta iota.
  destruct (elapse_clock q w3) as (w4 & E4 & S4 & C4 & T4 & P4 & N4).
  rewrite !bind_eq, E4. cbv beta iota.
  destruct (base_unpause_restamps w4 t) as (w5 & E5 & S5 & C5 & T5 & P5 & N5);
    [congruence | congruence |].
  rewrite !bind_eq, E5. cbv beta iota. rewrite ret_eq. cbv beta iota.
  destruct (elapse_clock r w5) as (w6 & E6 & S6 & C6 & T6 & P6 & N6).
  rewrite !bind_eq, E6. cbv beta iota.
  destruct (base_stop_flushes w6 t (now w4 / 1000)) as (w7 & E7 & P7);
    [left; congruence | congruence | congruence | |].
  { intros Hz. apply Z.div_small_iff in Hz; lia. }
  rewrite !bind_eq, E7. cbv beta iota. rewrite !ret_eq. cbv beta iota.
  exists w7. split; [reflexivity|].
  rewrite P7.
  assert (Hc6 : credited t w6 = credited t w3).
  { unfold credited. congruence. }
  assert (Hc2 : credited t w2 = credited t w).
  { unfold credited. congruence. }
  rewrite Hc6, P3, Hc2.
  replace (now w2 - 1000 * (now w / 1000)) with (p + now w mod 1000)
    by (rewrite N2, N1; pose proof (Z.div_mod (now w) 1000); lia).
  replace (now w6 - 1000 * (now w4 / 1000)) with (r + now w4 mod 1000)
    by (rewrite N6, N5; pose proof (Z.div_mod (now w4) 1000); lia).
  replace (now w4) with (now w + p + q) by lia.
  reflexivity.
Qed.

(** C4: on [UnifiedPlayer], 10 s of playing, a pause of 100 s and 5 s more
    of playing credit 115 s to the track, not 15 s: [pause] and [unpause]
    set the state of the pipeline and never reach [AudioStream.set_state],
    where the playtime is flushed and the stamp reset. *)
Theorem unified_pause_cycle_playtime :
  value_of (unified_pause_cycle track_a 10000 100000 5000
              (init_world EngineUnified default_settings)) = Some tt /\
  playtime (world_of (unified_pause_cycle track_a 10000 100000 5000
                        (init_world EngineUnified default_settings)))
    !! track_id track_a = Some (OInt 115).
Proof. split; vm_compute; reflexivity. Qed.

(** ** The crossfade timer *)

(** C5: [play] arms the crossfade timer with [duration*1000 - crossfade]
    whatever its sign: for a track of 2 s and a crossfade of 3 s the timer is
    armed 1000 ms in the past, and no immediate start is queued. *)
Theorem play_arms_crossfade_timer_in_the_past :
  value_of (UnifiedPlayer.play (Some track_short) false
              (init_world EngineUnified settings_crossfade)) = Some (Some true) /\
  crossfade_sources (world_of (UnifiedPlayer.play (Some track_short) false
                                 (init_world EngineUnified settings_crossfade)))
    = [{| src_id := 4; src_interval := Some (-1000); src_cb := CbStartCrossfade |}].
Proof. split; vm_compute; reflexivity. Qed.


(** Split a conjunction of closed facts and compute each. *)
Ltac vm_conj :=
  repeat match goal with |- _ /\ _ => split end; vm_compute; reflexivity.

(** [self.current] reads, and [get_time] only caches the position in the
    stream. *)
Lemma unified_get_current_pure (w : World) :
  world_of (UnifiedPlayer._get_current w) = w.
Proof.
  unfold UnifiedPlayer._get_current, UnifiedPlayer.slot, AudioStream.get_current,
    AudioStream.is_playing, AudioStream.is_paused, AudioStream._get_gst_state,
    AudioStream.self.
  msimpl. destruct (u_streams (unified w) !! _) as [[sid|]|]; msimpl; try reflexivity.
  destruct (heap w !! sid) as [s|] eqn:Hs; msimpl; try reflexivity.
  destruct (bool_decide (as_state s = STATE_PLAYING)); msimpl; rewrite ?Hs; msimpl.
  - reflexivity.
  - destruct (bool_decide (as_state s = STATE_PAUSED)); msimpl; rewrite ?Hs; reflexivity.
Qed.

Lemma unified_get_time_frame (w : World) :
  let w' := world_of (UnifiedPlayer.get_time w) in
  sources w' = sources w /\ next_source_id w' = next_source_id w /\
  unified w' = unified w /\ events w' = events w /\ settings w' = settings w /\
  queue w' = queue w.
Proof.
  unfold UnifiedPlayer.get_time, UnifiedPlayer.get_position, UnifiedPlayer.on_slot,
    UnifiedPlayer.slot, AudioStream.get_position, AudioStream.is_paused,
    AudioStream._get_gst_state, AudioStream.self, AudioStream.update.
  msimpl. destruct (u_streams (unified w) !! _) as [[sid|]|]; msimpl;
    try (cbn; repeat split; reflexivity).
  destruct (heap w !! sid) as [s|] eqn:Hs; msimpl;
    try (cbn; repeat split; reflexivity).
  destruct (bool_decide (as_state s = STATE_PAUSED)); msimpl; rewrite ?Hs; msimpl;
    try (cbn; repeat split; reflexivity).
  cbn [heap set_heap].
  destruct (alter _ sid (heap w) !! sid); msimpl; cbn; repeat split; reflexivity.
Qed.

Lemma reset_crossfade_timer_sources (w : World) :
  let w' := world_of (UnifiedPlayer._reset_crossfade_timer w) in
  sources w' = without_timer w /\ u_timer_id (unified w') = u_timer_id (unified w)
  \/ (exists i,
        sources w' = without_timer w ++
          [{| src_id := next_source_id w; src_interval := i; src_cb := CbStartCrossfade |}] /\
        (i = None -> u_timer_id (unified w') = u_timer_id (unified w)) /\
        (i <> None -> u_timer_id (unified w') = next_source_id w)).
Proof.
  cbv zeta. unfold UnifiedPlayer._reset_crossfade_timer, without_timer.
  rewrite world_of_bind, gets_eq. cbv beta iota. rewrite world_of_bind.
  set (w0 := if u_timer_id (unified w) =? 0 then w
             else set_sources (filter (fun s => src_id s ≠ u_timer_id (unified w))
                                 (sources w)) w).
  assert (H0 : (if u_timer_id (unified w) =? 0 then ret tt
                else gobject.source_remove (u_timer_id (unified w))) w = Ok tt w0).
  { subst w0. destruct (u_timer_id (unified w) =? 0); reflexivity. }
  rewrite H0. cbv beta iota.
  assert (Hs0 : sources w0 = if u_timer_id (unified w) =? 0 then sources w
                 else filter (fun s => src_id s ≠ u_timer_id (unified w)) (sources w)).
  { subst w0. destruct (u_timer_id (unified w) =? 0); reflexivity. }
  assert (Hu0 : unified w0 = unified w).
  { subst w0. destruct (u_timer_id (unified w) =? 0); reflexivity. }
  assert (Hn0 : next_source_id w0 = next_source_id w).
  { subst w0. destruct (u_timer_id (unified w) =? 0); reflexivity. }
  rewrite <- Hs0, <- Hu0, <- Hn0. clearbody w0. clear H0 Hs0 Hu0 Hn0.
  rewrite world_of_bind, unified_is_playing_eq. cbv beta iota.
  destruct (bool_decide (u_pipe_state (unified w0) = STATE_PLAYING)); cbn [negb];
    [|left; split; reflexivity].
  rewrite world_of_bind, gets_eq. cbv beta iota.
  destruct (crossfading (settings w0)); cbn [negb]; [|left; split; reflexivity].
  rewrite world_of_bind.
  pose proof (unified_get_current_pure w0) as Hc.
  destruct (UnifiedPlayer._get_current w0) as [[tr|] wc | e wc]; cbn [world_of] in Hc;
    subst wc; [| left; split; reflexivity ..].
  rewrite world_of_bind.
  pose proof (unified_get_time_frame w0) as (Hs & Hn & Hu & _).
  destruct (UnifiedPlayer.get_time w0) as [secs w1 | e w1]; cbn [world_of] in Hs, Hn, Hu.
  - destruct (_ <? _).
    + right. exists None. cbn. rewrite ?Hs, ?Hn, ?Hu. repeat split; congruence.
    + right. eexists (Some _). cbn. rewrite ?Hs, ?Hn, ?Hu. repeat split; congruence.
  - left. rewrite Hs, Hu. split; reflexivity.
Qed.

(** While playing with crossfading on, [_reset_crossfade_timer] computes
    [duration*1000 - elapsed*1000 - crossfade]: below the crossfade duration
    (so also when already negative) it queues [_start_crossfade] at once,
    else it arms a timer of that delay. *)
Lemma reset_crossfade_timer_schedule (w : World) (tr : Track) (secs : Z) (w1 : World) :
  let w0 := world_of ((if u_timer_id (unified w) =? 0 then ret tt
                       else gobject.source_remove (u_timer_id (unified w))) w) in
  u_pipe_state (unified w) = STATE_PLAYING ->
  crossfading (settings w) = true ->
  UnifiedPlayer._get_current w0 = Ok (Some tr) w0 ->
  UnifiedPlayer.get_time w0 = Ok secs w1 ->
  let d := crossfade_duration (settings w) in
  let time := duration_ms tr - secs * 1000 - d in
  UnifiedPlayer._reset_crossfade_timer w =
    if time <? d
    then (gobject.idle_add CbStartCrossfade;; ret tt) w1
    else (id <- gobject.timeout_add time CbStartCrossfade;;
          UnifiedPlayer.update (UnifiedPlayer.with_timer_id id)) w1.
Proof.
  cbv zeta. intros Hp Hx Hc Ht.
  unfold UnifiedPlayer._reset_crossfade_timer.
  rewrite bind_eq, gets_eq. cbv beta iota. rewrite bind_eq.
  set (rm := if u_timer_id (unified w) =? 0 then ret tt
             else gobject.source_remove (u_timer_id (unified w))) in *.
  assert (Hrm : rm w = Ok tt (world_of (rm w))).
  { subst rm. destruct (u_timer_id (unified w) =? 0); reflexivity. }
  assert (Hu : unified (world_of (rm w)) = unified w).
  { subst rm. destruct (u_timer_id (unified w) =? 0); reflexivity. }
  assert (Hs : settings (world_of (rm w)) = settings w).
  { subst rm. destruct (u_timer_id (unified w) =? 0); reflexivity. }
  rewrite Hrm. cbv beta iota.
  rewrite bind_eq, unified_is_playing_eq, Hu, Hp. cbv beta iota.
  rewrite bool_decide_eq_true_2 by reflexivity. cbn [negb].
  rewrite bind_eq, gets_eq, Hs, Hx. cbv beta iota. cbn [negb].
  rewrite bind_eq, Hc. cbv beta iota.
  rewrite bind_eq, Ht. cbv beta iota.
  replace (duration_ms tr - (secs * 1000 + crossfade_duration (settings w)))
    with (duration_ms tr - secs * 1000 - crossfade_duration (settings w)) by lia.
  destruct (_ <? _); reflexivity.
Qed.

Lemma reset_crossfade_timer_late (w : World) (tr : Track) (secs : Z) (w1 : World) :
  let w0 := world_of ((if u_timer_id (unified w) =? 0 then ret tt
                       else gobject.source_remove (u_timer_id (unified w))) w) in
  u_pipe_state (unified w) = STATE_PLAYING ->
  crossfading (settings w) = true ->
  UnifiedPlayer._get_current w0 = Ok (Some tr) w0 ->
  UnifiedPlayer.get_time w0 = Ok secs w1 ->
  0 <= crossfade_duration (settings w) ->
  duration_ms tr - secs * 1000 - crossfade_duration (settings w) < 0 ->
  UnifiedPlayer._reset_crossfade_timer w
  = (gobject.idle_add CbStartCrossfade;; ret tt) w1.
Proof.
  cbv zeta. intros Hp Hx Hc Ht Hd Hlate.
  rewrite (reset_crossfade_timer_schedule w tr secs w1 Hp Hx Hc Ht).
  replace (_ <? _) with true; [reflexivity|].
  symmetry. apply Z.ltb_lt. lia.
Qed.

Lemma unlink_stream_sources (s : option nat) (w : World) :
  exists extra, sources (world_of (UnifiedPlayer.unlink_stream s w)) = sources w ++ extra.
Proof.
  destruct s as [sid|]; unfold UnifiedPlayer.unlink_stream, try_except, bind; cbn.
  - destruct (bool_decide (sid ∈ _)); cbn; eexists; reflexivity.
  - exists []. symmetry; apply app_nil_r.
Qed.

Lemma unlink_each_sources (idxs : list nat) (w : World) :
  exists extra, sources (world_of (UnifiedPlayer.unlink_each idxs w)) = sources w ++ extra.
Proof.
  revert w; induction idxs as [|i r IH]; intros w; cbn [UnifiedPlayer.unlink_each].
  - exists []. symmetry; apply app_nil_r.
  - rewrite world_of_bind, gets_eq. cbv beta iota.
    destruct (u_streams (unified w) !! i) as [s|].
    + rewrite world_of_bind.
      destruct (unlink_stream_returns s w) as (b & w1 & Hu & _).
      destruct (unlink_stream_sources s w) as (e1 & H1).
      rewrite Hu in *. cbn [world_of] in H1.
      destruct (IH w1) as (e2 & H2).
      exists (e1 ++ e2). rewrite H2, H1. symmetry; apply app_assoc.
    + exists []. symmetry; apply app_nil_r.
Qed.

(** [stop] cancels the source that [self.timer_id] names and no other. *)
Lemma stop_leaves_other_sources (w : World) (s : Source) :
  s ∈ sources w -> src_id s <> u_timer_id (unified w) ->
  s ∈ sources (world_of (UnifiedPlayer.stop w)).
Proof.
  intros Hin Hid. unfold UnifiedPlayer.stop.
  rewrite world_of_bind, unified_is_playing_eq. cbv beta iota.
  rewrite world_of_bind.
  assert (Hq : exists q,
    (if bool_decide (u_pipe_state (unified w) = STATE_PLAYING) then ret true
     else UnifiedPlayer.is_paused) w = Ok q w).
  { destruct (bool_decide _); eexists; reflexivity. }
  destruct Hq as (q & ->). destruct q; [|exact Hin].
  rewrite world_of_bind.
  pose proof (unified_get_current_pure w) as Hc.
  destruct (UnifiedPlayer._get_current w) as [cur wc | e wc]; cbn [world_of] in Hc;
    subst wc; [|exact Hin].
  rewrite world_of_bind.
  set (w1 := world_of (UnifiedPlayer.pipe_set_state STATE_NULL w)).
  change (UnifiedPlayer.pipe_set_state STATE_NULL w) with (Ok tt w1).
  cbv beta iota. rewrite world_of_bind, gets_eq. cbv beta iota.
  rewrite world_of_bind.
  destruct (unlink_each_returns (seq 0 (length (u_streams (unified w1)))) w1)
    as (w2 & Hu & Hp & Ht & _).
  destruct (unlink_each_sources (seq 0 (length (u_streams (unified w1)))) w1)
    as (extra & Hs).
  rewrite Hu in *. cbn [world_of] in Hs.
  rewrite world_of_bind.
  rewrite reset_crossfade_timer_not_playing
    by (rewrite Hp; subst w1; cbn; discriminate).
  assert (Hin2 : s ∈ sources w2).
  { rewrite Hs. apply elem_of_app. left. exact Hin. }
  assert (Ht2 : u_timer_id (unified w2) = u_timer_id (unified w)).
  { rewrite Ht. reflexivity. }
  destruct (u_timer_id (unified w2) =? 0); cbn.
  - exact Hin2.
  - apply list_elem_of_filter. split; [congruence | exact Hin2].
Qed.

Lemma unlink_stream_idle (s : option nat) (w : World) :
  exists extra,
    sources (world_of (UnifiedPlayer.unlink_stream s w)) = sources w ++ extra /\
    Forall idle_set_state_null extra.
Proof.
  destruct s as [sid|]; unfold UnifiedPlayer.unlink_stream, try_except, bind; cbn.
  - destruct (bool_decide (sid ∈ _)); cbn; eexists; (split; [reflexivity|]);
      (constructor; [split; [reflexivity | eexists; reflexivity] | constructor]).
  - exists []. split; [symmetry; apply app_nil_r | constructor].
Qed.

Lemma unlink_each_idle (idxs : list nat) (w : World) :
  exists extra,
    sources (world_of (UnifiedPlayer.unlink_each idxs w)) = sources w ++ extra /\
    Forall idle_set_state_null extra.
Proof.
  revert w; induction idxs as [|i r IH]; intros w; cbn [UnifiedPlayer.unlink_each].
  - exists []. split; [symmetry; apply app_nil_r | constructor].
  - rewrite world_of_bind, gets_eq. cbv beta iota.
    destruct (u_streams (unified w) !! i) as [s|].
    + rewrite world_of_bind.
      destruct (unlink_stream_returns s w) as (b & w1 & Hu & _).
      destruct (unlink_stream_idle s w) as (e1 & H1 & F1).
      rewrite Hu in *. cbn [world_of] in H1.
      destruct (IH w1) as (e2 & H2 & F2).
      exists (e1 ++ e2). split; [rewrite H2, H1; symmetry; apply app_assoc|].
      apply Forall_app. split; assumption.
    + exists []. split; [symmetry; apply app_nil_r | constructor].
Qed.

(** [stop] on a pipeline that is playing or paused: the sources are those
    there were and the idle calls that unlinking queues, without the one that
    [self.timer_id] names. *)
Lemma stop_cancels_recorded_timer (w : World) (cur : option Track) :
  UnifiedPlayer._get_current w = Ok cur w ->
  u_pipe_state (unified w) = STATE_PLAYING \/ u_pipe_state (unified w) = STATE_PAUSED ->
  exists extra,
    Forall idle_set_state_null extra /\
    sources (world_of (UnifiedPlayer.stop w)) =
      if u_timer_id (unified w) =? 0 then sources w ++ extra
      else filter (fun s => src_id s ≠ u_timer_id (unified w)) (sources w ++ extra).
Proof.
  intros Hcur Hact. unfold UnifiedPlayer.stop.
  rewrite world_of_bind, unified_is_playing_eq. cbv beta iota.
  rewrite world_of_bind.
  assert (Hq : (if bool_decide (u_pipe_state (unified w) = STATE_PLAYING) then ret true
                else UnifiedPlayer.is_paused) w = Ok true w).
  { destruct Hact as [H | H].
    - rewrite bool_decide_eq_true_2 by exact H. reflexivity.
    - rewrite bool_decide_eq_false_2 by (rewrite H; discriminate).
      rewrite unified_is_paused_eq, bool_decide_eq_true_2 by exact H. reflexivity. }
  rewrite Hq. cbv beta iota.
  rewrite world_of_bind, Hcur. cbv beta iota.
  rewrite world_of_bind.
  set (w1 := world_of (UnifiedPlayer.pipe_set_state STATE_NULL w)).
  change (UnifiedPlayer.pipe_set_state STATE_NULL w) with (Ok tt w1).
  cbv beta iota. rewrite world_of_bind, gets_eq. cbv beta iota.
  rewrite world_of_bind.
  destruct (unlink_each_returns (seq 0 (length (u_streams (unified w1)))) w1)
    as (w2 & Hu & Hp & Ht & _).
  destruct (unlink_each_idle (seq 0 (length (u_streams (unified w1)))) w1)
    as (extra & Hs & Hidle).
  rewrite Hu in *. cbn [world_of] in Hs.
  exists extra. split; [exact Hidle|].
  rewrite world_of_bind.
  rewrite reset_crossfade_timer_not_playing
    by (rewrite Hp; subst w1; cbn; discriminate).
  assert (Ht2 : u_timer_id (unified w2) = u_timer_id (unified w)).
  { rewrite Ht. reflexivity. }
  assert (Hs2 : sources w2 = sources w ++ extra) by exact Hs.
  rewrite Ht2. destruct (u_timer_id (unified w) =? 0); cbn; rewrite Hs2; reflexivity.
Qed.

(** A call of [_start_crossfade] takes the next track from the queue,
    whichever track the timer was armed for. *)
Lemma start_crossfade_dequeues (w : World) (tr : Track) (rest : list Track) :
  ordered_tracks (queue w) = tr :: rest ->
  ordered_tracks (queue (world_of (UnifiedPlayer._start_crossfade PlayQueue.next w)))
  = rest.
Proof.
  intros Hq. unfold UnifiedPlayer._start_crossfade.
  rewrite world_of_bind.
  assert (Hnext : exists w1,
    PlayQueue.next false None w = Ok (Some tr) w1 /\ ordered_tracks (queue w1) = rest).
  { unfold PlayQueue.next, PlayQueue.take_track, PlayQueue.update. msimpl.
    rewrite Hq. msimpl. cbn [queue set_queue].
    destruct (current_playlist _); msimpl; eexists; split; reflexivity. }
  destruct Hnext as (w1 & -> & H1).
  rewrite <- H1.
  match goal with |- ordered_tracks (queue (world_of (?k w1))) = _ =>
    assert (Hk : preserves queue k) by frame end.
  rewrite Hk. reflexivity.
Qed.

(** C6 (amended): [_reset_crossfade_timer] (run by seek, pause, unpause and
    stop) first removes the source that [self.timer_id] names, then adds at
    most one call of [_start_crossfade], whose handle it keeps when it is a
    timer; [stop()] on a pipeline that is playing or paused cancels the
    source that [self.timer_id] names and leaves every other source pending,
    adding only the idle calls that unlinking queues; and a start timer that
    fires is not checked against the track it was armed for: it takes the
    next track of the queue. *)
Theorem crossfade_timer_cancellation (w : World) :
  (let w' := world_of (UnifiedPlayer._reset_crossfade_timer w) in
   sources w' = without_timer w /\ u_timer_id (unified w') = u_timer_id (unified w)
   \/ (exists i,
         sources w' = without_timer w ++
           [{| src_id := next_source_id w; src_interval := i;
               src_cb := CbStartCrossfade |}] /\
         (i = None -> u_timer_id (unified w') = u_timer_id (unified w)) /\
         (i <> None -> u_timer_id (unified w') = next_source_id w))) /\
  (forall s, s ∈ sources w -> src_id s <> u_timer_id (unified w) ->
             s ∈ sources (world_of (UnifiedPlayer.stop w))) /\
  (forall cur, UnifiedPlayer._get_current w = Ok cur w ->
   u_pipe_state (unified w) = STATE_PLAYING \/ u_pipe_state (unified w) = STATE_PAUSED ->
   exists extra,
     Forall idle_set_state_null extra /\
     sources (world_of (UnifiedPlayer.stop w)) =
       if u_timer_id (unified w) =? 0 then sources w ++ extra
       else filter (fun s => src_id s ≠ u_timer_id (unified w)) (sources w ++ extra)) /\
  (forall tr rest, ordered_tracks (queue w) = tr :: rest ->
     ordered_tracks (queue (world_of (UnifiedPlayer._start_crossfade PlayQueue.next w)))
     = rest).
Proof.
  split; [exact (reset_crossfade_timer_sources w)|].
  split; [exact (stop_leaves_other_sources w)|].
  split; [exact (stop_cancels_recorded_timer w)|].
  exact (start_crossfade_dequeues w).
Qed.

(** On [crossfade_resumed] the timer recorded in [self.timer_id] is source 6,
    which is pending; [stop()] removes it and keeps the fade timer 3 and the
    start timer 4 that [play] armed. *)
Lemma crossfade_timer_cancellation_witness :
  (u_timer_id (unified crossfade_resumed) = 6 /\
   map src_id (sources crossfade_resumed) = [3; 4; 6] /\
   map src_id (sources (world_of (UnifiedPlayer.stop crossfade_resumed))) = [3; 4; 7]) /\
  (exists extra,
     Forall idle_set_state_null extra /\
     sources (world_of (UnifiedPlayer.stop crossfade_resumed)) =
       if u_timer_id (unified crossfade_resumed) =? 0
       then sources crossfade_resumed ++ extra
       else filter (fun s => src_id s ≠ u_timer_id (unified crossfade_resumed))
              (sources crossfade_resumed ++ extra)) /\
  ordered_tracks
    (queue (world_of (UnifiedPlayer._start_crossfade PlayQueue.next two_plays))) = [].
Proof.
  split; [vm_conj|]. split.
  - apply (proj1 (proj2 (proj2 (crossfade_timer_cancellation crossfade_resumed)))
             (Some track_a)).
    + vm_compute. reflexivity.
    + left. vm_compute. reflexivity.
  - apply (proj2 (proj2 (proj2 (crossfade_timer_cancellation two_plays))) track_c []).
    vm_compute. reflexivity.
Defined.

(** C6 as stated fails.  Two automatic transitions in a row leave two start
    timers pending, the one armed for [track_a] and the one armed for
    [track_b]; [stop()] cancels neither, nor the fade timers; and when the
    timer armed for [track_a] fires while [track_b] is current, the queued
    [track_c] is started. *)
Lemma crossfade_timers_pile_up :
  crossfade_sources two_plays =
    [ {| src_id := 4; src_interval := Some 197000; src_cb := CbStartCrossfade |};
      {| src_id := 10; src_interval := Some 177000; src_cb := CbStartCrossfade |} ] /\
  map src_id (filter (fun s => src_interval s ≠ None)
                (sources (world_of (UnifiedPlayer.stop two_plays))))
    = [3; 4; 8; 9; 10] /\
  value_of (UnifiedPlayer._get_current two_plays) = Some (Some track_b) /\
  last (events (world_of (MainLoop.dispatch 4 two_plays)))
    = Some ("playback_start", OPlayer, OTrack track_c) /\
  value_of (UnifiedPlayer._get_current (world_of (MainLoop.dispatch 4 two_plays)))
    = Some (Some track_c).
Proof. vm_conj. Qed.

(** ** A failed [link_stream] *)

Lemma clear_first_lookup (sid : nat) (l : list (option nat)) (i : nat) :
  UnifiedPlayer.clear_first sid l !! i = l !! i \/
  (UnifiedPlayer.clear_first sid l !! i = Some None /\ l !! i = Some (Some sid)).
Proof.
  revert i; induction l as [|x r IH]; intros i; cbn; [left; reflexivity|].
  case_bool_decide as Hx.
  - destruct i; cbn; [right; subst x; split; reflexivity | left; reflexivity].
  - destruct i; cbn; [left; reflexivity | apply IH].
Qed.

(** What [unlink_stream] does to the mixer and to the slots. *)
Lemma unlink_stream_effect (s : option nat) (w : World) :
  let w' := world_of (UnifiedPlayer.unlink_stream s w) in
  heap w' = heap w /\ next_stream_id w' = next_stream_id w /\
  u_adder (unified w') =
    match s with
    | Some sid => filter (fun x => x ≠ sid) (u_adder (unified w))
    | None => u_adder (unified w)
    end /\
  (forall i, u_streams (unified w') !! i = u_streams (unified w) !! i \/
             (u_streams (unified w') !! i = Some None /\
              exists sid, s = Some sid /\ u_streams (unified w) !! i = Some (Some sid))).
Proof.
  destruct s as [sid|]; unfold UnifiedPlayer.unlink_stream, try_except, bind; cbn.
  - destruct (bool_decide (sid ∈ _)); cbn; repeat split; try reflexivity.
    + intros i. destruct (clear_first_lookup sid (u_streams (unified w)) i) as [H | [H1 H2]].
      * left; exact H.
      * right. split; [exact H1|]. exists sid. split; [reflexivity | exact H2].
    + intros i; left; reflexivity.
  - repeat split; try reflexivity. intros i; left; reflexivity.
Qed.

Lemma elem_of_filter_ne (sid x : nat) (l : list nat) :
  x ∈ filter (fun y => y ≠ sid) l <-> x ≠ sid /\ x ∈ l.
Proof. exact (list_elem_of_filter (fun y => y ≠ sid) l x). Qed.

(** [for stream in self.streams: self.unlink_stream(stream)] detaches every
    stream that a slot holds, and attaches none. *)
Lemma unlink_each_effect (idxs : list nat) (w : World) :
  (forall i, i ∈ idxs -> (i < length (u_streams (unified w)))%nat) ->
  let w' := world_of (UnifiedPlayer.unlink_each idxs w) in
  (forall x, x ∈ u_adder (unified w') -> x ∈ u_adder (unified w)) /\
  (forall x i, i ∈ idxs -> u_streams (unified w) !! i = Some (Some x) ->
               x ∉ u_adder (unified w')).
Proof.
  cbv zeta. revert w; induction idxs as [|i r IH]; intros w Hlen;
    cbn [UnifiedPlayer.unlink_each].
  - split; [auto|]. intros x i Hi. inversion Hi.
  - rewrite world_of_bind, gets_eq. cbv beta iota.
    destruct (u_streams (unified w) !! i) as [s|] eqn:Hs.
    + rewrite world_of_bind.
      destruct (unlink_stream_returns s w) as (b & w1 & Hu & _ & _ & _ & Hl & _).
      pose proof (unlink_stream_effect s w) as (_ & _ & Ha & Hsl).
      rewrite Hu in *. cbn [world_of] in Ha, Hsl.
      destruct (IH w1) as [IH1 IH2].
      { intros j Hj. rewrite Hl. apply Hlen. apply elem_of_cons. right; exact Hj. }
      assert (Hmono : forall x, x ∈ u_adder (unified w1) -> x ∈ u_adder (unified w)).
      { intros x Hx. rewrite Ha in Hx. destruct s; [|exact Hx].
        apply elem_of_filter_ne in Hx. tauto. }
      assert (Hgone : forall y, s = Some y -> y ∉ u_adder (unified w1)).
      { intros y -> Hy. rewrite Ha in Hy. apply elem_of_filter_ne in Hy. tauto. }
      split.
      * intros x Hx. apply Hmono, IH1, Hx.
      * intros x j Hj Hjx Hin.
        apply elem_of_cons in Hj. destruct Hj as [-> | Hj].
        -- rewrite Hs in Hjx. inversion Hjx; subst s.
           apply (Hgone x eq_refl). apply IH1, Hin.
        -- destruct (Hsl j) as [Hsame | (_ & sid & -> & Hwas)].
           ++ apply (IH2 x j Hj); [congruence | exact Hin].
           ++ rewrite Hjx in Hwas. inversion Hwas; subst sid.
              apply (Hgone x eq_refl). apply IH1, Hin.
    + exfalso. apply lookup_ge_None in Hs.
      specialize (Hlen i ltac:(apply elem_of_cons; left; reflexivity)). lia.
Qed.

(** An active [UnifiedPlayer] that [stop] is called on: the pipeline goes
    down, every stream a slot holds is detached, [playback_end] is emitted. *)
Lemma UnifiedPlayer_stop_active (w : World) (cur : option Track) :
  u_pipe_state (unified w) = STATE_PLAYING \/ u_pipe_state (unified w) = STATE_PAUSED ->
  UnifiedPlayer._get_current w = Ok cur w ->
  exists w',
    UnifiedPlayer.stop w = Ok true w' /\
    u_pipe_state (unified w') = STATE_NULL /\
    u_current_stream (unified w') = u_current_stream (unified w) /\
    events w' = events w ++ [("playback_end", OPlayer, obj_of_track cur)] /\
    (forall x, x ∈ u_adder (unified w') -> x ∈ u_adder (unified w)) /\
    (forall x i, u_streams (unified w) !! i = Some (Some x) -> x ∉ u_adder (unified w')).
Proof.
  intros Hact Hc. unfold UnifiedPlayer.stop.
  rewrite bind_eq, unified_is_playing_eq. cbv beta iota. rewrite bind_eq.
  assert (Hq : (if bool_decide (u_pipe_state (unified w) = STATE_PLAYING) then ret true
                else UnifiedPlayer.is_paused) w = Ok true w).
  { destruct Hact as [H | H]; decide_tests; [reflexivity|].
    rewrite unified_is_paused_eq. decide_tests. reflexivity. }
  rewrite Hq. cbv beta iota. rewrite bind_eq, Hc. cbv beta iota. rewrite bind_eq.
  set (w1 := world_of (UnifiedPlayer.pipe_set_state STATE_NULL w)).
  change (UnifiedPlayer.pipe_set_state STATE_NULL w) with (Ok tt w1).
  cbv beta iota. rewrite bind_eq, gets_eq. cbv beta iota. rewrite bind_eq.
  set (idxs := seq 0 (length (u_streams (unified w1)))).
  destruct (unlink_each_returns idxs w1) as (w2 & Hu & Hp & Ht & Hcs & Hl & Hev & _).
  assert (Hbound : forall i, i ∈ idxs -> (i < length (u_streams (unified w1)))%nat).
  { intros i Hi. apply elem_of_seq in Hi. lia. }
  pose proof (unlink_each_effect idxs w1 Hbound) as [Hmono Hgone].
  rewrite Hu in *. cbn [world_of] in Hmono, Hgone.
  cbv beta iota. rewrite bind_eq.
  rewrite reset_crossfade_timer_not_playing
    by (rewrite Hp; subst w1; cbn; discriminate).
  cbv beta iota. rewrite bind_eq. unfold log_event. rewrite modify_eq. cbv beta iota.
  rewrite ret_eq.
  eexists. split; [reflexivity|].
  assert (Hfin : forall w3 : World,
    w3 = (if u_timer_id (unified w2) =? 0 then w2
          else set_sources (filter (fun s => src_id s ≠ u_timer_id (unified w2))
                              (sources w2)) w2) ->
    unified w3 = unified w2 /\ events w3 = events w2).
  { intros w3 ->. destruct (_ =? 0); split; reflexivity. }
  destruct (Hfin _ eq_refl) as [Hu3 He3].
  cbn [unified events set_events]. rewrite Hu3, He3, Hp, Hcs, Hev.
  split; [reflexivity|]. split; [reflexivity|]. split; [reflexivity|]. split.
  - intros x Hx. apply Hmono in Hx. exact Hx.
  - intros x i Hi. apply (Hgone x i); [|exact Hi].
    apply elem_of_seq. apply lookup_lt_Some in Hi. subst w1. cbn in *. lia.
Qed.

(** [self.current], in one piece. *)
Lemma unified_get_current_eq (w : World) :
  UnifiedPlayer._get_current w =
    match u_streams (unified w) !! u_current_stream (unified w) with
    | None => Raise IndexError w
    | Some None => Ok None w
    | Some (Some sid) =>
        match heap w !! sid with
        | None => Raise AttributeError w
        | Some s =>
            Ok (if bool_decide (as_state s = STATE_PLAYING)
                   || bool_decide (as_state s = STATE_PAUSED)
                then as_track s else None) w
        end
    end.
Proof.
  unfold UnifiedPlayer._get_current, UnifiedPlayer.slot, AudioStream.get_current,
    AudioStream.is_playing, AudioStream.is_paused, AudioStream._get_gst_state,
    AudioStream.self, bind, gets, ret.
  destruct (u_streams (unified w) !! _) as [[sid|]|]; try reflexivity.
  destruct (heap w !! sid) as [s|] eqn:Hs; try reflexivity.
  destruct (bool_decide (as_state s = STATE_PLAYING)); cbn; rewrite ?Hs; cbn.
  - reflexivity.
  - destruct (bool_decide (as_state s = STATE_PAUSED)); cbn; rewrite ?Hs; reflexivity.
Qed.

Lemma unified_get_current_same (w w' : World) (cur : option Track) :
  u_streams (unified w') = u_streams (unified w) ->
  u_current_stream (unified w') = u_current_stream (unified w) ->
  heap w' = heap w ->
  UnifiedPlayer._get_current w = Ok cur w ->
  UnifiedPlayer._get_current w' = Ok cur w'.
Proof.
  intros Hs Hc Hh. rewrite !unified_get_current_eq, Hs, Hc, Hh.
  destruct (u_streams (unified w) !! _) as [[sid|]|]; try discriminate.
  - destruct (heap w !! sid); try discriminate.
    intros H; inversion H; reflexivity.
  - intros H; inversion H; reflexivity.
Qed.

(** [link_stream] on a track that cannot be configured, the pipeline being
    active: [stop()] has run. *)
Lemma link_stream_failure (w : World) (sid : nat) (t : Track) (cur : option Track) :
  is_local t = true -> file_exists t = false ->
  u_pipe_state (unified w) = STATE_PLAYING \/ u_pipe_state (unified w) = STATE_PAUSED ->
  UnifiedPlayer._get_current w = Ok cur w ->
  exists w',
    UnifiedPlayer.link_stream sid (Some t) w = Ok false w' /\
    u_pipe_state (unified w') = STATE_NULL /\
    u_current_stream (unified w') = u_current_stream (unified w) /\
    events w' = events w ++ [("playback_end", OPlayer, obj_of_track cur)] /\
    (forall x, x ∈ u_adder (unified w') -> x ∈ u_adder (unified w) \/ x = sid) /\
    (forall x i, u_streams (unified w) !! i = Some (Some x) -> x ∉ u_adder (unified w')).
Proof.
  intros Hl He Hact Hc. unfold UnifiedPlayer.link_stream, UnifiedPlayer.update.
  rewrite bind_eq, modify_eq. cbv beta iota. rewrite bind_eq, modify_eq. cbv beta iota.
  set (w1 := set_unified _ (set_unified _ w)).
  rewrite bind_eq.
  assert (Hst : AudioStream.set_track sid (Some t) w1 = Ok false w1).
  { unfold AudioStream.set_track. rewrite Hl, He. reflexivity. }
  rewrite Hst. cbv beta iota. cbn [negb]. rewrite bind_eq.
  destruct (UnifiedPlayer_stop_active w1 cur) as (w' & Hs & Hp & Hcs & Hev & Hmono & Hgone).
  { exact Hact. }
  { apply (unified_get_current_same w w1 cur); try reflexivity. exact Hc. }
  rewrite Hs. cbv beta iota. rewrite ret_eq.
  exists w'. split; [reflexivity|]. split; [exact Hp|]. split; [exact Hcs|].
  split; [exact Hev|]. split.
  - intros x Hx. apply Hmono in Hx. subst w1. cbn in Hx.
    apply elem_of_app in Hx. destruct Hx as [Hx | Hx]; [left; exact Hx|].
    right. apply list_elem_of_singleton in Hx. exact Hx.
  - intros x i Hi. apply (Hgone x i). exact Hi.
Qed.

Lemma unlinked_from_refl (w : World) : unlinked_from w w.
Proof. repeat split; auto. Qed.

Lemma unlinked_from_trans (w1 w2 w3 : World) :
  unlinked_from w1 w2 -> unlinked_from w2 w3 -> unlinked_from w1 w3.
Proof.
  intros (A1 & A2 & A3 & A4 & A5 & A6 & A7 & A8 & A9)
         (B1 & B2 & B3 & B4 & B5 & B6 & B7 & B8 & B9).
  repeat split; try congruence.
  - intros x Hx. apply A8, B8, Hx.
  - intros i. destruct (B9 i) as [Hb | (Hb & sid & Hb1 & Hb2)].
    + rewrite Hb. destruct (A9 i) as [Ha | (Ha & sid & Ha1 & Ha2)].
      * left; exact Ha.
      * right. split; [exact Ha|]. exists sid. split; [exact Ha1|].
        intros Hin. apply Ha2, B8, Hin.
    + destruct (A9 i) as [Ha | (Ha & sid' & Ha1 & Ha2)].
      * right. split; [exact Hb|]. exists sid. split; [congruence | exact Hb2].
      * congruence.
Qed.

Lemma unlink_stream_unlinked_from (s : option nat) (w : World) :
  exists b w',
    UnifiedPlayer.unlink_stream s w = Ok b w' /\ unlinked_from w w' /\
    (forall x, s = Some x -> x ∉ u_adder (unified w')).
Proof.
  destruct (unlink_stream_returns s w) as (b & w' & Hu & H1 & H2 & H3 & H4 & H5 & H6).
  pose proof (unlink_stream_effect s w) as (E1 & E2 & E3 & E4).
  rewrite Hu in *. cbn [world_of] in *.
  assert (Hgone : forall x, s = Some x -> x ∉ u_adder (unified w')).
  { intros x -> Hx. rewrite E3 in Hx. apply elem_of_filter_ne in Hx. tauto. }
  exists b, w'. split; [reflexivity|]. split; [|exact Hgone].
  repeat split; try assumption.
  - intros x Hx. rewrite E3 in Hx. destruct s; [|exact Hx].
    apply elem_of_filter_ne in Hx. tauto.
  - intros i. destruct (E4 i) as [H | (H & sid & -> & Hw)]; [left; exact H|].
    right. split; [exact H|]. exists sid. split; [exact Hw | apply Hgone; reflexivity].
Qed.

(** C2 (amended): when configuring the incoming stream fails while the
    pipeline is playing or paused, [link_stream] calls [stop()]: the pipeline
    goes down, the outgoing stream and the stream just created are both
    detached from the mixer, [playback_end] is the one event emitted,
    [play] returns [False] and the slot selector stays. *)
Theorem play_unplayable_track (w : World) (t : Track) (user : bool) :
  is_local t = true -> file_exists t = false ->
  u_pipe_state (unified w) = STATE_PLAYING \/ u_pipe_state (unified w) = STATE_PAUSED ->
  length (u_streams (unified w)) = 2%nat ->
  (u_current_stream (unified w) < 2)%nat ->
  (forall i s, u_streams (unified w) !! i = Some (Some s) -> is_Some (heap w !! s)) ->
  exists w' c,
    UnifiedPlayer.play (Some t) user w = Ok (Some false) w' /\
    u_pipe_state (unified w') = STATE_NULL /\
    u_current_stream (unified w') = u_current_stream (unified w) /\
    events w' = events w ++ [("playback_end", OPlayer, c)] /\
    (forall i s, u_streams (unified w) !! i = Some (Some s) ->
                 s ∉ u_adder (unified w')) /\
    next_stream_id w ∉ u_adder (unified w').
Proof.
  intros Hl He Hact Hlen Hcs Hheap.
  unfold UnifiedPlayer.play.
  rewrite bind_eq, gets_eq. cbv beta iota zeta.
  set (cs := u_current_stream (unified w)) in *.
  set (next := (1 - cs)%nat).
  assert (Hnext : (next < 2)%nat) by (subst next; lia).
  assert (Hne : next <> cs) by (subst next; lia).
  (* the slot to reuse *)
  rewrite bind_eq. unfold UnifiedPlayer.slot at 1.
  destruct (u_streams (unified w) !! next) as [sn|] eqn:Hsn;
    [| apply lookup_ge_None in Hsn; lia].
  cbv beta iota. rewrite bind_eq.
  assert (HA : exists wA,
    (match sn with
     | Some _ => UnifiedPlayer.unlink_stream sn;; ret tt
     | None => ret tt
     end) w = Ok tt wA /\ unlinked_from w wA /\
    (forall x, sn = Some x -> x ∉ u_adder (unified wA))).
  { destruct sn as [x|].
    - destruct (unlink_stream_unlinked_from (Some x) w) as (b & wA & Hu & HR & Hg).
      exists wA. rewrite bind_eq, Hu. split; [reflexivity|]. split; assumption.
    - exists w. split; [reflexivity|]. split; [apply unlinked_from_refl|].
      intros x Hx; discriminate. }
  destruct HA as (wA & -> & HRA & HgA). cbv beta iota.
  rewrite bind_eq, gets_eq. cbv beta iota. rewrite bind_eq.
  (* the fade decision *)
  assert (HB : exists fd wB,
    (if user then
       if user_fade_enabled (settings wA) then ret (true, user_fade (settings wA))
       else (c <- UnifiedPlayer.slot cs;; UnifiedPlayer.unlink_stream c;; ret (false, 0))
     else
       if crossfading (settings wA) then ret (true, crossfade_duration (settings wA))
       else (c <- UnifiedPlayer.slot cs;; UnifiedPlayer.unlink_stream c;; ret (false, 0)))
      wA = Ok fd wB /\ unlinked_from wA wB).
  { assert (Hcut : exists wB,
      (c <- UnifiedPlayer.slot cs;; UnifiedPlayer.unlink_stream c;; ret (false, 0)) wA
      = Ok (false, 0) wB /\ unlinked_from wA wB).
    { rewrite bind_eq. unfold UnifiedPlayer.slot.
      destruct HRA as (_ & _ & HlA & _).
      destruct (u_streams (unified wA) !! cs) as [c|] eqn:Hc;
        [| apply lookup_ge_None in Hc; lia].
      destruct (unlink_stream_unlinked_from c wA) as (b & wB & Hu & HR & _).
      exists wB. rewrite bind_eq, Hu. split; [reflexivity | exact HR]. }
    destruct Hcut as (wB & Hcut & HRB).
    destruct user.
    - destruct (user_fade_enabled (settings wA)).
      + do 2 eexists. split; [reflexivity | apply unlinked_from_refl].
      + do 2 eexists. split; [exact Hcut | exact HRB].
    - destruct (crossfading (settings wA)).
      + do 2 eexists. split; [reflexivity | apply unlinked_from_refl].
      + do 2 eexists. split; [exact Hcut | exact HRB]. }
  destruct HB as (fd & wB & -> & HRB). cbv beta iota.
  pose proof (unlinked_from_trans _ _ _ HRA HRB) as HR.
  destruct HR as (Rp & Rcs & Rlen & Rev & Rset & Rheap & Rnext & Radd & Rslots).
  (* the new stream, in its slot *)
  rewrite bind_eq. unfold UnifiedPlayer.new_stream at 1. cbv beta iota zeta.
  rewrite bind_eq. unfold UnifiedPlayer.update at 1. rewrite modify_eq. cbv beta iota.
  set (sid := next_stream_id wB).
  set (wD := set_unified _ (set_next_stream_id _ (set_heap _ wB))).
  assert (Hslots : u_streams (unified wD) = <[next := Some sid]> (u_streams (unified wB)))
    by reflexivity.
  assert (HheapD : heap wD = <[sid := AudioStream.init
             ("Stream" ++ (if bool_decide (next = 0%nat) then "0" else "1"))%string]>
             (heap wB)) by reflexivity.
  assert (HaddD : u_adder (unified wD) = u_adder (unified wB)) by reflexivity.
  rewrite bind_eq. unfold UnifiedPlayer.on_slot at 1. rewrite bind_eq.
  unfold UnifiedPlayer.slot at 1. rewrite Hslots.
  rewrite list_lookup_insert_eq by lia. cbv beta iota.
  (* reading self.current in that world *)
  assert (Hcur : exists cur, UnifiedPlayer._get_current wD = Ok cur wD).
  { rewrite unified_get_current_eq.
    change (u_current_stream (unified wD)) with (u_current_stream (unified wB)).
    rewrite Rcs. fold cs. rewrite Hslots, list_lookup_insert_ne by exact Hne.
    destruct (u_streams (unified wB) !! cs) as [[s|]|] eqn:Hs;
      [| eexists; reflexivity | apply lookup_ge_None in Hs; lia].
    assert (Hin : is_Some (heap wD !! s)).
    { rewrite HheapD. destruct (decide (s = sid)) as [-> | Hd].
      - rewrite lookup_insert_eq. eexists; reflexivity.
      - rewrite lookup_insert_ne by congruence. rewrite Rheap.
        destruct (Rslots cs) as [Hsame | (Hnone & _)]; [|congruence].
        apply (Hheap cs s). congruence. }
    destruct Hin as (obj & ->). eexists; reflexivity. }
  destruct Hcur as (cur & Hcur).
  destruct (link_stream_failure wD sid t cur Hl He) as
    (w' & Hlink & Hp & Hcs' & Hev & Hmono & Hgone).
  { change (u_pipe_state (unified wD)) with (u_pipe_state (unified wB)).
    rewrite Rp. exact Hact. }
  { exact Hcur. }
  rewrite Hlink. cbv beta iota. cbn [negb]. rewrite ret_eq.
  assert (Hsid : sid ∉ u_adder (unified w')).
  { apply (Hgone sid next). rewrite Hslots. apply list_lookup_insert_eq. lia. }
  exists w', (obj_of_track cur).
  split; [reflexivity|]. split; [exact Hp|]. split.
  { rewrite Hcs'. change (u_current_stream (unified wD)) with (u_current_stream (unified wB)).
    rewrite Rcs. reflexivity. }
  split.
  { rewrite Hev. change (events wD) with (events wB). rewrite Rev. reflexivity. }
  split; [| subst sid; rewrite <- Rnext; exact Hsid].
  intros i s Hi Hin.
  assert (Hcase : s = sid \/ s ∈ u_adder (unified wB)).
  { destruct (Hmono s Hin) as [H | H]; [right; rewrite <- HaddD; exact H | left; exact H]. }
  destruct Hcase as [-> | HinB]; [exact (Hsid Hin)|].
  assert (Hi2 : i = cs \/ i = next).
  { apply lookup_lt_Some in Hi. subst next. lia. }
  destruct Hi2 as [-> | ->].
  - destruct (Rslots cs) as [Hsame | (_ & s' & Hwas & Hout)].
    + apply (Hgone s cs); [|exact Hin].
      rewrite Hslots, list_lookup_insert_ne by exact Hne. congruence.
    + assert (s' = s) by congruence. subst s'. exact (Hout HinB).
  - assert (Hsn' : sn = Some s) by congruence.
    destruct HRB as (_ & _ & _ & _ & _ & _ & _ & HaddB & _).
    apply (HgA s Hsn'). apply HaddB. exact HinB.
Qed.

Lemma play_unplayable_track_witness :
  exists w' c,
    UnifiedPlayer.play (Some track_missing) true unified_playing_a = Ok (Some false) w' /\
    u_pipe_state (unified w') = STATE_NULL /\
    u_current_stream (unified w') = u_current_stream (unified unified_playing_a) /\
    events w' = events unified_playing_a ++ [("playback_end", OPlayer, c)] /\
    (forall i s, u_streams (unified unified_playing_a) !! i = Some (Some s) ->
                 s ∉ u_adder (unified w')) /\
    next_stream_id unified_playing_a ∉ u_adder (unified w').
Proof.
  apply (play_unplayable_track unified_playing_a track_missing true).
  - reflexivity.
  - reflexivity.
  - left. vm_compute. reflexivity.
  - vm_compute. reflexivity.
  - vm_compute. repeat constructor.
  - intros i s H. destruct i as [|[|i]]; vm_compute in H; try discriminate.
    inversion H. vm_compute. eexists. reflexivity.
Defined.

(** C2 as stated fails.  While [track_a] plays (user fades on), a [play] of
    the missing track takes the pipeline down and detaches the stream of
    [track_a]; the events it emits are [playback_end], none is
    [playback_error].  And on an idle player the same call leaves the new
    stream, bound to no track, in the pipeline and linked to the mixer. *)
Lemma failed_incoming_cuts_outgoing :
  value_of (UnifiedPlayer._get_current unified_playing_a) = Some (Some track_a) /\
  u_adder (unified unified_playing_a) = [0%nat] /\
  value_of (UnifiedPlayer.play (Some track_missing) true unified_playing_a)
    = Some (Some false) /\
  u_adder (unified (world_of
     (UnifiedPlayer.play (Some track_missing) true unified_playing_a))) = [] /\
  u_pipe_state (unified (world_of
     (UnifiedPlayer.play (Some track_missing) true unified_playing_a))) = STATE_NULL /\
  filter (fun e : Event => e.1.1 = "playback_error")
    (events (world_of
       (UnifiedPlayer.play (Some track_missing) true unified_playing_a))) = [] /\
  u_adder (unified (world_of
     (UnifiedPlayer.play (Some track_missing) true
        (init_world EngineUnified default_settings)))) = [0%nat] /\
  as_track <$> heap (world_of
     (UnifiedPlayer.play (Some track_missing) true
        (init_world EngineUnified default_settings))) !! 0%nat = Some None.
Proof. vm_conj. Qed.

(** * Further properties *)

(** ** Sink options and presets *)

Lemma split_on_length (sep : ascii) (s : string) :
  length (split_on sep s) = S (occurrences sep s).
Proof.
  induction s as [|c r IH]; cbn; [reflexivity|].
  destruct (Ascii.eqb c sep); cbn.
  - rewrite IH. reflexivity.
  - destruct (split_on sep r) as [|h t] eqn:E; cbn in *; [discriminate|].
    exact IH.
Qed.

Lemma dict_items_cons (parts : list string) (seq : list (list string)) :
  AudioSink.dict_items (parts :: seq) =
    match parts with
    | [k; v] =>
        match AudioSink.dict_items seq with
        | inr l => inr ((k, v) :: l)
        | inl e => inl e
        end
    | _ => inl AudioSink.ValueError
    end.
Proof. destruct parts as [|k [|v [|x r]]]; reflexivity. Qed.

Lemma dict_items_result (seq : list (list string)) :
  (Forall (fun parts => length parts = 2%nat) seq ->
     exists items, AudioSink.dict_items seq = inr items) /\
  (~ Forall (fun parts => length parts = 2%nat) seq ->
     AudioSink.dict_items seq = inl AudioSink.ValueError).
Proof.
  induction seq as [|parts seq [IHok IHbad]].
  - split; [eexists; reflexivity|]. intros H; destruct H; constructor.
  - rewrite dict_items_cons. split.
    + intros H. inversion H as [|? ? Hp Hs]; subst.
      destruct parts as [|k [|v [|x r]]]; try discriminate.
      destruct (IHok Hs) as (items & ->). eexists; reflexivity.
    + intros H.
      destruct parts as [|k [|v [|x r]]]; try reflexivity.
      rewrite IHbad; [reflexivity|].
      intros Hs. apply H. constructor; [reflexivity | exact Hs].
Qed.

Lemma well_formed_split (strs : list string) :
  well_formed_options strs <->
  Forall (fun parts => length parts = 2%nat) (map (split_on "="%char) strs).
Proof.
  unfold well_formed_options. rewrite Forall_map.
  apply Forall_iff. intros v. cbn. rewrite split_on_length. lia.
Qed.

(** X1: AudioSink.load_options, the setting [player/<name>_sink_options] being a
    list of strings: when every string holds exactly one [=], the options are
    loaded; when some string holds none or more than one, [dict(...)] raises
    [ValueError], which load_options does not catch. *)
Theorem load_options_malformed (opts : Options)
    (settable : string -> string -> string -> bool) (name elem : string)
    (options : gmap string string) (strs : list string) :
  get_option opts ("player/" ++ name ++ "_sink_options") (VList []) = VList strs ->
  (well_formed_options strs ->
     exists props, AudioSink.load_options opts settable name elem options = inr props) /\
  (~ well_formed_options strs ->
     AudioSink.load_options opts settable name elem options = inl AudioSink.ValueError).
Proof.
  intros Hget. unfold AudioSink.load_options. rewrite Hget. cbn [AudioSink.option_strings].
  destruct (dict_items_result (map (split_on "="%char) strs)) as [Hok Hbad].
  split; intros H.
  - apply well_formed_split in H. destruct (Hok H) as (items & ->). eexists; reflexivity.
  - rewrite Hbad; [reflexivity|]. intros Hs. apply H, well_formed_split, Hs.
Qed.

Lemma load_options_malformed_witness :
  AudioSink.load_options
    {[ "player/Automatic_sink_options" := VList ["device=hw:0"; "buffer-time=2=3"] ]}
    (fun _ _ _ => true) "Automatic" "autoaudiosink" ∅
  = inl AudioSink.ValueError.
Proof.
  refine (proj2 (load_options_malformed _ (fun _ _ _ => true) "Automatic" "autoaudiosink" ∅
                   ["device=hw:0"; "buffer-time=2=3"] _) _).
  - vm_compute; reflexivity.
  - intros H. apply Forall_cons_1 in H as [_ H]. apply Forall_cons_1 in H as [H _].
    vm_compute in H. discriminate H.
Defined.

Lemma split_on_absent (sep : ascii) (s : string) :
  occurrences sep s = 0%nat -> split_on sep s = [s].
Proof.
  induction s as [|c r IH]; cbn; [reflexivity|].
  destruct (Ascii.eqb c sep); cbn; [discriminate|].
  intros H. rewrite (IH H). reflexivity.
Qed.

Lemma split_on_option_string (kv : string * string) :
  occurrences "="%char kv.1 = 0%nat -> occurrences "="%char kv.2 = 0%nat ->
  split_on "="%char (option_string kv) = [kv.1; kv.2].
Proof.
  destruct kv as [k v]; unfold option_string; cbn [fst snd].
  intros Hk Hv. induction k as [|c r IH].
  - change (split_on "="%char (String "="%char v) = [EmptyString; v]).
    change (EmptyString :: split_on "="%char v = [EmptyString; v]).
    rewrite (split_on_absent _ _ Hv). reflexivity.
  - change (split_on "="%char (String c (r ++ String "="%char v)) = [String c r; v]).
    cbn [occurrences] in Hk. cbn [split_on].
    destruct (Ascii.eqb c "="%char); [discriminate|].
    rewrite (IH Hk). reflexivity.
Qed.

Lemma dict_items_option_strings (items : list (string * string)) :
  Forall (fun kv => occurrences "="%char kv.1 = 0%nat /\ occurrences "="%char kv.2 = 0%nat)
    items ->
  AudioSink.dict_items (map (split_on "="%char) (map option_string items)) = inr items.
Proof.
  induction 1 as [|[k v] items [Hk Hv] _ IH]; [reflexivity|].
  cbn [map]. rewrite dict_items_cons, split_on_option_string by assumption.
  cbn [fst snd]. rewrite IH. reflexivity.
Qed.

Lemma dict_update_lookup (d : gmap string string) (items : list (string * string))
    (k : string) :
  AudioSink.dict_update d items !! k =
    match last (filter (fun kv => kv.1 = k) items) with
    | Some kv => Some kv.2
    | None => d !! k
    end.
Proof.
  unfold AudioSink.dict_update. revert d.
  induction items as [|[k' v'] items IH]; intros d; [reflexivity|].
  cbn [foldl]. rewrite IH. cbn [fst snd].
  destruct (decide (k' = k)) as [->|Hne].
  - rewrite filter_cons_True by reflexivity. rewrite last_cons.
    destruct (last (filter _ items)); [reflexivity | apply lookup_insert_eq].
  - rewrite filter_cons_False by (cbn; congruence).
    destruct (last _); [reflexivity|]. apply lookup_insert_ne. exact Hne.
Qed.

(** X2: AudioSink.load_options, the option strings being [param=value] with no
    [=] in param or value: the properties it sets on the sink are exactly those
    that [set_property] accepts, each with the value of the last option string
    that names it or, when no string names it, with the value of the preset's
    own options. *)
Theorem load_options_last_wins (opts : Options)
    (settable : string -> string -> string -> bool) (name elem : string)
    (options : gmap string string) (items : list (string * string)) :
  get_option opts ("player/" ++ name ++ "_sink_options") (VList [])
    = VList (map option_string items) ->
  Forall (fun kv => occurrences "="%char kv.1 = 0%nat /\ occurrences "="%char kv.2 = 0%nat)
    items ->
  exists props,
    AudioSink.load_options opts settable name elem options = inr props /\
    forall k v,
      props !! k = Some v <->
      settable elem k v = true /\
      match last (filter (fun kv => kv.1 = k) items) with
      | Some kv => kv.2 = v
      | None => options !! k = Some v
      end.
Proof.
  intros Hget Hwf. unfold AudioSink.load_options. rewrite Hget.
  cbn [AudioSink.option_strings]. rewrite dict_items_option_strings by exact Hwf.
  eexists. split; [reflexivity|]. intros k v.
  rewrite map_lookup_filter_Some, dict_update_lookup. cbn [fst snd].
  destruct (last _) as [kv|]; split; intros [H1 H2]; split; try assumption; congruence.
Qed.

Lemma load_options_last_wins_witness :
  exists props,
    AudioSink.load_options
      {[ "player/Alsa_sink_options" :=
           VList (map option_string [("device", "hw:0"); ("device", "hw:1")]) ]}
      (fun _ _ _ => true) "Alsa" "alsasink" ∅ = inr props /\
    forall k v,
      props !! k = Some v <->
      (fun _ _ _ => true) "alsasink" k v = true /\
      match last (filter (fun kv => kv.1 = k) [("device", "hw:0"); ("device", "hw:1")]) with
      | Some kv => kv.2 = v
      | None => (∅ : gmap string string) !! k = Some v
      end.
Proof.
  apply (load_options_last_wins
           {[ "player/Alsa_sink_options" :=
                VList (map option_string [("device", "hw:0"); ("device", "hw:1")]) ]}
           (fun _ _ _ => true) "Alsa" "alsasink" ∅
           [("device", "hw:0"); ("device", "hw:1")]).
  - vm_compute; reflexivity.
  - repeat constructor.
Defined.

Lemma SINK_PRESETS_keys (gettext : string -> string) (p : string) :
  is_Some (SINK_PRESETS gettext !! p) <-> p ∈ ["auto"; "alsa"; "oss"; "pulse"].
Proof.
  unfold SINK_PRESETS. rewrite !list_to_map_cons, list_to_map_nil.
  rewrite !lookup_insert_is_Some, lookup_empty, <- not_eq_None_Some.
  rewrite !elem_of_cons, elem_of_nil. cbn [fst snd].
  split.
  - intros [<-|[_ [<-|[_ [<-|[_ [<-|[_ H]]]]]]]];
      [ repeat first [left; reflexivity | right] .. | congruence ].
  - intros H.
    destruct (decide ("auto" = p)); [left; assumption | right; split; [assumption|]].
    destruct (decide ("alsa" = p)); [left; assumption | right; split; [assumption|]].
    destruct (decide ("oss" = p)); [left; assumption | right; split; [assumption|]].
    destruct (decide ("pulse" = p)); [left; assumption | right; split; [assumption|]].
    destruct H as [->|[->|[->|[->|[]]]]]; congruence.
Qed.

(** X3: sink_from_preset returns a sink exactly when the preset is one of the
    names auto, alsa, oss and pulse, GStreamer has the identity, the volume and
    the preset's sink element, and the items of the setting
    [player/<name>_sink_options] hold exactly one [=] each; in every other case
    it returns None.  (Elements that have been made are taken to link.) *)
Theorem sink_from_preset_available (gettext : string -> string) (opts : Options)
    (available : string -> bool) (settable : string -> string -> string -> bool)
    (preset : OptVal) :
  is_Some (sink_from_preset gettext opts available settable preset) <->
  exists p d strs,
    preset = VStr p /\ p ∈ ["auto"; "alsa"; "oss"; "pulse"] /\
    SINK_PRESETS gettext !! p = Some d /\
    available "identity" = true /\ available "volume" = true /\
    available (preset_elem d) = true /\
    AudioSink.option_strings
      (get_option opts ("player/" ++ preset_name d ++ "_sink_options") (VList []))
      = inr strs /\
    well_formed_options strs.
Proof.
  unfold sink_from_preset, AudioSink.init, AudioSink.load_options.
  split.
  - intros [sink H].
    destruct preset as [p| | | |]; try discriminate.
    destruct (SINK_PRESETS gettext !! p) as [d|] eqn:Hd; [|discriminate].
    destruct (available "identity") eqn:Hi; [|discriminate].
    destruct (available "volume") eqn:Hv; [|discriminate].
    destruct (available (preset_elem d)) eqn:He; [|discriminate].
    cbn [negb] in H.
    destruct (AudioSink.option_strings _) as [e|strs] eqn:Hs; [discriminate|].
    exists p, d, strs. repeat split; try assumption; try reflexivity.
    + apply (proj1 (SINK_PRESETS_keys gettext p)). rewrite Hd. eauto.
    + apply well_formed_split.
      destruct (dict_items_result (map (split_on "="%char) strs)) as [_ Hbad].
      destruct (decide (Forall (fun parts => length parts = 2%nat)
                          (map (split_on "="%char) strs))) as [Hok|Hno]; [exact Hok|].
      rewrite (Hbad Hno) in H. discriminate.
  - intros (p & d & strs & -> & _ & Hd & Hi & Hv & He & Hs & Hwf).
    rewrite Hd, Hi, Hv, He, Hs. cbn [negb].
    apply well_formed_split in Hwf.
    destruct (dict_items_result (map (split_on "="%char) strs)) as [Hok _].
    destruct (Hok Hwf) as (items & ->). eexists; reflexivity.
Qed.

(** ** The choice of the engine *)

Theorem get_player_choice (opts : Options) :
  (get_player opts = ClassUnifiedPlayer
     <-> opts !! "player/engine" = Some (VStr "unified")) /\
  (get_player opts = ClassGaplessPlayer
     <-> opts !! "player/engine" = Some (VStr "gapless")) /\
  (get_player opts = ClassGSTPlayer
     <-> opts !! "player/engine" <> Some (VStr "unified") /\
         opts !! "player/engine" <> Some (VStr "gapless")).
Proof.
  unfold get_player, get_option.
  destruct (opts !! "player/engine") as [[pname| | | |]|]; cbn;
    try (repeat split; intros; try discriminate; try tauto;
         match goal with H : _ /\ _ |- _ => destruct H end; congruence).
  destruct (String.eqb_spec pname "normal") as [->|Hn]; cbn.
  { repeat split; intros; try discriminate; try congruence. }
  destruct (String.eqb_spec pname "gapless") as [->|Hg]; cbn.
  { repeat split; intros; try discriminate; try congruence.
    destruct H; congruence. }
  destruct (String.eqb_spec pname "unified") as [->|Hu]; cbn.
  { repeat split; intros; try discriminate; try congruence.
    destruct H; congruence. }
  repeat split; intros; try discriminate; try congruence.
Qed.

(** ** The registry of providers *)

Section ProviderRegistry.

Context {Provider : Type} `{EqDecision Provider}.

Lemma list_remove_absent (p : Provider) (l : list Provider) :
  p ∉ l -> ProviderBin.list_remove p l = None.
Proof.
  induction l as [|x r IH]; intros Hp; cbn; [reflexivity|].
  apply not_elem_of_cons in Hp as [Hne Hr].
  destruct (decide (x = p)); [congruence|]. rewrite (IH Hr). reflexivity.
Qed.

Lemma list_remove_first (p : Provider) (l1 l2 : list Provider) :
  p ∉ l1 -> ProviderBin.list_remove p (l1 ++ p :: l2) = Some (l1 ++ l2).
Proof.
  induction l1 as [|x r IH]; intros Hp; cbn.
  - destruct (decide (p = p)); [reflexivity | congruence].
  - apply not_elem_of_cons in Hp as [Hne Hr].
    destruct (decide (x = p)); [congruence|]. rewrite (IH Hr). reflexivity.
Qed.

End ProviderRegistry.

(** X4: ProviderBin: on_new_provider followed by on_del_provider of one
    provider, which was not listed under its index: every index lists the
    providers it listed before, and the provider's index stays a key of the
    dictionary, with the empty list when it was new. *)
Theorem provider_round_trip {Provider : Type} `{EqDecision Provider}
    (index : Provider -> Z) (p : Provider) (elements : gmap Z (list Provider)) :
  p ∉ default [] (elements !! index p) ->
  let elements' :=
    ProviderBin.on_del_provider index p (ProviderBin.on_new_provider index p elements) in
  (forall i, default [] (elements' !! i) = default [] (elements !! i)) /\
  elements' !! index p = Some (default [] (elements !! index p)).
Proof.
  intros Hp. cbv zeta.
  unfold ProviderBin.on_del_provider, ProviderBin.on_new_provider.
  rewrite lookup_insert_eq.
  rewrite <- (app_nil_r (_ ++ [p])), <- app_assoc. cbn [app].
  rewrite (list_remove_first p _ [] Hp), app_nil_r, insert_insert_eq.
  split.
  - intros i. destruct (decide (index p = i)) as [<-|Hne].
    + rewrite lookup_insert_eq. reflexivity.
    + rewrite lookup_insert_ne by exact Hne. reflexivity.
  - apply lookup_insert_eq.
Qed.

Lemma provider_round_trip_witness :
  let elements' :=
    ProviderBin.on_del_provider Z.of_nat 7%nat
      (ProviderBin.on_new_provider Z.of_nat 7%nat {[ 7 := [3%nat] ]}) in
  (forall i, default [] (elements' !! i)
             = default [] (({[ 7 := [3%nat] ]} : gmap Z (list nat)) !! i)) /\
  elements' !! Z.of_nat 7 = Some (default [] (({[ 7 := [3%nat] ]} : gmap Z (list nat))
                                               !! Z.of_nat 7)).
Proof.
  apply (provider_round_trip Z.of_nat 7%nat {[ 7 := [3%nat] ]}).
  change (Z.of_nat 7) with 7. rewrite lookup_singleton_eq. cbn [default].
  intros H. inversion H as [|? ? ? H']; subst. inversion H'.
Defined.

(** X5: ProviderBin.on_del_provider: for a provider that is not listed under its
    index nothing changes, the exception being passed over; otherwise the first
    occurrence of the provider under its index is taken out, and nothing else. *)
Theorem provider_unregister {Provider : Type} `{EqDecision Provider}
    (index : Provider -> Z) (p : Provider) (elements : gmap Z (list Provider)) :
  (p ∉ default [] (elements !! index p) ->
     ProviderBin.on_del_provider index p elements = elements) /\
  (forall l1 l2, elements !! index p = Some (l1 ++ p :: l2) -> p ∉ l1 ->
     ProviderBin.on_del_provider index p elements = <[index p := l1 ++ l2]> elements).
Proof.
  unfold ProviderBin.on_del_provider. split.
  - intros Hp. destruct (elements !! index p) as [l|]; [|reflexivity].
    cbn in Hp. rewrite (list_remove_absent p l Hp). reflexivity.
  - intros l1 l2 -> Hp. rewrite (list_remove_first p l1 l2 Hp). reflexivity.
Qed.

(** ** BaseGSTPlayer: play, stop, pause *)

Lemma base_stop_eq (w : World) :
  BaseGSTPlayer.stop w =
    if base_active w then
      (BaseGSTPlayer.update_playtime;;
       current <- gets (fun w => b_current (base w));;
       BaseGSTPlayer.update (BaseGSTPlayer.with_state STATE_NULL);;
       BaseGSTPlayer.update (BaseGSTPlayer.with_current None);;
       log_event "playback_end" OPlayer (obj_of_track current);;
       ret true) w
    else Ok false w.
Proof.
  unfold BaseGSTPlayer.stop, base_active, BaseGSTPlayer.is_playing, BaseGSTPlayer.is_paused,
    BaseGSTPlayer._get_gst_state.
  msimpl. destruct (bool_decide (b_state (base w) = STATE_PLAYING)); msimpl; [reflexivity|].
  cbn [orb]. destruct (bool_decide (b_state (base w) = STATE_PAUSED)); reflexivity.
Qed.

Lemma base_update_playtime_eq (w : World) :
  BaseGSTPlayer.update_playtime w =
    Ok tt (match b_current (base w), AudioStream.stamp_truthy (b_playtime_stamp (base w)) with
           | Some c, Some stamp =>
               set_base (BaseGSTPlayer.with_playtime_stamp None (base w))
                 (set_playtime (base_credited w) w)
           | _, _ => w
           end).
Proof.
  unfold BaseGSTPlayer.update_playtime, base_credited. msimpl.
  destruct (b_current (base w)) as [c|]; [|reflexivity].
  destruct (AudioStream.stamp_truthy _) as [stamp|]; reflexivity.
Qed.

(** What [play] gives for a track that can be played. *)
Lemma base_play_result (w : World) (t : Track) :
  is_local t && negb (file_exists t) = false -> loc_scheme t <> EmptyString ->
  exists w',
    BaseGSTPlayer.play (Some t) w = Ok true w' /\
    b_state (base w') = STATE_PLAYING /\ b_current (base w') = Some t /\
    b_uri (base w') = Some (io_uri t) /\
    b_playtime_stamp (base w') = Some (int_time w) /\
    events w' = events w ++
      (if base_active w
       then [("playback_end", OPlayer, obj_of_track (b_current (base w)))] else []) ++
      [("playback_start", OPlayer, OTrack t)] /\
    playtime w' = (if base_active w then base_credited w else playtime w) /\
    queue w' = queue w /\ sources w' = sources w.
Proof.
  intros Ht Hsch. unfold BaseGSTPlayer.play, BaseGSTPlayer._get_track_uri.
  apply String.eqb_neq in Hsch. rewrite bind_eq, base_stop_eq, Ht, Hsch.
  destruct (base_active w).
  - rewrite bind_eq, base_update_playtime_eq. unfold base_credited.
    destruct (b_current (base w)) as [c|] eqn:Hc;
      [destruct (AudioStream.stamp_truthy (b_playtime_stamp (base w))) as [stamp|] eqn:Hs|];
      destruct (String.prefix "cdda:" (io_uri t)) eqn:Hcd;
      (eexists; split; [cbn; rewrite ?Hcd; reflexivity|]; cbn; rewrite ?Hc, ?Hs, <- ?app_assoc;
       repeat split; reflexivity).
  - destruct (String.prefix "cdda:" (io_uri t)) eqn:Hcd;
      (eexists; split; [cbn; rewrite ?Hcd; reflexivity|]; cbn; repeat split; reflexivity).
Qed.


(** X7: BaseGSTPlayer: pause when not playing and unpause when not paused return
    False and change nothing; so do a stop after a stop, a pause after a pause
    that returned True, and an unpause after an unpause that returned True. *)
Theorem base_transport_guards (w : World) :
  (b_state (base w) <> STATE_PLAYING -> BaseGSTPlayer.pause w = Ok false w) /\
  (b_state (base w) <> STATE_PAUSED -> BaseGSTPlayer.unpause w = Ok false w) /\
  (forall b w1, BaseGSTPlayer.stop w = Ok b w1 -> BaseGSTPlayer.stop w1 = Ok false w1) /\
  (forall w1, BaseGSTPlayer.pause w = Ok true w1 -> BaseGSTPlayer.pause w1 = Ok false w1) /\
  (forall w1, BaseGSTPlayer.unpause w = Ok true w1 ->
              BaseGSTPlayer.unpause w1 = Ok false w1).
Proof.
  assert (Hp : forall w, b_state (base w) <> STATE_PLAYING ->
                         BaseGSTPlayer.pause w = Ok false w).
  { intros w0 H. unfold BaseGSTPlayer.pause, BaseGSTPlayer.is_playing,
      BaseGSTPlayer._get_gst_state. msimpl. decide_tests. reflexivity. }
  assert (Hu : forall w, b_state (base w) <> STATE_PAUSED ->
                         BaseGSTPlayer.unpause w = Ok false w).
  { intros w0 H. unfold BaseGSTPlayer.unpause, BaseGSTPlayer.is_paused,
      BaseGSTPlayer._get_gst_state. msimpl. decide_tests. reflexivity. }
  split; [apply Hp|]. split; [apply Hu|]. split; [|split].
  - intros b w1 Hs.
    destruct (BaseGSTPlayer_stop_returns w) as (b' & w' & Hs' & H1 & H2).
    rewrite Hs in Hs'. inversion Hs'; subst.
    apply BaseGSTPlayer_stop_idle; assumption.
  - intros w1 H. apply Hp. revert H.
    unfold BaseGSTPlayer.pause, BaseGSTPlayer.is_playing, BaseGSTPlayer._get_gst_state.
    msimpl. destruct (bool_decide (b_state (base w) = STATE_PLAYING)); [|discriminate].
    rewrite bind_eq, base_update_playtime_eq. cbv beta iota.
    destruct (b_current (base w)); [destruct (AudioStream.stamp_truthy _)|];
      intros H; inversion H; cbn; discriminate.
  - intros w1 H. apply Hu. revert H.
    unfold BaseGSTPlayer.unpause, BaseGSTPlayer.is_paused, BaseGSTPlayer._get_gst_state,
      BaseGSTPlayer.reset_playtime_stamp, BaseGSTPlayer.update, log_event,
      bind, gets, ret, modify, raise.
    destruct (bool_decide (b_state (base w) = STATE_PAUSED)); [|discriminate].
    cbn. destruct (b_current (base w)) as [t|]; [|discriminate].
    destruct (is_local t); intros H; inversion H; cbn; discriminate.
Qed.

(** X8: BaseGSTPlayer.toggle_pause called twice while a track plays: the first
    call pauses, the second resumes the same track with the same URI; the events
    are playback_pause, playback_toggle_pause, playback_resume,
    playback_toggle_pause, in that order. *)
Theorem base_toggle_pause_twice (w : World) (t : Track) :
  b_state (base w) = STATE_PLAYING -> b_current (base w) = Some t ->
  exists w1 w2,
    BaseGSTPlayer.toggle_pause w = Ok tt w1 /\ b_state (base w1) = STATE_PAUSED /\
    BaseGSTPlayer.toggle_pause w1 = Ok tt w2 /\ b_state (base w2) = STATE_PLAYING /\
    b_current (base w2) = Some t /\ b_uri (base w2) = b_uri (base w) /\
    events w2 = events w ++
      [ ("playback_pause", OPlayer, OTrack t); ("playback_toggle_pause", OPlayer, OTrack t);
        ("playback_resume", OPlayer, OTrack t); ("playback_toggle_pause", OPlayer, OTrack t) ].
Proof.
  intros Hs Hc.
  assert (H1 : exists w1,
    BaseGSTPlayer.toggle_pause w = Ok tt w1 /\ b_state (base w1) = STATE_PAUSED /\
    b_current (base w1) = Some t /\ b_uri (base w1) = b_uri (base w) /\
    events w1 = events w ++
      [ ("playback_pause", OPlayer, OTrack t); ("playback_toggle_pause", OPlayer, OTrack t) ]).
  { unfold BaseGSTPlayer.toggle_pause, BaseGSTPlayer.pause, BaseGSTPlayer.is_paused,
      BaseGSTPlayer.is_playing, BaseGSTPlayer._get_gst_state.
    repeat (msimpl; decide_tests).
    rewrite base_update_playtime_eq. rewrite Hc.
    destruct (AudioStream.stamp_truthy _);
      (eexists; split; [reflexivity|]; cbn; rewrite ?Hc, <- ?app_assoc;
       repeat split; reflexivity). }
  destruct H1 as (w1 & E1 & Hs1 & Hc1 & Hu1 & Hev1).
  exists w1.
  assert (H2 : exists w2,
    BaseGSTPlayer.toggle_pause w1 = Ok tt w2 /\ b_state (base w2) = STATE_PLAYING /\
    b_current (base w2) = Some t /\ b_uri (base w2) = b_uri (base w1) /\
    events w2 = events w1 ++
      [ ("playback_resume", OPlayer, OTrack t); ("playback_toggle_pause", OPlayer, OTrack t) ]).
  { unfold BaseGSTPlayer.toggle_pause, BaseGSTPlayer.unpause, BaseGSTPlayer.is_paused,
      BaseGSTPlayer._get_gst_state, BaseGSTPlayer.reset_playtime_stamp,
      BaseGSTPlayer.update, log_event, bind, gets, ret, modify, raise.
    decide_tests. cbn. rewrite Hc1.
    destruct (is_local t);
      (eexists; split; [reflexivity|]; cbn; rewrite ?Hc1, <- ?app_assoc;
       repeat split; reflexivity). }
  destruct H2 as (w2 & E2 & Hs2 & Hc2 & Hu2 & Hev2).
  exists w2. rewrite Hev2, Hev1, <- app_assoc. cbn [app].
  repeat split; try assumption. congruence.
Qed.

Lemma base_toggle_pause_twice_witness :
  exists w1 w2,
    BaseGSTPlayer.toggle_pause base_playing_a = Ok tt w1 /\
    b_state (base w1) = STATE_PAUSED /\
    BaseGSTPlayer.toggle_pause w1 = Ok tt w2 /\ b_state (base w2) = STATE_PLAYING /\
    b_current (base w2) = Some track_a /\ b_uri (base w2) = b_uri (base base_playing_a) /\
    events w2 = events base_playing_a ++
      [ ("playback_pause", OPlayer, OTrack track_a);
        ("playback_toggle_pause", OPlayer, OTrack track_a);
        ("playback_resume", OPlayer, OTrack track_a);
        ("playback_toggle_pause", OPlayer, OTrack track_a) ].
Proof. apply (base_toggle_pause_twice base_playing_a track_a); reflexivity. Defined.

(** ** Play time and position *)

Lemma stream_self_eq (sid : nat) (w : World) :
  AudioStream.self sid w = match heap w !! sid with
                           | Some s => Ok s w
                           | None => Raise AttributeError w
                           end.
Proof. reflexivity. Qed.

Lemma stream_update_eq (sid : nat) (f : AudioStream -> AudioStream) (w : World) :
  AudioStream.update sid f w = Ok tt (set_heap (alter f sid (heap w)) w).
Proof. reflexivity. Qed.

(** X9: update_playtime, of an AudioStream and of BaseGSTPlayer: two calls in a
    row do what one call does, the first one clearing the playtime stamp, so
    that the play time is credited once. *)
Theorem update_playtime_credits_once (sid : nat) (w : World) :
  (AudioStream.update_playtime sid;; AudioStream.update_playtime sid) w
    = AudioStream.update_playtime sid w /\
  (BaseGSTPlayer.update_playtime;; BaseGSTPlayer.update_playtime) w
    = BaseGSTPlayer.update_playtime w.
Proof.
  split.
  - rewrite bind_eq. unfold AudioStream.update_playtime at 1 3.
    rewrite !bind_eq, stream_self_eq.
    destruct (heap w !! sid) as [s|] eqn:Hs; [|reflexivity].
    destruct (as_track s) as [t|] eqn:Ht.
    + destruct (AudioStream.stamp_truthy (as_playtime_stamp s)) as [stamp|] eqn:Hst.
      * unfold AudioStream.credit_playtime. msimpl. rewrite stream_update_eq.
        unfold AudioStream.update_playtime. rewrite bind_eq, stream_self_eq.
        cbn [heap set_heap set_playtime]. rewrite lookup_alter_eq, Hs. cbn.
        rewrite Ht. reflexivity.
      * msimpl. unfold AudioStream.update_playtime. rewrite bind_eq, stream_self_eq, Hs, Ht, Hst.
        reflexivity.
    + msimpl. unfold AudioStream.update_playtime. rewrite bind_eq, stream_self_eq, Hs, Ht.
      reflexivity.
  - rewrite bind_eq, base_update_playtime_eq.
    destruct (b_current (base w)) as [c|] eqn:Hc;
      [destruct (AudioStream.stamp_truthy (b_playtime_stamp (base w))) as [stamp|] eqn:Hs|];
      rewrite base_update_playtime_eq; cbn; rewrite ?Hc, ?Hs; reflexivity.
Qed.

(** X10: AudioStream.get_position: a paused stream answers its stored
    last_position and nothing changes; any other stream answers the queried
    position, 0 when the query fails, and stores it as last_position.  Asking
    again at once gives the same answer and changes nothing more.  (The
    exception is for an identifier that names no stream.) *)
Theorem stream_get_position_stable (sid : nat) (w : World) :
  match AudioStream.get_position sid w with
  | Ok p w' =>
      AudioStream.get_position sid w' = Ok p w' /\
      exists s, heap w !! sid = Some s /\
        p = (if bool_decide (as_state s = STATE_PAUSED) then as_last_position s
             else default 0 (as_query s)) /\
        w' = (if bool_decide (as_state s = STATE_PAUSED) then w
              else set_heap (alter (AudioStream.with_last_position (default 0 (as_query s)))
                               sid (heap w)) w)
  | Raise e w' => e = AttributeError /\ w' = w /\ heap w !! sid = None
  end.
Proof.
  cbv [AudioStream.get_position AudioStream.is_paused AudioStream._get_gst_state
       AudioStream.self AudioStream.update bind gets ret modify].
  destruct (heap w !! sid) as [s|] eqn:Hs; [|repeat split; reflexivity].
  destruct (bool_decide (as_state s = STATE_PAUSED)) eqn:Hp.
  - rewrite Hs. split; [rewrite Hs, Hp, Hs; reflexivity | exists s; rewrite Hp; repeat split; reflexivity].
  - rewrite Hs. cbn [heap set_heap]. rewrite lookup_alter_eq, Hs.
    cbn [fmap option_fmap option_map as_last_position AudioStream.with_last_position].
    split; [|exists s; rewrite Hp; repeat split; reflexivity].
    repeat first
      [ progress cbn [heap set_heap fmap option_fmap option_map as_state as_query
                      as_last_position AudioStream.with_last_position]
      | rewrite lookup_alter_eq | rewrite Hs | rewrite Hp ].
    rewrite alter_alter_eq. reflexivity.
Qed.

(** X11: One run of AudioStream._settle_state_sub: with the settle flag at 1 and
    the stream paused it sets the stream playing, stamps the play time,
    registers one more idle call of itself, logs nothing and answers True;
    otherwise it clears the flag, logs stream_settled and answers False.  (The
    exception is for an identifier that names no stream.) *)
Theorem stream_settle_step (sid : nat) (w : World) :
  match AudioStream._settle_state_sub sid w with
  | Ok keep w' =>
      exists s, heap w !! sid = Some s /\
        keep = (as_settle_flag s =? 1) && bool_decide (as_state s = STATE_PAUSED) /\
        if keep then
          sources w' = sources w ++
            [{| src_id := next_source_id w; src_interval := None;
                src_cb := CbSettleStateSub sid |}] /\
          events w' = events w /\
          heap w' = <[sid := AudioStream.with_playtime_stamp (Some (int_time w))
                               (AudioStream.with_settle_flag 1
                                  (AudioStream.with_state STATE_PLAYING s))]> (heap w)
        else
          sources w' = sources w /\
          events w' = events w ++ [("stream_settled", OStream sid, ONone)] /\
          heap w' = <[sid := AudioStream.with_settle_flag 0 s]> (heap w)
  | Raise e w' => e = AttributeError /\ w' = w /\ heap w !! sid = None
  end.
Proof.
  cbv [AudioStream._settle_state_sub AudioStream._get_gst_state AudioStream.set_state
       AudioStream._settle_state AudioStream.bin_set_state AudioStream.reset_playtime_stamp
       AudioStream.self AudioStream.update gobject.idle_add gobject.add_source log_event
       bind gets ret modify].
  destruct (heap w !! sid) as [s|] eqn:Hs; [|repeat split; reflexivity].
  rewrite Hs.
  destruct ((as_settle_flag s =? 1) && bool_decide (as_state s = STATE_PAUSED)) eqn:Hk.
  - exists s. split; [reflexivity|]. rewrite Hk. split; [reflexivity|]. cbn.
    repeat split.
    apply map_eq. intros i. destruct (decide (i = sid)) as [->|Hne].
    + rewrite lookup_insert_eq, !lookup_alter_eq, Hs. reflexivity.
    + rewrite lookup_insert_ne, !lookup_alter_ne by congruence. reflexivity.
  - exists s. split; [reflexivity|]. rewrite Hk. split; [reflexivity|]. cbn.
    repeat split.
    apply map_eq. intros i. destruct (decide (i = sid)) as [->|Hne].
    + rewrite lookup_insert_eq, !lookup_alter_eq, Hs. reflexivity.
    + rewrite lookup_insert_ne, !lookup_alter_ne by congruence. reflexivity.
Qed.

(** ** Messages of the bus *)

(** Taking the head of the queue. *)
Lemma take_track_pop (w : World) (t : Track) (rest : list Track) :
  ordered_tracks (queue w) = t :: rest ->
  exists q,
    PlayQueue.take_track w = Ok (Some t) (set_queue q w) /\
    ordered_tracks q = rest /\ stop_track q = stop_track (queue w) /\
    current_pos q = 0 /\ current_playing q = true.
Proof.
  intros Hq.
  cbv [PlayQueue.take_track PlayQueue.update bind gets modify ret]. rewrite Hq. cbn.
  destruct (current_playlist (queue w)); eexists; (split; [reflexivity|]);
    cbn; repeat split; reflexivity.
Qed.

(** [queue.next()] on a playbin engine whose current track is not the stop
    track, a track waiting in the queue. *)
Lemma next_advances_base (w : World) (t : Track) (rest : list Track) :
  engine w = EngineBase ->
  obj_of_track (b_current (base w)) <> stop_track (queue w) ->
  ordered_tracks (queue w) = t :: rest ->
  is_local t && negb (file_exists t) = false -> loc_scheme t <> EmptyString ->
  exists w',
    PlayQueue.next true None w = Ok (Some t) w' /\
    b_state (base w') = STATE_PLAYING /\ b_current (base w') = Some t /\
    b_uri (base w') = Some (io_uri t) /\
    ordered_tracks (queue w') = rest /\ stop_track (queue w') = stop_track (queue w) /\
    events w' = events w ++
      (if base_active w
       then [("playback_end", OPlayer, obj_of_track (b_current (base w)))] else []) ++
      [("playback_start", OPlayer, OTrack t)] /\
    playtime w' = (if base_active w then base_credited w else playtime w).
Proof.
  intros He Hm Hq Ht Hsch.
  destruct (take_track_pop w t rest Hq) as (q & Htake & Hq1 & Hm1 & _).
  destruct (base_play_result (set_queue q w) t Ht Hsch)
    as (w' & Hp & Hs' & Hc' & Hu' & _ & Hev' & Hpt' & Hq' & _).
  exists w'.
  unfold PlayQueue.next, PlayQueue.stop_on_marker, PlayQueue.player_current.
  repeat (msimpl; rewrite ?He).
  unfold py_eq. rewrite bool_decide_eq_false_2 by exact Hm. msimpl.
  rewrite Htake. msimpl.
  unfold PlayQueue.player_play.
  rewrite bind_eq, gets_eq. cbv beta iota.
  change (engine (set_queue q w)) with (engine w). rewrite He.
  rewrite bind_eq, Hp. msimpl.
  repeat split; try assumption.
  - rewrite Hq'. exact Hq1.
  - rewrite Hq'. exact Hm1.
Qed.



(** X13: An end-of-stream message while the player is paused is passed over,
    whatever eof_func is.  On a GSTPlayer that is not paused, whose current
    track is not the stop track, with an empty queue and no playlist, it does
    what stop() does: the player is not playing afterwards, the queue is as
    before and, if the player was playing, current is None and playback_end is
    logged. *)
Theorem eos_without_next_track (tag_func : option (M unit)) (eof_func : M unit)
    (w : World) :
  (b_state (base w) = STATE_PAUSED ->
     BaseGSTPlayer.on_message tag_func eof_func MESSAGE_EOS w = Ok true w) /\
  (engine w = EngineBase -> b_state (base w) <> STATE_PAUSED ->
   obj_of_track (b_current (base w)) <> stop_track (queue w) ->
   ordered_tracks (queue w) = [] -> current_playlist (queue w) = None ->
     exists b w',
       BaseGSTPlayer.stop w = Ok b w' /\
       BaseGSTPlayer.on_message tag_func GSTPlayer.eof_func MESSAGE_EOS w = Ok true w' /\
       b_state (base w') <> STATE_PLAYING /\ queue w' = queue w /\
       (b_state (base w) = STATE_PLAYING ->
          b_current (base w') = None /\ b_state (base w') = STATE_NULL /\
          events w' = events w ++
            [("playback_end", OPlayer, obj_of_track (b_current (base w)))])).
Proof.
  split.
  - intros Hp.
    unfold BaseGSTPlayer.on_message, BaseGSTPlayer.is_paused, BaseGSTPlayer._get_gst_state.
    repeat (msimpl; decide_tests). reflexivity.
  - intros He Hp Hm Hq Hpl.
    destruct (BaseGSTPlayer_stop_returns w) as (b & w' & Hs & H1 & H2).
    exists b, w'. split; [exact Hs|].
    assert (Hqueue : queue w' = queue w).
    { pose proof (frame_base_stop queue w) as Hf. rewrite Hs in Hf. exact Hf. }
    split; [|split; [exact H1|split; [exact Hqueue|]]].
    + unfold BaseGSTPlayer.on_message, BaseGSTPlayer.is_paused,
        BaseGSTPlayer._get_gst_state, GSTPlayer.eof_func.
      repeat (msimpl; decide_tests).
      unfold PlayQueue.next, PlayQueue.stop_on_marker, PlayQueue.player_current.
      repeat (msimpl; rewrite ?He).
      unfold py_eq. rewrite bool_decide_eq_false_2 by exact Hm. msimpl.
      unfold PlayQueue.take_track. msimpl. rewrite Hq, Hpl. msimpl.
      unfold PlayQueue.player_stop. msimpl. rewrite He, Hs. reflexivity.
    + intros Hplay.
      destruct (BaseGSTPlayer_stop_active w (or_introl Hplay)) as (w2 & Hs2 & Hrest).
      rewrite Hs in Hs2. inversion Hs2; subst. exact Hrest.
Qed.

(** A buffering message sets the state of the playbin and may log an event:
    the current track, the playtime stamp and the tags stay. *)
Lemma base_on_buffering (w : World) (tag_func : option (M unit)) (eof_func : M unit)
    (percent : Z) :
  exists w',
    BaseGSTPlayer.on_message tag_func eof_func (MESSAGE_BUFFERING percent) w = Ok true w' /\
    b_state (base w') = (if percent <? 100 then STATE_PAUSED else STATE_PLAYING) /\
    b_current (base w') = b_current (base w) /\
    b_playtime_stamp (base w') = b_playtime_stamp (base w) /\
    playtime w' = playtime w /\ now w' = now w /\
    events w' = events w ++
      (if percent mod 5 =? 0 then [("playback_buffering", OPlayer, OInt percent)] else []).
Proof.
  cbv [BaseGSTPlayer.on_message BaseGSTPlayer.update log_event bind gets ret modify].
  destruct (percent <? 100); destruct (percent mod 5 =? 0);
    (eexists; split; [reflexivity|]; cbn; rewrite ?app_nil_r; repeat split; reflexivity).
Qed.

(** X14: A buffering message under 100 percent pauses the playbin without
    logging playback_pause.  For a track that is played, buffers and is stopped,
    the whole time from play to stop, the time spent buffering included, is
    credited as play time, in whole seconds from the second of the play call. *)
Theorem buffering_counts_as_playtime (w : World) (t : Track) (low high p q r : Z) :
  is_local t && negb (file_exists t) = false -> loc_scheme t <> EmptyString ->
  b_state (base w) <> STATE_PLAYING -> b_state (base w) <> STATE_PAUSED ->
  1000 <= now w -> 0 <= p -> 0 <= q -> 0 <= r ->
  low < 100 -> 100 <= high ->
  exists w2 w',
    (BaseGSTPlayer.play (Some t);; MainLoop.elapse p;;
     BaseGSTPlayer.on_message None GSTPlayer.eof_func (MESSAGE_BUFFERING low)) w
      = Ok true w2 /\
    b_state (base w2) = STATE_PAUSED /\
    filter (fun e : Event => e.1.1 = "playback_pause") (events w2)
      = filter (fun e : Event => e.1.1 = "playback_pause") (events w) /\
    base_buffering_cycle t low high p q r w = Ok tt w' /\
    credited t w' = credited t w + Z.quot (p + q + r + now w mod 1000) 1000.
Proof.
  intros Hok Hsch H1 H2 Hnow Hp Hq Hr Hlow Hhigh.
  destruct (base_play_starts w t Hok Hsch H1 H2) as (w1 & E1 & S1 & C1 & T1 & P1 & N1).
  destruct (elapse_clock p w1) as (w2 & E2 & S2 & C2 & T2 & P2 & N2).
  destruct (base_on_buffering w2 None GSTPlayer.eof_func low)
    as (w3 & E3 & S3 & C3 & T3 & P3 & N3 & V3).
  destruct (elapse_clock q w3) as (w4 & E4 & S4 & C4 & T4 & P4 & N4).
  destruct (base_on_buffering w4 None GSTPlayer.eof_func high)
    as (w5 & E5 & S5 & C5 & T5 & P5 & N5 & V5).
  destruct (elapse_clock r w5) as (w6 & E6 & S6 & C6 & T6 & P6 & N6).
  assert (Hhi : (high <? 100) = false) by (apply Z.ltb_ge; lia).
  assert (Hlo : (low <? 100) = true) by (apply Z.ltb_lt; lia).
  rewrite Hhi in S5. rewrite Hlo in S3.
  destruct (base_stop_flushes w6 t (now w / 1000)) as (w7 & E7 & P7);
    [left; congruence | congruence | congruence | |].
  { intros Hz. apply Z.div_small_iff in Hz; lia. }
  exists w3, w7. split; [|split; [exact S3|split; [|split]]].
  - rewrite !bind_eq, E1. cbv beta iota. rewrite bind_eq, E2. cbv beta iota. exact E3.
  - rewrite V3.
    assert (Hev1 : events w1 = events w ++ [("playback_start", OPlayer, OTrack t)]).
    { destruct (base_play_result w t Hok Hsch) as (w1' & E1' & _ & _ & _ & _ & Hev & _).
      rewrite E1 in E1'. inversion E1'; subst w1'. rewrite Hev.
      unfold base_active. rewrite !bool_decide_eq_false_2 by assumption. reflexivity. }
    assert (Hev2 : events w2 = events w1).
    { revert E2. unfold MainLoop.elapse. rewrite modify_eq. intros E; inversion E; reflexivity. }
    rewrite Hev2, Hev1, !filter_app.
    rewrite (filter_cons_False _ _ []) by (cbn; discriminate). rewrite filter_nil, app_nil_r.
    destruct (low mod 5 =? 0); [|rewrite filter_nil, app_nil_r; reflexivity].
    rewrite (filter_cons_False _ _ []) by (cbn; discriminate).
    rewrite filter_nil, app_nil_r. reflexivity.
  - unfold base_buffering_cycle. cbn [run]. unfold do_.
    rewrite !bind_eq, E1. cbv beta iota. rewrite ret_eq. cbv beta iota.
    rewrite !bind_eq, E2. cbv beta iota.
    rewrite !bind_eq, E3. cbv beta iota. rewrite ret_eq. cbv beta iota.
    rewrite !bind_eq, E4. cbv beta iota.
    rewrite !bind_eq, E5. cbv beta iota. rewrite ret_eq. cbv beta iota.
    rewrite !bind_eq, E6. cbv beta iota.
    rewrite !bind_eq, E7. cbv beta iota. rewrite !ret_eq. reflexivity.
  - rewrite P7.
    assert (Hc : credited t w6 = credited t w) by (unfold credited; congruence).
    rewrite Hc. f_equal. f_equal.
    rewrite N6, N5, N4, N3, N2, N1. pose proof (Z.div_mod (now w) 1000). lia.
Qed.

Lemma buffering_counts_as_playtime_witness :
  exists w2 w',
    (BaseGSTPlayer.play (Some track_a);; MainLoop.elapse 10000;;
     BaseGSTPlayer.on_message None GSTPlayer.eof_func (MESSAGE_BUFFERING 40))
      (init_world EngineBase default_settings) = Ok true w2 /\
    b_state (base w2) = STATE_PAUSED /\
    filter (fun e : Event => e.1.1 = "playback_pause") (events w2)
      = filter (fun e : Event => e.1.1 = "playback_pause")
          (events (init_world EngineBase default_settings)) /\
    base_buffering_cycle track_a 40 100 10000 100000 5000
      (init_world EngineBase default_settings) = Ok tt w' /\
    credited track_a w' = credited track_a (init_world EngineBase default_settings)
      + Z.quot (10000 + 100000 + 5000 + now (init_world EngineBase default_settings) mod 1000)
          1000.
Proof.
  apply (buffering_counts_as_playtime (init_world EngineBase default_settings) track_a
           40 100 10000 100000 5000);
    first [reflexivity | discriminate | cbn; lia].
Defined.



(** ** PlayQueue.next and PlayQueue.prev *)

Lemma next_false_pop (w : World) (t : Track) (rest : list Track) :
  ordered_tracks (queue w) = t :: rest ->
  exists q,
    PlayQueue.next false None w = Ok (Some t) (set_queue q w) /\
    ordered_tracks q = rest /\ stop_track q = stop_track (queue w) /\
    current_playlist q = (PlayQueue.playlist_set_current_playing false <$> current_playlist (queue w)).
Proof.
  intros Hq.
  cbv [PlayQueue.next PlayQueue.take_track PlayQueue.update bind gets modify ret].
  rewrite Hq. cbn.
  destruct (current_playlist (queue w)) eqn:Hp; eexists; (split; [reflexivity|]);
    cbn; rewrite ?Hp; repeat split; reflexivity.
Qed.

Lemma next_false_empty (w : World) :
  ordered_tracks (queue w) = [] -> current_playlist (queue w) = None ->
  PlayQueue.next false None w = Ok None w.
Proof.
  intros Hq Hp.
  cbv [PlayQueue.next PlayQueue.take_track PlayQueue.update bind gets modify ret].
  rewrite Hq, Hp. reflexivity.
Qed.

Lemma drain_empty (k : nat) (w : World) :
  ordered_tracks (queue w) = [] -> current_playlist (queue w) = None ->
  drain k w = Ok (replicate k None) w.
Proof.
  intros Hq Hp. induction k as [|k IH]; [reflexivity|].
  cbn [drain replicate]. rewrite bind_eq, (next_false_empty w Hq Hp). cbv beta iota.
  rewrite bind_eq, IH. reflexivity.
Qed.

(** X16: PlayQueue.next(player=False) with no current playlist: repeated calls
    return the queued tracks in their order, one per call, and None on every
    call after that; the queue is empty then and the stop track is as before. *)
Theorem next_drains_in_order (w : World) (k : nat) :
  current_playlist (queue w) = None ->
  exists q,
    drain (length (ordered_tracks (queue w)) + k) w
      = Ok (map Some (ordered_tracks (queue w)) ++ replicate k None) (set_queue q w) /\
    ordered_tracks q = [] /\ stop_track q = stop_track (queue w).
Proof.
  remember (ordered_tracks (queue w)) as l eqn:Hl. revert w Hl.
  induction l as [|t rest IH]; intros w Hl Hp.
  - exists (queue w). cbn [length Nat.add map app].
    rewrite (drain_empty k w (eq_sym Hl) Hp).
    split; [destruct w; reflexivity|]. split; [congruence | reflexivity].
  - destruct (next_false_pop w t rest (eq_sym Hl)) as (q1 & Hn & Hq1 & Hm1 & Hp1).
    rewrite Hp in Hp1. cbn in Hp1.
    destruct (IH (set_queue q1 w) (eq_sym Hq1) Hp1) as (q & Hd & Hq & Hm).
    exists q. cbn [length Nat.add map app drain].
    rewrite bind_eq, Hn. cbv beta iota. rewrite bind_eq, Hd. cbv beta iota.
    split; [reflexivity|]. split; [exact Hq|]. rewrite Hm. exact Hm1.
Qed.

Lemma next_drains_in_order_witness :
  exists q,
    drain (length (ordered_tracks (queue base_playing_a_queued)) + 2) base_playing_a_queued
      = Ok (map Some (ordered_tracks (queue base_playing_a_queued)) ++ replicate 2 None)
           (set_queue q base_playing_a_queued) /\
    ordered_tracks q = [] /\ stop_track q = stop_track (queue base_playing_a_queued).
Proof. apply (next_drains_in_order base_playing_a_queued 2). reflexivity. Defined.


Lemma base_get_time_eq (w : World) :
  BaseGSTPlayer.get_time w =
    Ok (base_position w / SECOND)
       (if bool_decide (b_state (base w) = STATE_PAUSED) then w
        else set_base (BaseGSTPlayer.with_last_position (default 0 (b_query (base w)))
                         (base w)) w).
Proof.
  cbv [BaseGSTPlayer.get_time BaseGSTPlayer.get_position BaseGSTPlayer.is_paused
       BaseGSTPlayer._get_gst_state BaseGSTPlayer.update base_position
       bind gets ret modify].
  destruct (bool_decide (b_state (base w) = STATE_PAUSED)); reflexivity.
Qed.

(** X18: PlayQueue.prev on a playbin engine with a current track, not a missing
    local file, of which five seconds or more have played: the same track is
    played again (playback_end if the player was active, then playback_start)
    and returned; the queue stays as it is. *)
Theorem prev_restarts_current (Playlist_get_current : M (option Track))
    (playlist_get_current playlist_prev : Playlist -> M (option Track))
    (w : World) (c : Track) :
  engine w = EngineBase -> b_current (base w) = Some c ->
  5 <= base_position w / SECOND ->
  is_local c && negb (file_exists c) = false -> loc_scheme c <> EmptyString ->
  exists w',
    PlayQueue.prev Playlist_get_current playlist_get_current playlist_prev w
      = Ok (Some c) w' /\
    b_current (base w') = Some c /\ b_state (base w') = STATE_PLAYING /\
    events w' = events w ++
      (if base_active w then [("playback_end", OPlayer, OTrack c)] else []) ++
      [("playback_start", OPlayer, OTrack c)] /\
    queue w' = queue w.
Proof.
  intros He Hc Ht Hok Hsch.
  set (w1 := if bool_decide (b_state (base w) = STATE_PAUSED) then w
             else set_base (BaseGSTPlayer.with_last_position (default 0 (b_query (base w)))
                              (base w)) w).
  assert (H1 : engine w1 = EngineBase /\ b_current (base w1) = Some c /\
               events w1 = events w /\ base_active w1 = base_active w /\ queue w1 = queue w).
  { subst w1. destruct (bool_decide (b_state (base w) = STATE_PAUSED));
      repeat split; assumption. }
  destruct H1 as (He1 & Hc1 & Hev1 & Ha1 & Hq1).
  destruct (base_play_result w1 c Hok Hsch)
    as (w' & Hp & Hs' & Hc' & _ & _ & Hev' & _ & Hq' & _).
  exists w'.
  unfold PlayQueue.prev, PlayQueue.player_current, PlayQueue.player_get_time,
    PlayQueue.player_play.
  repeat (msimpl; rewrite ?He, ?Hc).
  rewrite base_get_time_eq. fold w1. cbv beta iota.
  apply Z.ltb_ge in Ht. rewrite Ht.
  repeat (msimpl; rewrite ?He1, ?Hc1). rewrite Hp. msimpl.
  split; [reflexivity|]. split; [exact Hc'|]. split; [exact Hs'|].
  split; [|congruence].
  rewrite Hev', Hev1, Ha1, Hc1. reflexivity.
Qed.

Lemma prev_restarts_current_witness :
  exists w',
    PlayQueue.prev (ret None) (fun _ => ret None) (fun _ => ret None) base_playing_a_6s
      = Ok (Some track_a) w' /\
    b_current (base w') = Some track_a /\ b_state (base w') = STATE_PLAYING /\
    events w' = events base_playing_a_6s ++
      (if base_active base_playing_a_6s
       then [("playback_end", OPlayer, OTrack track_a)] else []) ++
      [("playback_start", OPlayer, OTrack track_a)] /\
    queue w' = queue base_playing_a_6s.
Proof.
  apply (prev_restarts_current (ret None) (fun _ => ret None) (fun _ => ret None)
           base_playing_a_6s track_a);
    first [reflexivity | vm_compute; discriminate].
Defined.

(** X19: PlayQueue.prev on a playbin engine within the first five seconds of the
    current track, with no current playlist: it plays None, which stops playback
    as stop() does after get_time(), and returns None; if the player was playing
    or paused, current is None afterwards and playback_end is logged. *)
Theorem prev_early_without_playlist (Playlist_get_current : M (option Track))
    (playlist_get_current playlist_prev : Playlist -> M (option Track))
    (w : World) (c : Track) :
  current_playlist (queue w) = None ->
  engine w = EngineBase -> b_current (base w) = Some c ->
  base_position w / SECOND < 5 ->
  exists w1 b w',
    BaseGSTPlayer.get_time w = Ok (base_position w / SECOND) w1 /\
    BaseGSTPlayer.stop w1 = Ok b w' /\
    PlayQueue.prev Playlist_get_current playlist_get_current playlist_prev w
      = Ok None w' /\
    b_state (base w') <> STATE_PLAYING /\ b_state (base w') <> STATE_PAUSED /\
    (b_state (base w) = STATE_PLAYING \/ b_state (base w) = STATE_PAUSED ->
       b_current (base w') = None /\
       events w' = events w ++ [("playback_end", OPlayer, OTrack c)]).
Proof.
  intros Hpl He Hc Ht.
  set (w1 := if bool_decide (b_state (base w) = STATE_PAUSED) then w
             else set_base (BaseGSTPlayer.with_last_position
                              (default 0 (b_query (base w))) (base w)) w).
  assert (H1 : engine w1 = EngineBase /\ b_current (base w1) = Some c /\
               events w1 = events w /\ b_state (base w1) = b_state (base w) /\
               queue w1 = queue w).
  { subst w1. destruct (bool_decide (b_state (base w) = STATE_PAUSED));
      repeat split; assumption. }
  destruct H1 as (He1 & Hc1 & Hev1 & Hs1 & Hq1).
  destruct (BaseGSTPlayer_stop_returns w1) as (b & w' & Hstop & Hn1 & Hn2).
  exists w1, b, w'. split; [apply base_get_time_eq|]. split; [exact Hstop|].
  split; [|split; [exact Hn1|split; [exact Hn2|]]].
  - unfold PlayQueue.prev, PlayQueue.player_current, PlayQueue.player_get_time,
      PlayQueue.player_play.
    repeat (msimpl; rewrite ?He, ?Hc).
    rewrite base_get_time_eq. fold w1. cbv beta iota.
    apply Z.ltb_lt in Ht. rewrite Ht.
    repeat (msimpl; rewrite ?Hq1, ?Hpl, ?He1).
    unfold BaseGSTPlayer.play. rewrite !bind_eq, Hstop. reflexivity.
  - intros Ha. rewrite <- Hs1 in Ha.
    destruct (BaseGSTPlayer_stop_active w1 Ha) as (w2 & Hs2 & Hcur & _ & Hev).
    rewrite Hstop in Hs2. inversion Hs2; subst w2.
    split; [exact Hcur|]. rewrite Hev, Hev1, Hc1. reflexivity.
Qed.

Lemma prev_early_without_playlist_witness :
  exists w1 b w',
    BaseGSTPlayer.get_time base_playing_a
      = Ok (base_position base_playing_a / SECOND) w1 /\
    BaseGSTPlayer.stop w1 = Ok b w' /\
    PlayQueue.prev (ret None) (fun _ => ret None) (fun _ => ret None) base_playing_a
      = Ok None w' /\
    b_state (base w') <> STATE_PLAYING /\ b_state (base w') <> STATE_PAUSED /\
    (b_state (base base_playing_a) = STATE_PLAYING \/
     b_state (base base_playing_a) = STATE_PAUSED ->
       b_current (base w') = None /\
       events w' = events base_playing_a ++ [("playback_end", OPlayer, OTrack track_a)]).
Proof.
  apply (prev_early_without_playlist (ret None) (fun _ => ret None) (fun _ => ret None)
           base_playing_a track_a);
    first [reflexivity | vm_compute; reflexivity].
Defined.

(** X20: PlayQueue.prev on the unified engine within the first five seconds of
    the current track, with no current playlist, stops nothing:
    UnifiedPlayer.play(None) returns at once, so prev returns None and leaves
    the slots, the pipeline and the timers of the engine, the events, the queue
    and the sources of the main loop as they were. *)
Theorem prev_early_unified (Playlist_get_current : M (option Track))
    (playlist_get_current playlist_prev : Playlist -> M (option Track))
    (w : World) (c : Track) (secs : Z) (w1 : World) :
  current_playlist (queue w) = None ->
  engine w = EngineUnified -> UnifiedPlayer._get_current w = Ok (Some c) w ->
  UnifiedPlayer.get_time w = Ok secs w1 -> secs < 5 ->
  PlayQueue.prev Playlist_get_current playlist_get_current playlist_prev w = Ok None w1 /\
  unified w1 = unified w /\ events w1 = events w /\ queue w1 = queue w /\
  sources w1 = sources w.
Proof.
  intros Hpl He Hc Hgt Ht.
  pose proof (unified_get_time_frame w) as Hf. rewrite Hgt in Hf. cbn in Hf.
  destruct Hf as (Hsrc & _ & Hu & Hev & _ & Hq).
  split; [|repeat split; assumption].
  unfold PlayQueue.prev, PlayQueue.player_current, PlayQueue.player_get_time,
    PlayQueue.player_play.
  repeat (msimpl; rewrite ?He). rewrite Hc. cbv beta iota.
  repeat (msimpl; rewrite ?He). rewrite Hgt. cbv beta iota.
  apply Z.ltb_lt in Ht. rewrite Ht.
  repeat (msimpl; rewrite ?Hq, ?Hpl).
  assert (He1 : engine w1 = EngineUnified).
  { pose proof (frame_unified_get_time engine w) as Hfe. rewrite Hgt in Hfe.
    cbn in Hfe. congruence. }
  rewrite He1. reflexivity.
Qed.

Lemma prev_early_unified_witness :
  PlayQueue.prev (ret None) (fun _ => ret None) (fun _ => ret None) unified_playing_a
    = Ok None (world_of (UnifiedPlayer.get_time unified_playing_a)) /\
  unified (world_of (UnifiedPlayer.get_time unified_playing_a)) = unified unified_playing_a /\
  events (world_of (UnifiedPlayer.get_time unified_playing_a)) = events unified_playing_a /\
  queue (world_of (UnifiedPlayer.get_time unified_playing_a)) = queue unified_playing_a /\
  sources (world_of (UnifiedPlayer.get_time unified_playing_a)) = sources unified_playing_a.
Proof.
  apply (prev_early_unified (ret None) (fun _ => ret None) (fun _ => ret None)
           unified_playing_a track_a 0
           (world_of (UnifiedPlayer.get_time unified_playing_a)));
    first [vm_compute; reflexivity].
Defined.

(** ** The mixer graph of the unified engine *)

Lemma graph_ok_obs (w w' : World) :
  graph_obs w' = graph_obs w -> graph_ok w -> graph_ok w'.
Proof.
  unfold graph_obs, graph_ok, slot_streams.
  intros H (H1 & H2 & H3 & H4 & H5 & H6 & H7).
  inversion H as [[E1 E2 E3 E4 E5 E6]]. rewrite E1, E2, E3, E4, E5.
  repeat split; try assumption.
  - intros s Hs. apply elem_of_dom. rewrite E6. apply elem_of_dom. auto.
  - intros s Hs. apply H7. apply elem_of_dom. rewrite <- E6. apply elem_of_dom. exact Hs.
Qed.

Section HoareRules.

Context {A : Type}.

Lemma hoare_ret (P : World -> Prop) (a : A) (Q : A -> World -> Prop) (E : World -> Prop) :
  (forall w, P w -> Q a w) -> hoare P (ret a) Q E.
Proof. intros H w Hw. apply H, Hw. Qed.

Lemma hoare_raise (P : World -> Prop) (e : PyExc) (Q : A -> World -> Prop)
    (E : World -> Prop) :
  (forall w, P w -> E w) -> hoare P (raise e) Q E.
Proof. intros H w Hw. apply H, Hw. Qed.

Lemma hoare_conseq (P P' : World -> Prop) (m : M A) (Q Q' : A -> World -> Prop)
    (E E' : World -> Prop) :
  hoare P m Q E ->
  (forall w, P' w -> P w) -> (forall a w, Q a w -> Q' a w) -> (forall w, E w -> E' w) ->
  hoare P' m Q' E'.
Proof.
  intros H HP HQ HE w Hw. specialize (H w (HP w Hw)).
  destruct (m w); auto.
Qed.

Lemma hoare_bind {B} (P : World -> Prop) (m : M A) (Q : A -> World -> Prop)
    (k : A -> M B) (R : B -> World -> Prop) (E : World -> Prop) :
  hoare P m Q E -> (forall a, hoare (Q a) (k a) R E) -> hoare P (bind m k) R E.
Proof.
  intros Hm Hk w Hw. unfold bind. specialize (Hm w Hw).
  destruct (m w) as [a w'|e w']; [apply Hk, Hm | exact Hm].
Qed.

Lemma hoare_try_except (P : World -> Prop) (m : M A) (Q : A -> World -> Prop)
    (E' : World -> Prop) (h : PyExc -> M A) (E : World -> Prop) :
  hoare P m Q E' -> (forall e, hoare E' (h e) Q E) -> hoare P (try_except m h) Q E.
Proof.
  intros Hm Hh w Hw. unfold try_except. specialize (Hm w Hw).
  destruct (m w) as [a w'|e w']; [exact Hm | apply Hh, Hm].
Qed.

Lemma hoare_gets (P : World -> Prop) (f : World -> A) (E : World -> Prop) :
  hoare P (gets f) (fun a w => P w /\ a = f w) E.
Proof. intros w Hw. split; [exact Hw | reflexivity]. Qed.

(** A computation that leaves [graph_obs] alone keeps whatever is read off
    [graph_obs]. *)
Lemma hoare_preserves (P : World -> Prop) (m : M A) :
  preserves graph_obs m ->
  (forall w w', graph_obs w' = graph_obs w -> P w -> P w') ->
  hoare P m (fun _ => P) P.
Proof.
  intros Hm HP w Hw. specialize (Hm w).
  destruct (m w) as [a w'|e w']; cbn in Hm; eapply HP; eauto.
Qed.

Lemma keeps_preserves (m : M A) : preserves graph_obs m -> keeps m.
Proof. intros Hm. apply hoare_preserves; [exact Hm | apply graph_ok_obs]. Qed.

Lemma keeps_bind {B} (m : M A) (k : A -> M B) :
  keeps m -> (forall a, keeps (k a)) -> keeps (bind m k).
Proof. intros Hm Hk. eapply hoare_bind; [exact Hm | exact Hk]. Qed.

Lemma keeps_try_except (m : M A) (h : PyExc -> M A) :
  keeps m -> (forall e, keeps (h e)) -> keeps (try_except m h).
Proof. intros Hm Hh. eapply hoare_try_except; [exact Hm | exact Hh]. Qed.

Lemma keeps_ret (a : A) : keeps (ret a).
Proof. apply hoare_ret. auto. Qed.

Lemma keeps_world_of (m : M A) (w : World) :
  keeps m -> graph_ok w -> graph_ok (world_of (m w)).
Proof. intros Hm Hw. specialize (Hm w Hw). destruct (m w); exact Hm. Qed.

End HoareRules.

(** ** What leaves the graph alone *)

Create HintDb graph.

Ltac obs_step :=
  lazymatch goal with
  | |- preserves _ (bind _ _) => apply preserves_bind; [| intros ?]
  | |- preserves _ (ret _) => apply preserves_ret
  | |- preserves _ (raise _) => apply preserves_raise
  | |- preserves _ (gets _) => apply preserves_gets
  | |- preserves _ (try_except _ _) => apply preserves_try_except; [| intros ?]
  | |- preserves _ (log_event _ _ _) => apply preserves_modify; intros ?; reflexivity
  | |- preserves _ (modify _) => apply preserves_modify; intros ?; reflexivity
  | |- preserves _ (match ?x with _ => _ end) => destruct x
  | |- preserves _ (let _ := _ in _) => cbv zeta
  | |- _ => solve [eauto with graph]
  end.

Ltac obs := repeat obs_step.

Lemma obs_add_source i cb : preserves graph_obs (gobject.add_source i cb).
Proof. intros w; reflexivity. Qed.

Lemma obs_idle_add cb : preserves graph_obs (gobject.idle_add cb).
Proof. apply obs_add_source. Qed.

Lemma obs_timeout_add i cb : preserves graph_obs (gobject.timeout_add i cb).
Proof. apply obs_add_source. Qed.

Lemma obs_source_remove id : preserves graph_obs (gobject.source_remove id).
Proof. unfold gobject.source_remove; obs. Qed.

Lemma obs_stream_self sid : preserves graph_obs (AudioStream.self sid).
Proof. intros w; unfold AudioStream.self; destruct (heap w !! sid); reflexivity. Qed.

Lemma obs_stream_update sid g : preserves graph_obs (AudioStream.update sid g).
Proof.
  intros w. unfold AudioStream.update, modify, graph_obs. cbn.
  rewrite dom_alter_L. reflexivity.
Qed.

#[global] Hint Resolve obs_add_source obs_idle_add obs_timeout_add obs_source_remove
  obs_stream_self obs_stream_update : graph.

Lemma obs_stream_set_volume sid v : preserves graph_obs (AudioStream.set_volume sid v).
Proof. unfold AudioStream.set_volume; obs. Qed.

Lemma obs_stream_get_volume sid : preserves graph_obs (AudioStream.get_volume sid).
Proof. unfold AudioStream.get_volume; obs. Qed.

Lemma obs_stream_reset_playtime_stamp sid :
  preserves graph_obs (AudioStream.reset_playtime_stamp sid).
Proof. unfold AudioStream.reset_playtime_stamp; obs. Qed.

Lemma obs_credit_playtime t stamp : preserves graph_obs (AudioStream.credit_playtime t stamp).
Proof. unfold AudioStream.credit_playtime; obs. Qed.

#[global] Hint Resolve obs_stream_set_volume obs_stream_get_volume
  obs_stream_reset_playtime_stamp obs_credit_playtime : graph.

Lemma obs_stream_update_playtime sid : preserves graph_obs (AudioStream.update_playtime sid).
Proof. unfold AudioStream.update_playtime; obs. Qed.

Lemma obs_stream_set_track sid t : preserves graph_obs (AudioStream.set_track sid t).
Proof. unfold AudioStream.set_track; obs. Qed.

Lemma obs_stream_get_gst_state sid : preserves graph_obs (AudioStream._get_gst_state sid).
Proof. unfold AudioStream._get_gst_state; obs. Qed.

#[global] Hint Resolve obs_stream_update_playtime obs_stream_set_track
  obs_stream_get_gst_state : graph.

Lemma obs_stream_is_playing sid : preserves graph_obs (AudioStream.is_playing sid).
Proof. unfold AudioStream.is_playing; obs. Qed.

Lemma obs_stream_is_paused sid : preserves graph_obs (AudioStream.is_paused sid).
Proof. unfold AudioStream.is_paused; obs. Qed.

#[global] Hint Resolve obs_stream_is_playing obs_stream_is_paused : graph.

Lemma obs_stream_get_current sid : preserves graph_obs (AudioStream.get_current sid).
Proof. unfold AudioStream.get_current; obs. Qed.

Lemma obs_stream_get_position sid : preserves graph_obs (AudioStream.get_position sid).
Proof. unfold AudioStream.get_position; obs. Qed.

Lemma obs_stream_set_state sid st : preserves graph_obs (AudioStream.set_state sid st).
Proof.
  unfold AudioStream.set_state, AudioStream._settle_state, AudioStream.bin_set_state; obs.
Qed.

#[global] Hint Resolve obs_stream_get_current obs_stream_get_position
  obs_stream_set_state : graph.

Lemma obs_settle_state_sub sid : preserves graph_obs (AudioStream._settle_state_sub sid).
Proof. unfold AudioStream._settle_state_sub; obs. Qed.

Lemma obs_base_update g : preserves graph_obs (BaseGSTPlayer.update g).
Proof. intros w; reflexivity. Qed.

#[global] Hint Resolve obs_settle_state_sub obs_base_update : graph.

Lemma obs_base_stop : preserves graph_obs BaseGSTPlayer.stop.
Proof.
  unfold BaseGSTPlayer.stop, BaseGSTPlayer.is_playing, BaseGSTPlayer.is_paused,
    BaseGSTPlayer._get_gst_state, BaseGSTPlayer.update_playtime; obs.
Qed.

#[global] Hint Resolve obs_base_stop : graph.

Lemma obs_base_play t : preserves graph_obs (BaseGSTPlayer.play t).
Proof.
  unfold BaseGSTPlayer.play, BaseGSTPlayer.reset_playtime_stamp,
    BaseGSTPlayer._get_track_uri; obs.
Qed.

Lemma dom_foldr_alter (f : AudioStream -> AudioStream) (h : gmap nat AudioStream)
    (l : list nat) :
  dom (foldr (alter f) h l) = dom h.
Proof.
  induction l as [|x r IH]; cbn [foldr]; [reflexivity|].
  rewrite dom_alter_L. exact IH.
Qed.

Lemma obs_pipe_set_state st : preserves graph_obs (UnifiedPlayer.pipe_set_state st).
Proof.
  intros w. unfold UnifiedPlayer.pipe_set_state, modify, graph_obs.
  cbn [world_of heap set_heap unified set_unified next_stream_id u_streams
       u_current_stream u_adder u_pipe UnifiedPlayer.with_pipe_state].
  rewrite dom_foldr_alter. reflexivity.
Qed.

Lemma obs_slot i : preserves graph_obs (UnifiedPlayer.slot i).
Proof.
  intros w; unfold UnifiedPlayer.slot.
  destruct (u_streams (unified w) !! i); reflexivity.
Qed.

Lemma obs_unified_with_pipe_state st :
  preserves graph_obs (UnifiedPlayer.update (UnifiedPlayer.with_pipe_state st)).
Proof. intros w; reflexivity. Qed.

Lemma obs_unified_with_timer_id id :
  preserves graph_obs (UnifiedPlayer.update (UnifiedPlayer.with_timer_id id)).
Proof. intros w; reflexivity. Qed.

Lemma obs_unified_with_gobject_timer_id id :
  preserves graph_obs (UnifiedPlayer.update (UnifiedPlayer.with_gobject_timer_id id)).
Proof. intros w; reflexivity. Qed.

#[global] Hint Resolve obs_base_play obs_pipe_set_state obs_slot
  obs_unified_with_pipe_state obs_unified_with_timer_id
  obs_unified_with_gobject_timer_id : graph.

Lemma obs_on_slot {A} i (g : nat -> M A) :
  (forall sid, preserves graph_obs (g sid)) ->
  preserves graph_obs (UnifiedPlayer.on_slot i g).
Proof. intros H; unfold UnifiedPlayer.on_slot; obs. Qed.

Lemma obs_unified_get_current : preserves graph_obs UnifiedPlayer._get_current.
Proof. unfold UnifiedPlayer._get_current; obs. Qed.

Lemma obs_unified_is_playing : preserves graph_obs UnifiedPlayer.is_playing.
Proof. unfold UnifiedPlayer.is_playing, UnifiedPlayer._get_gst_state; obs. Qed.

Lemma obs_unified_is_paused : preserves graph_obs UnifiedPlayer.is_paused.
Proof. unfold UnifiedPlayer.is_paused, UnifiedPlayer._get_gst_state; obs. Qed.

Lemma obs_unified_get_position : preserves graph_obs UnifiedPlayer.get_position.
Proof.
  unfold UnifiedPlayer.get_position; obs.
  apply obs_on_slot; intros; obs.
Qed.

#[global] Hint Resolve obs_unified_get_current obs_unified_is_playing
  obs_unified_is_paused obs_unified_get_position : graph.

Lemma obs_unified_get_time : preserves graph_obs UnifiedPlayer.get_time.
Proof. unfold UnifiedPlayer.get_time; obs. Qed.

#[global] Hint Resolve obs_unified_get_time : graph.

Lemma obs_reset_crossfade_timer : preserves graph_obs UnifiedPlayer._reset_crossfade_timer.
Proof. unfold UnifiedPlayer._reset_crossfade_timer; obs. Qed.

#[global] Hint Resolve obs_reset_crossfade_timer : graph.

Lemma obs_unified_pause : preserves graph_obs UnifiedPlayer.pause.
Proof. unfold UnifiedPlayer.pause; obs. Qed.

Lemma obs_unified_unpause : preserves graph_obs UnifiedPlayer.unpause.
Proof. unfold UnifiedPlayer.unpause; obs. Qed.

#[global] Hint Resolve obs_unified_pause obs_unified_unpause : graph.

Lemma obs_unified_toggle_pause : preserves graph_obs UnifiedPlayer.toggle_pause.
Proof. unfold UnifiedPlayer.toggle_pause; obs. Qed.

Lemma obs_unified_set_state st : preserves graph_obs (UnifiedPlayer._set_state st).
Proof. unfold UnifiedPlayer._set_state; obs. Qed.

Lemma obs_take_track : preserves graph_obs PlayQueue.take_track.
Proof. unfold PlayQueue.take_track, PlayQueue.update; obs. Qed.

Lemma obs_player_current : preserves graph_obs PlayQueue.player_current.
Proof. unfold PlayQueue.player_current; obs. Qed.

Lemma obs_elapse ms : preserves graph_obs (MainLoop.elapse ms).
Proof.
  intros w. unfold MainLoop.elapse, modify, graph_obs. cbn.
  rewrite dom_fmap_L. reflexivity.
Qed.

#[global] Hint Resolve obs_unified_toggle_pause obs_unified_set_state obs_take_track
  obs_player_current obs_elapse : graph.

Lemma filter_ne_absent (sid : nat) (l : list nat) :
  sid ∉ l -> filter (fun x => x ≠ sid) l = l.
Proof.
  induction l as [|x r IH]; intros H; [reflexivity|].
  apply not_elem_of_cons in H as [Hne Hr].
  rewrite filter_cons_True by congruence. rewrite (IH Hr). reflexivity.
Qed.

Lemma clear_first_absent (sid : nat) (l : list (option nat)) :
  sid ∉ omap id l -> UnifiedPlayer.clear_first sid l = l.
Proof.
  induction l as [|x r IH]; intros H; [reflexivity|]. cbn [UnifiedPlayer.clear_first].
  destruct x as [y|].
  - change (omap id (Some y :: r)) with (y :: omap id r) in H.
    apply not_elem_of_cons in H as [Hne Hr].
    rewrite bool_decide_eq_false_2 by congruence. rewrite (IH Hr). reflexivity.
  - change (omap id (None :: r)) with (omap id r) in H.
    rewrite bool_decide_eq_false_2 by discriminate. rewrite (IH H). reflexivity.
Qed.

Lemma omap_clear_first (sid : nat) (l : list (option nat)) :
  NoDup (omap id l) ->
  omap id (UnifiedPlayer.clear_first sid l) = filter (fun x => x ≠ sid) (omap id l).
Proof.
  induction l as [|x r IH]; intros H; [reflexivity|]. cbn [UnifiedPlayer.clear_first].
  destruct x as [y|].
  - change (omap id (Some y :: r)) with (y :: omap id r) in H |- *.
    apply NoDup_cons in H as [Hy Hr].
    destruct (decide (y = sid)) as [->|Hne].
    + rewrite bool_decide_eq_true_2 by reflexivity.
      change (omap id (None :: r)) with (omap id r).
      rewrite filter_cons_False by (intros Hc; apply Hc; reflexivity).
      rewrite (filter_ne_absent sid _ Hy). reflexivity.
    + rewrite bool_decide_eq_false_2 by congruence.
      change (omap id (Some y :: UnifiedPlayer.clear_first sid r))
        with (y :: omap id (UnifiedPlayer.clear_first sid r)).
      rewrite filter_cons_True by exact Hne. rewrite (IH Hr). reflexivity.
  - change (omap id (None :: r)) with (omap id r) in H |- *.
    rewrite bool_decide_eq_false_2 by discriminate.
    change (omap id (None :: UnifiedPlayer.clear_first sid r))
      with (omap id (UnifiedPlayer.clear_first sid r)).
    apply IH, H.
Qed.

Lemma slot_stream_elem (l : list (option nat)) (i s : nat) :
  l !! i = Some (Some s) -> s ∈ omap id l.
Proof.
  intros H. apply list_elem_of_omap. exists (Some s). split; [|reflexivity].
  eapply list_elem_of_lookup_2, H.
Qed.

(** [unlink_stream] on a graph of the right shape. *)
Lemma unlink_stream_graph (s : option nat) (w : World) :
  graph_ok w ->
  exists b w',
    UnifiedPlayer.unlink_stream s w = Ok b w' /\ graph_ok w' /\
    u_current_stream (unified w') = u_current_stream (unified w) /\
    u_pipe_state (unified w') = u_pipe_state (unified w) /\
    u_timer_id (unified w') = u_timer_id (unified w) /\
    heap w' = heap w /\ next_stream_id w' = next_stream_id w /\
    events w' = events w /\ settings w' = settings w /\ queue w' = queue w /\
    engine w' = engine w /\
    (b = true <-> forall sid, s = Some sid -> sid ∈ u_pipe (unified w)) /\
    (forall i, u_streams (unified w') !! i = u_streams (unified w) !! i \/
               (u_streams (unified w') !! i = Some None /\
                u_streams (unified w) !! i = Some s /\ is_Some s)) /\
    (forall sid i, s = Some sid -> u_streams (unified w') !! i <> Some (Some sid)).
Proof.
  intros Hok. pose proof Hok as (H1 & H2 & H3 & H4 & H5 & H6 & H7).
  destruct s as [sid|].
  2:{ exists true, w. split; [reflexivity|]. split; [exact Hok|].
      do 9 (split; [reflexivity|]).
      split; [split; [discriminate | reflexivity]|].
      split; [intros i; left; reflexivity | discriminate]. }
  unfold slot_streams in H4.
  cbv [UnifiedPlayer.unlink_stream try_except bind UnifiedPlayer.update modify
       gobject.idle_add gobject.add_source gets ret raise].
  cbn [unified set_unified set_sources set_next_source_id u_pipe
       UnifiedPlayer.with_adder UnifiedPlayer.with_pipe].
  destruct (bool_decide (sid ∈ u_pipe (unified w))) eqn:Hin.
  - apply bool_decide_eq_true_1 in Hin.
    eexists true, _. split; [reflexivity|].
    assert (Hnd : NoDup (omap id (u_streams (unified w)))) by (rewrite <- H4; exact H5).
    assert (Hperm : filter (fun x => x ≠ sid) (u_pipe (unified w))
                    ≡ₚ omap id (UnifiedPlayer.clear_first sid (u_streams (unified w)))).
    { rewrite omap_clear_first by exact Hnd. rewrite H4. reflexivity. }
    split.
    { unfold graph_ok, slot_streams. cbn. repeat split.
      - rewrite clear_first_length. exact H1.
      - exact H2.
      - rewrite H3. reflexivity.
      - exact Hperm.
      - apply NoDup_filter, H5.
      - intros x Hx. apply list_elem_of_filter in Hx as [_ Hx]. auto.
      - exact H7. }
    do 9 (split; [reflexivity|]).
    split; [split; [intros _ x Hx; inversion Hx; subst; exact Hin | reflexivity]|].
    split.
    + intros i. cbn.
      destruct (clear_first_lookup sid (u_streams (unified w)) i) as [E|[E1 E2]];
        [left; exact E | right; repeat split; eauto].
    + intros x i Hx Hi. inversion Hx; subst x. cbn in Hi.
      apply slot_stream_elem in Hi. rewrite <- Hperm in Hi.
      apply list_elem_of_filter in Hi as [Hne _]. apply Hne. reflexivity.
  - apply bool_decide_eq_false_1 in Hin.
    eexists false, _. split; [reflexivity|].
    split.
    { unfold graph_ok, slot_streams. cbn.
      rewrite H3, (filter_ne_absent sid _ Hin). repeat split; assumption. }
    do 9 (split; [reflexivity|]).
    split; [split; [discriminate | intros H; exfalso; apply Hin, H; reflexivity]|].
    split.
    + intros i. left. reflexivity.
    + intros x i Hx Hi. inversion Hx; subst x. cbn in Hi.
      apply slot_stream_elem in Hi. rewrite <- H4 in Hi. contradiction.
Qed.

Lemma keeps_unlink_stream (s : option nat) : keeps (UnifiedPlayer.unlink_stream s).
Proof.
  intros w Hw. destruct (unlink_stream_graph s w Hw) as (b & w' & -> & Hok & _). exact Hok.
Qed.

Lemma keeps_unlink_each (idxs : list nat) : keeps (UnifiedPlayer.unlink_each idxs).
Proof.
  induction idxs as [|i r IH]; cbn [UnifiedPlayer.unlink_each].
  - apply keeps_ret.
  - apply keeps_bind; [apply keeps_preserves; obs|].
    intros [s|]; [|apply keeps_ret].
    apply keeps_bind; [apply keeps_unlink_stream | intros _; exact IH].
Qed.

(** The current track can be read off a graph of the right shape. *)
Lemma get_current_graph (w : World) :
  graph_ok w -> exists cur, UnifiedPlayer._get_current w = Ok cur w.
Proof.
  intros (H1 & H2 & H3 & H4 & H5 & H6 & H7). rewrite unified_get_current_eq.
  destruct (u_streams (unified w) !! u_current_stream (unified w)) as [[sid|]|] eqn:E.
  - assert (Hin : sid ∈ u_pipe (unified w)).
    { rewrite H4. eapply slot_stream_elem, E. }
    destruct (H6 sid Hin) as [s ->]. eauto.
  - eauto.
  - apply lookup_ge_None in E. lia.
Qed.

Lemma two_slots (l : list (option nat)) :
  length l = 2%nat -> l !! 0%nat = Some None -> l !! 1%nat = Some None -> l = [None; None].
Proof.
  destruct l as [|a [|b [|c r]]]; try discriminate. cbn. congruence.
Qed.

Lemma slot_defined (w : World) (i : nat) :
  graph_ok w -> (i < 2)%nat -> exists s, u_streams (unified w) !! i = Some s.
Proof.
  intros (H1 & _) Hi.
  destruct (u_streams (unified w) !! i) eqn:E; [eauto|].
  apply lookup_ge_None in E. lia.
Qed.

(** Unlinking what slot [i] holds empties it and leaves the emptied slots
    empty. *)
Lemma unlink_slot_graph (w : World) (i : nat) (s : option nat) :
  graph_ok w -> u_streams (unified w) !! i = Some s ->
  exists b w',
    UnifiedPlayer.unlink_stream s w = Ok b w' /\ graph_ok w' /\
    u_streams (unified w') !! i = Some None /\
    (forall j, u_streams (unified w) !! j = Some None ->
               u_streams (unified w') !! j = Some None) /\
    (forall j, u_streams (unified w') !! j = u_streams (unified w) !! j \/
               u_streams (unified w') !! j = Some None) /\
    u_current_stream (unified w') = u_current_stream (unified w) /\
    u_pipe_state (unified w') = u_pipe_state (unified w) /\
    u_timer_id (unified w') = u_timer_id (unified w) /\
    heap w' = heap w /\ next_stream_id w' = next_stream_id w /\
    events w' = events w /\ settings w' = settings w /\ queue w' = queue w /\
    engine w' = engine w.
Proof.
  intros Hok Hi.
  destruct (unlink_stream_graph s w Hok)
    as (b & w' & E & Hok' & Hcs & Hps & Htid & Hh & Hn & Hev & Hst & Hq & He & _ & Hrel & Hno).
  exists b, w'. split; [exact E|]. split; [exact Hok'|].
  split; [|split; [|split; [|repeat split; assumption]]].
  - destruct (Hrel i) as [Hsame|[Hnone _]]; [|exact Hnone].
    rewrite Hsame, Hi. destruct s as [sid|]; [|reflexivity].
    exfalso. apply (Hno sid i eq_refl). rewrite Hsame. exact Hi.
  - intros j Hj. destruct (Hrel j) as [Hsame|[Hnone _]]; congruence.
  - intros j. destruct (Hrel j) as [Hsame|[Hnone _]]; [left|right]; assumption.
Qed.

Lemma unified_stop_eq (w : World) :
  UnifiedPlayer.stop w =
    if unified_active w then
      (current <- UnifiedPlayer._get_current;;
       UnifiedPlayer.pipe_set_state STATE_NULL;;
       n <- gets (fun w => length (u_streams (unified w)));;
       UnifiedPlayer.unlink_each (seq 0 n);;
       UnifiedPlayer._reset_crossfade_timer;;
       log_event "playback_end" OPlayer (obj_of_track current);;
       ret true) w
    else Ok false w.
Proof.
  unfold UnifiedPlayer.stop, unified_active.
  rewrite bind_eq, unified_is_playing_eq. cbv beta iota. rewrite bind_eq.
  destruct (bool_decide (u_pipe_state (unified w) = STATE_PLAYING)); [reflexivity|].
  rewrite unified_is_paused_eq.
  destruct (bool_decide (u_pipe_state (unified w) = STATE_PAUSED)); reflexivity.
Qed.

(** [stop] on a graph of the right shape. *)
Lemma stop_graph (w : World) :
  graph_ok w ->
  exists cur w',
    UnifiedPlayer._get_current w = Ok cur w /\
    UnifiedPlayer.stop w = Ok (unified_active w) w' /\ graph_ok w' /\
    u_current_stream (unified w') = u_current_stream (unified w) /\
    next_stream_id w' = next_stream_id w /\ settings w' = settings w /\
    queue w' = queue w /\ engine w' = engine w /\
    if unified_active w then
      u_streams (unified w') = [None; None] /\ u_pipe (unified w') = [] /\
      u_adder (unified w') = [] /\
      u_pipe_state (unified w') = STATE_NULL /\
      events w' = events w ++ [("playback_end", OPlayer, obj_of_track cur)]
    else w' = w.
Proof.
  intros Hok. destruct (get_current_graph w Hok) as (cur & Hcur).
  exists cur. rewrite unified_stop_eq.
  destruct (unified_active w) eqn:Ha.
  2:{ exists w. split; [exact Hcur|]. split; [reflexivity|]. split; [exact Hok|].
      repeat split; reflexivity. }
  rewrite bind_eq, Hcur. cbv beta iota. rewrite bind_eq.
  set (w1 := world_of (UnifiedPlayer.pipe_set_state STATE_NULL w)).
  change (UnifiedPlayer.pipe_set_state STATE_NULL w) with (Ok tt w1).
  cbv beta iota.
  assert (Hobs1 : graph_obs w1 = graph_obs w) by apply obs_pipe_set_state.
  assert (Hok1 : graph_ok w1) by (eapply graph_ok_obs; eauto).
  assert (Hps1 : u_pipe_state (unified w1) = STATE_NULL) by reflexivity.
  assert (Hev1 : events w1 = events w) by reflexivity.
  assert (Hst1 : settings w1 = settings w) by reflexivity.
  assert (Hq1 : queue w1 = queue w) by reflexivity.
  assert (He1 : engine w1 = engine w) by reflexivity.
  assert (Hcs1 : u_current_stream (unified w1) = u_current_stream (unified w)) by reflexivity.
  assert (Hn1 : next_stream_id w1 = next_stream_id w) by reflexivity.
  clearbody w1.
  rewrite bind_eq, gets_eq. cbv beta iota.
  pose proof Hok1 as (Hlen & _). rewrite Hlen.
  cbn [seq UnifiedPlayer.unlink_each].
  destruct (slot_defined w1 0 Hok1 ltac:(lia)) as (s0 & Hs0).
  rewrite !bind_eq, gets_eq. cbv beta iota. rewrite Hs0.
  destruct (unlink_slot_graph w1 0 s0 Hok1 Hs0)
    as (b2 & w2 & E2 & Hok2 & Hz2 & Hkeep2 & _ & Hcs2 & Hps2 & Htid2 & _ & Hn2 & Hev2
        & Hst2 & Hq2 & He2).
  rewrite !bind_eq, E2. cbv beta iota.
  destruct (slot_defined w2 1 Hok2 ltac:(lia)) as (s1 & Hs1).
  rewrite !bind_eq, gets_eq. cbv beta iota. rewrite Hs1.
  destruct (unlink_slot_graph w2 1 s1 Hok2 Hs1)
    as (b3 & w3 & E3 & Hok3 & Hz3 & Hkeep3 & _ & Hcs3 & Hps3 & Htid3 & _ & Hn3 & Hev3
        & Hst3 & Hq3 & He3).
  rewrite !bind_eq, E3. cbv beta iota.
  change (ret tt w3) with (Ok tt w3). cbv beta iota. rewrite bind_eq.
  assert (Hslots : u_streams (unified w3) = [None; None]).
  { pose proof Hok3 as (Hlen3 & _). apply two_slots; auto. }
  assert (Hpipe : u_pipe (unified w3) = []).
  { pose proof Hok3 as (_ & _ & _ & Hp & _). unfold slot_streams in Hp.
    rewrite Hslots in Hp. cbn in Hp. apply Permutation_nil_r in Hp. exact Hp. }
  assert (Hadder : u_adder (unified w3) = []).
  { pose proof Hok3 as (_ & _ & Ha3 & _). congruence. }
  rewrite reset_crossfade_timer_not_playing by congruence.
  cbv beta iota.
  destruct (u_timer_id (unified w3) =? 0).
  - eexists. split; [reflexivity|]. split; [reflexivity|].
    split; [eapply graph_ok_obs; [|exact Hok3]; reflexivity|].
    cbn. repeat split; try congruence.
  - eexists. split; [reflexivity|]. split; [reflexivity|].
    split; [eapply graph_ok_obs; [|exact Hok3]; reflexivity|].
    cbn. repeat split; try congruence.
Qed.

Lemma keeps_unified_stop : keeps UnifiedPlayer.stop.
Proof.
  intros w Hw. destruct (stop_graph w Hw) as (cur & w' & _ & -> & Hok & _). exact Hok.
Qed.

Lemma omap_fill_slot (l : list (option nat)) (i x : nat) :
  l !! i = Some None -> omap id (<[i := Some x]> l) ≡ₚ x :: omap id l.
Proof.
  revert i. induction l as [|a r IH]; intros i Hi; [discriminate|].
  destruct i as [|i].
  - cbn in Hi. inversion Hi; subst a. reflexivity.
  - cbn in Hi. change (<[S i := Some x]> (a :: r)) with (a :: <[i := Some x]> r).
    destruct a as [y|].
    + change (omap id (Some y :: <[i := Some x]> r)) with (y :: omap id (<[i := Some x]> r)).
      change (omap id (Some y :: r)) with (y :: omap id r).
      rewrite (IH i Hi). apply Permutation_swap.
    + change (omap id (None :: <[i := Some x]> r)) with (omap id (<[i := Some x]> r)).
      change (omap id (None :: r)) with (omap id r). apply IH, Hi.
Qed.

Lemma attached_graph (next : nat) (name : string) (w : World) :
  graph_ok w -> u_streams (unified w) !! next = Some None -> graph_ok (attached next name w).
Proof.
  intros (H1 & H2 & H3 & H4 & H5 & H6 & H7) Hn.
  unfold graph_ok, slot_streams, attached in *. cbn.
  assert (Hfresh : next_stream_id w ∉ u_pipe (unified w)).
  { intros Hin. specialize (H7 _ (H6 _ Hin)). lia. }
  repeat split.
  - rewrite length_insert. exact H1.
  - exact H2.
  - rewrite H3. reflexivity.
  - rewrite (omap_fill_slot _ _ _ Hn), <- H4. symmetry. apply Permutation_cons_append.
  - apply NoDup_app. split; [exact H5|]. split; [|apply NoDup_singleton].
    intros x Hx Hx'. apply list_elem_of_singleton in Hx'. subst x. contradiction.
  - intros s Hs. apply elem_of_app in Hs as [Hs|Hs].
    + destruct (decide (s = next_stream_id w)) as [->|Hne].
      * rewrite lookup_insert_eq. eauto.
      * rewrite lookup_insert_ne by congruence. auto.
    + apply list_elem_of_singleton in Hs. subst s. rewrite lookup_insert_eq. eauto.
  - intros s Hs. destruct (decide (s = next_stream_id w)) as [->|Hne]; [lia|].
    rewrite lookup_insert_ne in Hs by congruence. specialize (H7 s Hs). lia.
Qed.

(** The state of the pipeline reaches the streams added to it and nothing
    else of them. *)
Lemma lookup_pipe_state (st : GstState) (h : gmap nat AudioStream) (l : list nat)
    (sid : nat) (s : AudioStream) :
  h !! sid = Some s ->
  exists s',
    foldr (alter (AudioStream.with_state st)) h l !! sid = Some s' /\
    as_track s' = as_track s /\ as_volume s' = as_volume s /\
    as_state s' = (if bool_decide (sid ∈ l) then st else as_state s).
Proof.
  intros Hs. induction l as [|x r (s' & E & Ht & Hv & Hst)]; cbn [foldr].
  - exists s. rewrite bool_decide_eq_false_2 by apply not_elem_of_nil. auto.
  - destruct (decide (x = sid)) as [->|Hne].
    + rewrite lookup_alter_eq, E. eexists. split; [reflexivity|]. cbn.
      rewrite bool_decide_eq_true_2 by apply list_elem_of_here. auto.
    + rewrite lookup_alter_ne by exact Hne. exists s'. split; [exact E|].
      split; [exact Ht|]. split; [exact Hv|]. rewrite Hst.
      destruct (decide (sid ∈ r)) as [Hin|Hout].
      * rewrite !bool_decide_eq_true_2; auto. apply list_elem_of_further, Hin.
      * rewrite !bool_decide_eq_false_2; auto.
        intros Hc. apply elem_of_cons in Hc as [Hc|Hc]; congruence.
Qed.

Lemma link_stream_eq (sid : nat) (track : option Track) (w : World) :
  UnifiedPlayer.link_stream sid track w =
    (ok <- AudioStream.set_track sid track;;
     if negb ok then UnifiedPlayer.stop;; ret false else ret true)
      (set_unified
         (UnifiedPlayer.with_adder (u_adder (unified w) ++ [sid])
            (UnifiedPlayer.with_pipe (u_pipe (unified w) ++ [sid]) (unified w))) w).
Proof. reflexivity. Qed.

(** Idle calls of [set_state(NULL)] are no fade timers. *)
Lemma fade_timers_idle (w w' : World) (extra : list Source) :
  sources w' = sources w ++ extra -> Forall idle_set_state_null extra ->
  fade_timers w' = fade_timers w.
Proof.
  intros Hs Hidle. unfold fade_timers. rewrite Hs, filter_app. clear Hs.
  replace (filter _ extra) with (@nil Source); [rewrite app_nil_r; reflexivity|].
  symmetry. induction Hidle as [|x r [_ (sid & Hcb)] _ IH]; [reflexivity|].
  rewrite filter_cons_False; [exact IH|]. rewrite Hcb. cbn. discriminate.
Qed.

Lemma unlink_stream_fades (s : option nat) (w : World) :
  fade_timers (world_of (UnifiedPlayer.unlink_stream s w)) = fade_timers w.
Proof.
  destruct (unlink_stream_idle s w) as (extra & Hs & Hidle).
  exact (fade_timers_idle _ _ extra Hs Hidle).
Qed.

(** What [play] does once the track is bound to the new stream. *)
Lemma play_tail (wG : World) (t : Track) (fading : bool) (duration : Z) (st : Settings)
    (next cs sid : nat) (s : AudioStream) (sc : option nat) :
  u_streams (unified wG) !! next = Some (Some sid) ->
  u_streams (unified wG) !! cs = Some sc ->
  heap wG !! sid = Some s -> sid ∈ u_pipe (unified wG) ->
  exists w',
    ((if fading then UnifiedPlayer.on_slot next (fun s => AudioStream.set_volume s 0%float)
      else ret tt);;
     UnifiedPlayer.pipe_set_state STATE_PLAYING;;
     UnifiedPlayer.on_slot next (fun s => AudioStream.update s (AudioStream.with_settle_flag 1));;
     UnifiedPlayer.on_slot next (fun s => gobject.idle_add (CbStreamSetState s STATE_PLAYING));;
     gobject.idle_add (CbSetStatePipe STATE_PLAYING);;
     (if fading then
        let timeout := Z.quot duration 100 in
        sn <- UnifiedPlayer.slot next;;
        (match sn with
         | Some s => gobject.timeout_add timeout (CbFadeStream s 1 false);; ret tt
         | None => ret tt
         end);;
        sc <- UnifiedPlayer.slot cs;;
        (match sc with
         | Some s => gobject.timeout_add timeout (CbFadeStream s (-1) true);; ret tt
         | None => ret tt
         end);;
        if crossfading st then
          let time := duration_ms t - duration in
          id <- gobject.timeout_add time CbStartCrossfade;;
          UnifiedPlayer.update (UnifiedPlayer.with_gobject_timer_id id)
        else ret tt
      else ret tt);;
     UnifiedPlayer.update (UnifiedPlayer.with_current_stream next);;
     log_event "playback_start" OPlayer (OTrack t);;
     ret (Some true)) wG = Ok (Some true) w' /\
    u_streams (unified w') = u_streams (unified wG) /\
    u_current_stream (unified w') = next /\
    u_adder (unified w') = u_adder (unified wG) /\
    u_pipe (unified w') = u_pipe (unified wG) /\
    next_stream_id w' = next_stream_id wG /\
    dom (heap w') = dom (heap wG) /\
    settings w' = settings wG /\ queue w' = queue wG /\ engine w' = engine wG /\
    u_pipe_state (unified w') = STATE_PLAYING /\
    events w' = events wG ++ [("playback_start", OPlayer, OTrack t)] /\
    fade_timers w' = fade_timers wG ++
      (if fading then
         (Some (Z.quot duration 100), CbFadeStream sid 1 false)
           :: match sc with
              | Some c => [(Some (Z.quot duration 100), CbFadeStream c (-1) true)]
              | None => []
              end
       else []) /\
    exists s', heap w' !! sid = Some s' /\ as_track s' = as_track s /\
               as_state s' = STATE_PLAYING /\
               as_volume s' = (if fading then 0%float else as_volume s).
Proof.
  intros Hnext Hcs Hs Hin.
  destruct wG as [now0 ev0 pt0 st0 src0 nsrc0 h0 nsid0 e0 b0 u0 sink0 q0].
  destruct u0 as [cs0 tid0 gtid0 l0 ps0 pipe0 adder0].
  cbn [unified u_streams u_pipe heap] in Hnext, Hcs, Hs, Hin.
  cbn [unified u_streams u_current_stream u_adder u_pipe u_pipe_state next_stream_id
       heap settings queue engine events].
  destruct fading; [destruct (crossfading st); destruct sc as [c|]|];
    cbv [UnifiedPlayer.on_slot UnifiedPlayer.slot bind gets ret modify raise
         AudioStream.set_volume AudioStream.update UnifiedPlayer.pipe_set_state
         gobject.idle_add gobject.timeout_add gobject.add_source UnifiedPlayer.update
         log_event
         unified u_streams u_current_stream u_adder u_pipe u_pipe_state u_timer_id
         u_gobject_timer_id next_stream_id heap settings queue engine events sources
         next_source_id now playtime base audio_sink
         set_heap set_unified set_sources set_events set_next_source_id
         UnifiedPlayer.with_pipe_state UnifiedPlayer.with_gobject_timer_id
         UnifiedPlayer.with_current_stream];
    repeat (first [rewrite Hnext | rewrite Hcs]; cbv beta iota);
    (eexists; split; [reflexivity|]);
    (do 5 (split; [reflexivity|]));
    (split; [rewrite dom_alter_L, dom_foldr_alter, ?dom_alter_L; reflexivity|]);
    (do 5 (split; [reflexivity|]));
    (split; [unfold fade_timers; cbn [sources];
             rewrite ?filter_app, ?map_app; cbn; rewrite ?app_nil_r, <- ?app_assoc;
             reflexivity|]).
  all: rewrite lookup_alter_eq.
  1-4: destruct (lookup_pipe_state STATE_PLAYING
                   (alter (AudioStream.with_volume 0) sid h0) pipe0 sid
                   (AudioStream.with_volume 0 s))
         as (s' & E & Ht & Hv & Hst);
       [rewrite lookup_alter_eq, Hs; reflexivity|];
       rewrite E; eexists; (split; [reflexivity|]); cbn;
       rewrite Ht, Hv, Hst, bool_decide_eq_true_2 by exact Hin; auto.
  destruct (lookup_pipe_state STATE_PLAYING h0 pipe0 sid s Hs)
    as (s' & E & Ht & Hv & Hst).
  rewrite E; eexists; (split; [reflexivity|]); cbn.
  rewrite Ht, Hv, Hst, bool_decide_eq_true_2 by exact Hin; auto.
Qed.

(** [play] with a track, on a graph of the right shape. *)
Lemma play_graph (w : World) (t : Track) (user : bool) :
  graph_ok w ->
  let sid := next_stream_id w in
  let next := (1 - u_current_stream (unified w))%nat in
  exists w',
    UnifiedPlayer.play (Some t) user w
      = Ok (Some (negb (is_local t && negb (file_exists t)))) w' /\
    graph_ok w' /\
    settings w' = settings w /\ queue w' = queue w /\ engine w' = engine w /\
    (is_local t && negb (file_exists t) = false ->
       u_current_stream (unified w') = next /\
       u_streams (unified w') !! next = Some (Some sid) /\
       UnifiedPlayer._get_current w' = Ok (Some t) w' /\
       u_pipe_state (unified w') = STATE_PLAYING /\
       events w' = events w ++ [("playback_start", OPlayer, OTrack t)] /\
       stream_volume sid w' = (if fades user (settings w) then 0 else 1)%float /\
       (fades user (settings w) = false -> u_adder (unified w') = [sid]) /\
       fade_timers w' = fade_timers w ++
         (if fades user (settings w) then
            let timeout :=
              Z.quot (if user then user_fade (settings w)
                      else crossfade_duration (settings w)) 100 in
            (Some timeout, CbFadeStream sid 1 false)
              :: match u_streams (unified w') !! u_current_stream (unified w) with
                 | Some (Some c) => [(Some timeout, CbFadeStream c (-1) true)]
                 | _ => []
                 end
          else [])).
Proof.
  intros Hok. cbv zeta.
  unfold UnifiedPlayer.play.
  rewrite bind_eq, gets_eq. cbv beta iota zeta.
  set (cs := u_current_stream (unified w)) in *.
  set (next := (1 - cs)%nat).
  assert (Hcs : (cs < 2)%nat) by (destruct Hok as (_ & H & _); exact H).
  assert (Hnext : (next < 2)%nat) by (subst next; lia).
  assert (Hne : next <> cs) by (subst next; lia).
  (* the slot to reuse *)
  destruct (slot_defined w next Hok Hnext) as (sn & Hsn).
  rewrite bind_eq. unfold UnifiedPlayer.slot at 1. rewrite Hsn.
  cbv beta iota. rewrite bind_eq.
  assert (HA : exists wA,
    (match sn with
     | Some _ => UnifiedPlayer.unlink_stream sn;; ret tt
     | None => ret tt
     end) w = Ok tt wA /\ graph_ok wA /\
    u_streams (unified wA) !! next = Some None /\
    u_current_stream (unified wA) = cs /\
    u_pipe_state (unified wA) = u_pipe_state (unified w) /\
    heap wA = heap w /\ next_stream_id wA = next_stream_id w /\
    events wA = events w /\ settings wA = settings w /\ queue wA = queue w /\
    engine wA = engine w /\ fade_timers wA = fade_timers w).
  { destruct sn as [x|].
    - destruct (unlink_slot_graph w next (Some x) Hok Hsn)
        as (b & wA & E & HokA & Hz & _ & _ & HcsA & HpsA & _ & HhA & HnA & HevA & HstA
            & HqA & HeA).
      pose proof (unlink_stream_fades (Some x) w) as HfA. rewrite E in HfA.
      cbn [world_of] in HfA.
      exists wA. rewrite bind_eq, E. split; [reflexivity|]. split; [exact HokA|].
      repeat split; assumption.
    - exists w. split; [reflexivity|]. split; [exact Hok|].
      repeat split; try assumption; reflexivity. }
  destruct HA as (wA & -> & HokA & HzA & HcsA & HpsA & HhA & HnA & HevA & HstA & HqA & HeA
                  & HfA).
  cbv beta iota.
  rewrite bind_eq, gets_eq. cbv beta iota. rewrite bind_eq.
  (* the fade decision *)
  assert (HB : exists wB,
    (if user then
       if user_fade_enabled (settings wA) then ret (true, user_fade (settings wA))
       else (c <- UnifiedPlayer.slot cs;; UnifiedPlayer.unlink_stream c;; ret (false, 0))
     else
       if crossfading (settings wA) then ret (true, crossfade_duration (settings wA))
       else (c <- UnifiedPlayer.slot cs;; UnifiedPlayer.unlink_stream c;; ret (false, 0)))
      wA = Ok (fades user (settings w),
               if fades user (settings w)
               then (if user then user_fade (settings w) else crossfade_duration (settings w))
               else 0) wB /\
    graph_ok wB /\
    u_streams (unified wB) !! next = Some None /\
    (fades user (settings w) = false -> u_streams (unified wB) !! cs = Some None) /\
    u_current_stream (unified wB) = cs /\
    u_pipe_state (unified wB) = u_pipe_state (unified w) /\
    heap wB = heap w /\ next_stream_id wB = next_stream_id w /\
    events wB = events w /\ settings wB = settings w /\ queue wB = queue w /\
    engine wB = engine w /\ fade_timers wB = fade_timers w).
  { assert (Hcut : exists wB,
      (c <- UnifiedPlayer.slot cs;; UnifiedPlayer.unlink_stream c;; ret (false, 0)) wA
      = Ok (false, 0) wB /\ graph_ok wB /\
      u_streams (unified wB) !! next = Some None /\
      u_streams (unified wB) !! cs = Some None /\
      u_current_stream (unified wB) = cs /\
      u_pipe_state (unified wB) = u_pipe_state (unified w) /\
      heap wB = heap w /\ next_stream_id wB = next_stream_id w /\
      events wB = events w /\ settings wB = settings w /\ queue wB = queue w /\
      engine wB = engine w /\ fade_timers wB = fade_timers w).
    { destruct (slot_defined wA cs HokA Hcs) as (c & Hc).
      rewrite bind_eq. unfold UnifiedPlayer.slot. rewrite Hc.
      destruct (unlink_slot_graph wA cs c HokA Hc)
        as (b & wB & E & HokB & Hz & Hkeep & _ & HcsB & HpsB & _ & HhB & HnB & HevB & HstB
            & HqB & HeB).
      pose proof (unlink_stream_fades c wA) as HfB. rewrite E in HfB.
      cbn [world_of] in HfB.
      exists wB. rewrite bind_eq, E. split; [reflexivity|].
      split; [exact HokB|]. split; [apply Hkeep, HzA|]. split; [exact Hz|].
      repeat split; congruence. }
    destruct Hcut as (wB & Hcut & HokB & Hrest).
    rewrite HstA. unfold fades.
    destruct user.
    - destruct (user_fade_enabled (settings w)).
      + exists wA. split; [reflexivity|]. split; [exact HokA|]. split; [exact HzA|].
        split; [discriminate|]. repeat split; assumption.
      + exists wB. split; [exact Hcut|]. split; [exact HokB|].
        destruct Hrest as (Hz1 & Hz2 & Hrest). split; [exact Hz1|]. split; [auto|].
        exact Hrest.
    - destruct (crossfading (settings w)).
      + exists wA. split; [reflexivity|]. split; [exact HokA|]. split; [exact HzA|].
        split; [discriminate|]. repeat split; assumption.
      + exists wB. split; [exact Hcut|]. split; [exact HokB|].
        destruct Hrest as (Hz1 & Hz2 & Hrest). split; [exact Hz1|]. split; [auto|].
        exact Hrest. }
  destruct HB as (wB & -> & HokB & HzB & HzcB & HcsB & HpsB & HhB & HnB & HevB & HstB & HqB
                  & HeB & HfB).
  cbv beta iota. cbn [fst snd]. rewrite ?HstA.
  clear wA HokA HzA HcsA HpsA HhA HnA HevA HstA HqA HeA HfA.
  (* the new stream, in its slot, in the pipeline, linked to the mixer *)
  rewrite bind_eq. unfold UnifiedPlayer.new_stream at 1. cbv beta iota zeta.
  rewrite bind_eq. unfold UnifiedPlayer.update at 1. rewrite modify_eq. cbv beta iota.
  rewrite bind_eq. unfold UnifiedPlayer.on_slot at 1. rewrite bind_eq.
  unfold UnifiedPlayer.slot at 1.
  cbn [unified set_unified set_next_stream_id set_heap u_streams
       UnifiedPlayer.with_streams].
  assert (Hlen : (next < length (u_streams (unified wB)))%nat).
  { destruct HokB as (Hl & _). rewrite Hl. exact Hnext. }
  rewrite list_lookup_insert_eq by exact Hlen. cbv beta iota.
  rewrite link_stream_eq.
  set (name := ("Stream" ++ (if bool_decide (next = 0%nat) then "0" else "1"))%string).
  set (wE := set_unified _ (set_unified _ (set_next_stream_id _ _))).
  assert (HwE : wE = attached next name wB) by reflexivity.
  rewrite bind_eq.
  assert (HokE : graph_ok wE) by (rewrite HwE; apply attached_graph; assumption).
  set (sid := next_stream_id wB) in *.
  assert (HslotE : u_streams (unified wE) = <[next := Some sid]> (u_streams (unified wB)))
    by reflexivity.
  assert (HheapE : heap wE = <[sid := AudioStream.init name]> (heap wB)) by reflexivity.
  assert (HpipeE : u_pipe (unified wE) = u_pipe (unified wB) ++ [sid]) by reflexivity.
  assert (HadderE : u_adder (unified wE) = u_adder (unified wB) ++ [sid]) by reflexivity.
  assert (HcsE : u_current_stream (unified wE) = cs) by exact HcsB.
  assert (HpsE : u_pipe_state (unified wE) = u_pipe_state (unified w)) by exact HpsB.
  assert (HevE : events wE = events w) by exact HevB.
  assert (HstE : settings wE = settings w) by exact HstB.
  assert (HqE : queue wE = queue w) by exact HqB.
  assert (HeE : engine wE = engine w) by exact HeB.
  assert (HsrcE : fade_timers wE = fade_timers w) by exact HfB.
  assert (Hsidw : sid = next_stream_id w) by exact HnB.
  clearbody wE.
  unfold AudioStream.set_track.
  destruct (is_local t && negb (file_exists t)) eqn:Hplay.
  - (* the track cannot be played *)
    rewrite ret_eq. cbv beta iota. cbn [negb]. rewrite bind_eq.
    destruct (stop_graph wE HokE) as (cur & wF & _ & -> & HokF & _ & _ & HstF & HqF & HeF & _).
    cbv beta iota. msimpl.
    exists wF. split; [reflexivity|]. split; [exact HokF|].
    split; [congruence|]. split; [congruence|]. split; [congruence|]. discriminate.
  - (* the track is bound *)
    assert (HG : exists wG sG,
      (AudioStream.update sid (AudioStream.with_track (Some t));;
       AudioStream.reset_playtime_stamp sid;;
       AudioStream.update sid (AudioStream.with_uri (Some (loc t)));;
       (if String.prefix "cdda://" (loc t)
        then AudioStream.update sid (AudioStream.with_notify_id true) else ret tt);;
       ret true) wE = Ok true wG /\
      unified wG = unified wE /\ next_stream_id wG = next_stream_id wE /\
      dom (heap wG) = dom (heap wE) /\
      events wG = events wE /\ settings wG = settings wE /\ queue wG = queue wE /\
      engine wG = engine wE /\ sources wG = sources wE /\
      heap wG !! sid = Some sG /\ as_track sG = Some t /\ as_volume sG = 1%float).
    { cbv [AudioStream.update AudioStream.reset_playtime_stamp bind gets modify ret].
      destruct (String.prefix "cdda://" (loc t));
        (eexists; eexists; split; [reflexivity|]);
        cbn [unified set_heap heap next_stream_id events settings queue engine sources];
        rewrite ?dom_alter_L, ?lookup_alter_eq, HheapE, lookup_insert_eq;
        repeat split; reflexivity. }
    destruct HG as (wG & sG & -> & HuG & HnG & HdG & HevG & HstG & HqG & HeG & HsrcG & HsG
                    & HtG & HvG).
    cbv beta iota. cbn [negb].
    assert (HnextG : u_streams (unified wG) !! next = Some (Some sid)).
    { rewrite HuG, HslotE. apply list_lookup_insert_eq, Hlen. }
    assert (HokG : graph_ok wG).
    { eapply graph_ok_obs; [|exact HokE]. unfold graph_obs. rewrite HuG, HnG, HdG.
      reflexivity. }
    destruct (slot_defined wG cs HokG Hcs) as (sc & Hsc).
    assert (HinG : sid ∈ u_pipe (unified wG)).
    { rewrite HuG, HpipeE. apply elem_of_app. right. apply list_elem_of_here. }
    destruct (play_tail wG t (fades user (settings w))
                (if fades user (settings w)
                 then (if user then user_fade (settings w)
                       else crossfade_duration (settings w))
                 else 0)
                (settings w) next cs sid sG sc HnextG Hsc HsG HinG)
      as (w' & Htail & Hsl' & Hcs' & Had' & Hpi' & Hn' & Hd' & Hst' & Hq' & He' & Hps' & Hev'
          & Hft' & s' & Hs' & Ht' & Hstate' & Hv').
    exists w'. split; [exact Htail|].
    split.
    { destruct HokG as (G1 & G2 & G3 & G4 & G5 & G6 & G7).
      unfold graph_ok, slot_streams in *. rewrite Hsl', Hcs', Had', Hpi', Hn'.
      repeat split; try assumption.
      - intros x Hx. apply elem_of_dom. rewrite Hd'. apply elem_of_dom. auto.
      - intros x Hx. apply G7. apply elem_of_dom. rewrite <- Hd'. apply elem_of_dom.
        exact Hx. }
    split; [congruence|]. split; [congruence|]. split; [congruence|].
    intros _. split; [exact Hcs'|]. split; [rewrite Hsl'; congruence|].
    split.
    { rewrite unified_get_current_eq, Hcs', Hsl', HnextG, Hs', Hstate'.
      rewrite bool_decide_eq_true_2 by reflexivity. cbn [orb]. congruence. }
    split; [exact Hps'|]. split; [rewrite Hev', HevG, HevE; reflexivity|].
    split.
    { unfold stream_volume. rewrite <- Hsidw, Hs', Hv', HvG.
      destruct (fades user (settings w)); reflexivity. }
    split.
    2:{ rewrite Hft'. unfold fade_timers at 1. rewrite HsrcG.
        fold (fade_timers wE). rewrite HsrcE, <- Hsidw, Hsl', Hsc.
        destruct (fades user (settings w)); [|reflexivity].
        destruct sc; reflexivity. }
    intros Hnf. rewrite Had', HuG, HadderE.
    assert (Hslots : u_streams (unified wB) = [None; None]).
    { destruct HokB as (Hl & _). specialize (HzcB Hnf).
      assert (Hcase : (next = 0%nat /\ cs = 1%nat) \/ (next = 1%nat /\ cs = 0%nat))
        by (subst next; lia).
      destruct Hcase as [[E1 E2]|[E1 E2]]; rewrite E1 in HzB; rewrite E2 in HzcB;
        apply two_slots; assumption. }
    destruct HokB as (_ & _ & Ha & Hp & _). unfold slot_streams in Hp.
    rewrite Hslots in Hp. cbn in Hp. apply Permutation_nil_r in Hp.
    rewrite Ha, Hp, <- Hsidw. reflexivity.
Qed.

Lemma keeps_unified_play (t : option Track) (user : bool) :
  hoare graph_ok (UnifiedPlayer.play t user) (fun _ => graph_ok) (fun _ => False).
Proof.
  intros w Hw. destruct t as [t|]; [|exact Hw].
  destruct (play_graph w t user Hw) as (w' & -> & Hok & _). exact Hok.
Qed.

Lemma keeps_play (t : option Track) (user : bool) : keeps (UnifiedPlayer.play t user).
Proof.
  eapply hoare_conseq; [apply keeps_unified_play | auto | auto | contradiction].
Qed.

Ltac keeps_step :=
  lazymatch goal with
  | |- keeps (bind _ _) => apply keeps_bind; [| intros ?]
  | |- keeps (ret _) => apply keeps_ret
  | |- keeps (try_except _ _) => apply keeps_try_except; [| intros ?]
  | |- keeps (match ?x with _ => _ end) => destruct x
  | |- keeps (let _ := _ in _) => cbv zeta
  | |- keeps (UnifiedPlayer.unlink_stream _) => apply keeps_unlink_stream
  | |- keeps (UnifiedPlayer.play _ _) => apply keeps_play
  | |- keeps UnifiedPlayer.stop => apply keeps_unified_stop
  | |- _ => first [ solve [auto] | apply keeps_preserves; solve [obs] ]
  end.

Ltac keeps_all := repeat keeps_step.

Lemma keeps_fade_stream sid direction delete :
  keeps (UnifiedPlayer._fade_stream sid direction delete).
Proof. unfold UnifiedPlayer._fade_stream. keeps_all. Qed.

Lemma keeps_player_stop : keeps PlayQueue.player_stop.
Proof. unfold PlayQueue.player_stop. keeps_all. Qed.

Lemma keeps_player_play t : keeps (PlayQueue.player_play t).
Proof. unfold PlayQueue.player_play. keeps_all. Qed.

Lemma keeps_next player t : keeps (PlayQueue.next player t).
Proof.
  pose proof keeps_player_stop. pose proof (keeps_player_play).
  unfold PlayQueue.next, PlayQueue.stop_on_marker, PlayQueue.update. keeps_all.
Qed.

Lemma keeps_start_crossfade : keeps (UnifiedPlayer._start_crossfade PlayQueue.next).
Proof.
  pose proof keeps_next. unfold UnifiedPlayer._start_crossfade. keeps_all.
Qed.

Lemma keeps_on_drained sid : keeps (UnifiedPlayer._on_drained PlayQueue.next sid).
Proof.
  pose proof keeps_next. unfold UnifiedPlayer._on_drained. keeps_all.
Qed.

Lemma keeps_call cb : keeps (MainLoop.call cb).
Proof.
  pose proof keeps_start_crossfade. pose proof keeps_fade_stream.
  destruct cb; cbn [MainLoop.call]; keeps_all.
Qed.

Lemma keeps_dispatch id : keeps (MainLoop.dispatch id).
Proof.
  pose proof keeps_call. unfold MainLoop.dispatch. keeps_all.
Qed.

Lemma keeps_dispatch_all ids : keeps (MainLoop.dispatch_all ids).
Proof.
  pose proof keeps_dispatch.
  induction ids as [|id r IH]; cbn [MainLoop.dispatch_all]; keeps_all.
Qed.

Lemma keeps_perform (a : Action) : keeps (perform a).
Proof.
  pose proof keeps_next. pose proof keeps_on_drained. pose proof keeps_dispatch.
  pose proof keeps_dispatch_all.
  destruct a; cbn [perform]; unfold MainLoop.run_idle; keeps_all.
Qed.

Lemma graph_ok_init (e : Engine) (st : Settings) : graph_ok (init_world e st).
Proof.
  unfold graph_ok, slot_streams. cbn. repeat split; try lia; try constructor.
  - intros s Hs. apply elem_of_nil in Hs. contradiction.
  - intros s [x Hs]. rewrite lookup_empty in Hs. discriminate.
Qed.

(** Every state that a history of actions leads to has a graph of the right
    shape. *)
Lemma graph_ok_history (acts : list Action) (w : World) :
  graph_ok w -> graph_ok (history acts w).
Proof.
  revert w. induction acts as [|a r IH]; intros w Hw; [exact Hw|].
  cbn [history]. apply IH. apply keeps_world_of; [apply keeps_perform | exact Hw].
Qed.

Lemma slot_streams_elem (l : list (option nat)) (s : nat) :
  s ∈ omap id l <-> exists i, l !! i = Some (Some s).
Proof.
  rewrite list_elem_of_omap. split.
  - intros (x & Hx & E). cbn in E. subst x. apply list_elem_of_lookup_1 in Hx. exact Hx.
  - intros (i & Hi). exists (Some s). split; [eapply list_elem_of_lookup_2, Hi | reflexivity].
Qed.

Lemma length_slot_streams (l : list (option nat)) : (length (omap id l) <= length l)%nat.
Proof.
  induction l as [|[x|] r IH]; cbn; [lia| |].
  - change (omap id r) with (omap id r). cbn in IH. lia.
  - lia.
Qed.

(** X21: UnifiedPlayer, after any sequence of play, stop, pause, unpause,
    toggle_pause, queue.next, drained signals, idle callbacks, timer callbacks,
    passing time and changes of the queue or of the settings, from a fresh
    engine: there are two slots and the current slot is 0 or 1; the streams
    linked to the adder are those in the pipeline, none twice and at most two,
    they are exactly the streams that the slots hold, and each is an existing
    stream object. *)
Theorem unified_graph_invariant (acts : list Action) (st : Settings) :
  let w := history acts (init_world EngineUnified st) in
  length (u_streams (unified w)) = 2%nat /\
  (u_current_stream (unified w) < 2)%nat /\
  u_adder (unified w) = u_pipe (unified w) /\
  NoDup (u_adder (unified w)) /\
  (length (u_adder (unified w)) <= 2)%nat /\
  (forall s, s ∈ u_adder (unified w) <->
             exists i, u_streams (unified w) !! i = Some (Some s)) /\
  (forall s, s ∈ u_adder (unified w) -> is_Some (heap w !! s)).
Proof.
  cbv zeta.
  pose proof (graph_ok_history acts _ (graph_ok_init EngineUnified st))
    as (H1 & H2 & H3 & H4 & H5 & H6 & H7).
  unfold slot_streams in H4. rewrite H3.
  split; [exact H1|]. split; [exact H2|]. split; [reflexivity|]. split; [exact H5|].
  split; [|split].
  - rewrite H4, <- H1. apply length_slot_streams.
  - intros s. rewrite H4. apply slot_streams_elem.
  - exact H6.
Qed.

(** X22: In a state that a fresh UnifiedPlayer reaches by play, stop, pause,
    unpause, toggle_pause, queue.next, drained signals, callbacks of the main
    loop, passing time and changes of the queue or of the settings,
    UnifiedPlayer.play of a track raises nothing: it returns False for a missing
    local file and True otherwise; then the track is current, in the other slot,
    the pipeline plays, playback_start is logged, the volume of the new stream
    is 0 if the transition fades and 1 if not, and without a fade the new stream
    is the only one linked to the adder. *)
Theorem unified_play_makes_current (acts : list Action) (st : Settings) (t : Track)
    (user : bool) :
  let w := history acts (init_world EngineUnified st) in
  exists w',
    UnifiedPlayer.play (Some t) user w
      = Ok (Some (negb (is_local t && negb (file_exists t)))) w' /\
    (is_local t && negb (file_exists t) = false ->
       UnifiedPlayer._get_current w' = Ok (Some t) w' /\
       UnifiedPlayer.is_playing w' = Ok true w' /\
       u_current_stream (unified w') = (1 - u_current_stream (unified w))%nat /\
       events w' = events w ++ [("playback_start", OPlayer, OTrack t)] /\
       stream_volume (next_stream_id w) w'
         = (if fades user (settings w) then 0 else 1)%float /\
       (fades user (settings w) = false -> u_adder (unified w') = [next_stream_id w])).
Proof.
  cbv zeta.
  pose proof (graph_ok_history acts _ (graph_ok_init EngineUnified st)) as Hok.
  destruct (play_graph _ t user Hok) as (w' & Hp & _ & _ & _ & _ & Hgood).
  exists w'. split; [exact Hp|]. intros Ht.
  destruct (Hgood Ht) as (Hcs & _ & Hcur & Hps & Hev & Hv & Ha & _).
  split; [exact Hcur|]. split.
  { rewrite unified_is_playing_eq, Hps, bool_decide_eq_true_2 by reflexivity. reflexivity. }
  repeat split; assumption.
Qed.

(** X23: In a state that a fresh UnifiedPlayer reaches by play, stop, pause,
    unpause, toggle_pause, queue.next, drained signals, callbacks of the main
    loop, passing time and changes of the queue or of the settings,
    UnifiedPlayer.stop returns whether the pipeline was playing or paused.  If
    it was, both slots are empty afterwards, no stream is linked or in the
    pipeline, current is None, get_state answers stopped and playback_end is
    logged with the track that was current; if it was not, nothing changes.  A
    second stop returns False. *)
Theorem unified_stop_clears_graph (acts : list Action) (st : Settings) :
  let w := history acts (init_world EngineUnified st) in
  exists cur w',
    UnifiedPlayer._get_current w = Ok cur w /\
    UnifiedPlayer.stop w = Ok (unified_active w) w' /\
    UnifiedPlayer.stop w' = Ok false w' /\
    if unified_active w then
      u_streams (unified w') = [None; None] /\ u_adder (unified w') = [] /\
      u_pipe (unified w') = [] /\
      UnifiedPlayer._get_current w' = Ok None w' /\
      UnifiedPlayer.get_state w' = Ok "stopped" w' /\
      events w' = events w ++ [("playback_end", OPlayer, obj_of_track cur)]
    else w' = w.
Proof.
  cbv zeta.
  pose proof (graph_ok_history acts _ (graph_ok_init EngineUnified st)) as Hok.
  destruct (stop_graph _ Hok) as (cur & w' & Hcur & Hs & Hok' & Hcs & _ & _ & _ & _ & Hpost).
  exists cur, w'. split; [exact Hcur|]. split; [exact Hs|].
  destruct (unified_active _) eqn:Ha.
  - destruct Hpost as (Hsl & Hpi & Had & Hps & Hev).
    split.
    { rewrite unified_stop_eq. unfold unified_active. rewrite Hps.
      rewrite !bool_decide_eq_false_2 by discriminate. reflexivity. }
    split; [exact Hsl|]. split; [exact Had|]. split; [exact Hpi|].
    split.
    { rewrite unified_get_current_eq, Hsl.
      destruct Hok' as (_ & Hlt & _).
      destruct (u_current_stream (unified w')) as [|[|n]]; [reflexivity|reflexivity|lia]. }
    split; [|exact Hev].
    unfold UnifiedPlayer.get_state, UnifiedPlayer._get_gst_state. msimpl. rewrite Hps.
    reflexivity.
  - subst w'. split; [|reflexivity].
    rewrite unified_stop_eq, Ha. reflexivity.
Qed.

(** X24: UnifiedPlayer.unlink_stream: for None it returns True and does nothing;
    for a stream it returns whether the stream was in the pipeline, and a second
    call returns False and leaves slots and pipeline alone; each of the two
    calls schedules an idle set_state(NULL) of the stream. *)
Theorem unlink_stream_twice (sid : nat) (w : World) :
  UnifiedPlayer.unlink_stream None w = Ok true w /\
  exists w1 w2,
    UnifiedPlayer.unlink_stream (Some sid) w
      = Ok (bool_decide (sid ∈ u_pipe (unified w))) w1 /\
    UnifiedPlayer.unlink_stream (Some sid) w1 = Ok false w2 /\
    u_streams (unified w2) = u_streams (unified w1) /\
    u_pipe (unified w2) = u_pipe (unified w1) /\
    sources w2 = sources w ++
      [ {| src_id := next_source_id w; src_interval := None;
           src_cb := CbStreamSetState sid STATE_NULL |};
        {| src_id := next_source_id w + 1; src_interval := None;
           src_cb := CbStreamSetState sid STATE_NULL |} ].
Proof.
  split; [reflexivity|].
  assert (Hsecond : forall w1, sid ∉ u_pipe (unified w1) ->
    exists w2, UnifiedPlayer.unlink_stream (Some sid) w1 = Ok false w2 /\
      u_streams (unified w2) = u_streams (unified w1) /\
      u_pipe (unified w2) = u_pipe (unified w1) /\
      sources w2 = sources w1 ++
        [{| src_id := next_source_id w1; src_interval := None;
            src_cb := CbStreamSetState sid STATE_NULL |}]).
  { intros w1 Hout.
    cbv [UnifiedPlayer.unlink_stream try_except bind UnifiedPlayer.update modify
         gobject.idle_add gobject.add_source gets ret raise].
    cbn [unified set_unified set_sources set_next_source_id u_pipe
         UnifiedPlayer.with_adder].
    rewrite bool_decide_eq_false_2 by exact Hout.
    eexists. split; [reflexivity|]. repeat split; reflexivity. }
  assert (Hfirst : exists w1,
    UnifiedPlayer.unlink_stream (Some sid) w
      = Ok (bool_decide (sid ∈ u_pipe (unified w))) w1 /\
    (sid ∉ u_pipe (unified w1)) /\
    sources w1 = sources w ++
      [{| src_id := next_source_id w; src_interval := None;
          src_cb := CbStreamSetState sid STATE_NULL |}] /\
    next_source_id w1 = next_source_id w + 1).
  { cbv [UnifiedPlayer.unlink_stream try_except bind UnifiedPlayer.update modify
         gobject.idle_add gobject.add_source gets ret raise].
    cbn [unified set_unified set_sources set_next_source_id u_pipe
         UnifiedPlayer.with_adder UnifiedPlayer.with_pipe].
    destruct (bool_decide (sid ∈ u_pipe (unified w))) eqn:Hin;
      (eexists; split; [reflexivity|]); cbn; (split; [|split; reflexivity]).
    - intros Hc. apply list_elem_of_filter in Hc as [Hne _]. apply Hne. reflexivity.
    - apply bool_decide_eq_false_1 in Hin. exact Hin. }
  destruct Hfirst as (w1 & E1 & Hout & Hsrc1 & Hn1).
  destruct (Hsecond w1 Hout) as (w2 & E2 & Hs2 & Hp2 & Hsrc2).
  exists w1, w2. split; [exact E1|]. split; [exact E2|]. split; [exact Hs2|].
  split; [exact Hp2|]. rewrite Hsrc2, Hsrc1, Hn1, <- app_assoc. reflexivity.
Qed.

(** X25: In a state that a fresh UnifiedPlayer reaches by play, stop, pause,
    unpause, toggle_pause, queue.next, drained signals, callbacks of the main
    loop, passing time and changes of the queue or of the settings,
    UnifiedPlayer._on_drained for the current stream, crossfading off, the queue
    empty and no playlist: the stream is unlinked and its slot emptied, so that
    current is None, but the pipeline is not stopped and no event is logged:
    get_state answers what it answered before. *)
Theorem drained_at_end_of_queue (acts : list Action) (st : Settings) (sid : nat) :
  let w := history acts (init_world EngineUnified st) in
  crossfading (settings w) = false ->
  ordered_tracks (queue w) = [] -> current_playlist (queue w) = None ->
  u_streams (unified w) !! u_current_stream (unified w) = Some (Some sid) ->
  exists w',
    UnifiedPlayer._on_drained PlayQueue.next sid w = Ok tt w' /\
    UnifiedPlayer._get_current w' = Ok None w' /\
    u_adder (unified w') = filter (fun x => x ≠ sid) (u_adder (unified w)) /\
    value_of (UnifiedPlayer.get_state w') = value_of (UnifiedPlayer.get_state w) /\
    u_pipe_state (unified w') = u_pipe_state (unified w) /\
    events w' = events w.
Proof.
  cbv zeta. intros Hcf Hq Hpl Hslot.
  pose proof (graph_ok_history acts _ (graph_ok_init EngineUnified st)) as Hok.
  set (w := history acts (init_world EngineUnified st)) in *. clearbody w.
  destruct (unlink_slot_graph w _ (Some sid) Hok Hslot)
    as (b & w' & E & Hok' & Hz & _ & _ & Hcs & Hps & _ & _ & _ & Hev & Hst & Hqu & _).
  exists w'.
  assert (Hadder : u_adder (unified w') = filter (fun x => x ≠ sid) (u_adder (unified w))).
  { pose proof (unlink_stream_effect (Some sid) w) as Heff. rewrite E in Heff.
    cbn in Heff. destruct Heff as (_ & _ & Ha & _). exact Ha. }
  split.
  { unfold UnifiedPlayer._on_drained. rewrite bind_eq, E. cbv beta iota.
    rewrite bind_eq, gets_eq. cbv beta iota. rewrite Hst, Hcf. cbn [negb].
    rewrite bind_eq, next_false_empty by congruence. reflexivity. }
  split.
  { rewrite unified_get_current_eq, Hcs, Hz. reflexivity. }
  split; [exact Hadder|].
  split; [|split; assumption].
  unfold UnifiedPlayer.get_state, UnifiedPlayer._get_gst_state. msimpl. rewrite Hps.
  reflexivity.
Qed.

Lemma drained_at_end_of_queue_witness :
  exists w',
    UnifiedPlayer._on_drained PlayQueue.next 0 unified_gapless_a = Ok tt w' /\
    UnifiedPlayer._get_current w' = Ok None w' /\
    u_adder (unified w') = filter (fun x => x ≠ 0%nat) (u_adder (unified unified_gapless_a)) /\
    value_of (UnifiedPlayer.get_state w')
      = value_of (UnifiedPlayer.get_state unified_gapless_a) /\
    u_pipe_state (unified w') = u_pipe_state (unified unified_gapless_a) /\
    events w' = events unified_gapless_a.
Proof.
  apply (drained_at_end_of_queue [APlay (Some track_a) false; AIdle; AIdle]
           default_settings 0%nat); vm_compute; reflexivity.
Defined.

(** X26: In a state that a fresh UnifiedPlayer reaches by play, stop, pause,
    unpause, toggle_pause, queue.next, drained signals, callbacks of the main
    loop, passing time and changes of the queue or of the settings, the pipeline
    playing, UnifiedPlayer.pause returns True and pauses the pipeline; the
    crossfade timer that timer_id names is taken off the main loop, no timer is
    armed and timer_id keeps its value; playback_pause is logged with
    self.current as it is once the pipeline is paused.  A second pause returns
    False and changes nothing. *)
Theorem unified_pause_cancels_timer (acts : list Action) (st : Settings) :
  let w := history acts (init_world EngineUnified st) in
  u_pipe_state (unified w) = STATE_PLAYING ->
  exists cur w',
    UnifiedPlayer.pause w = Ok true w' /\
    UnifiedPlayer._get_current w' = Ok cur w' /\
    u_pipe_state (unified w') = STATE_PAUSED /\
    sources w' = without_timer w /\
    u_timer_id (unified w') = u_timer_id (unified w) /\
    events w' = events w ++ [("playback_pause", OPlayer, obj_of_track cur)] /\
    UnifiedPlayer.pause w' = Ok false w'.
Proof.
  cbv zeta. intros Hplay.
  pose proof (graph_ok_history acts _ (graph_ok_init EngineUnified st)) as Hok.
  set (w := history acts (init_world EngineUnified st)) in *. clearbody w.
  unfold UnifiedPlayer.pause at 1.
  rewrite bind_eq, unified_is_playing_eq, bool_decide_eq_true_2 by exact Hplay.
  cbv beta iota. rewrite bind_eq.
  set (w1 := world_of (UnifiedPlayer.pipe_set_state STATE_PAUSED w)).
  change (UnifiedPlayer.pipe_set_state STATE_PAUSED w) with (Ok tt w1).
  cbv beta iota.
  assert (Hobs1 : graph_obs w1 = graph_obs w) by apply obs_pipe_set_state.
  assert (Hps1 : u_pipe_state (unified w1) = STATE_PAUSED) by reflexivity.
  assert (Hsrc1 : sources w1 = sources w) by reflexivity.
  assert (Htid1 : u_timer_id (unified w1) = u_timer_id (unified w)) by reflexivity.
  assert (Hev1 : events w1 = events w) by reflexivity.
  clearbody w1.
  rewrite bind_eq, reset_crossfade_timer_not_playing by (rewrite Hps1; discriminate).
  cbv beta iota.
  set (w2 := if u_timer_id (unified w1) =? 0 then w1 else set_sources _ w1).
  assert (Hobs2 : graph_obs w2 = graph_obs w).
  { subst w2. destruct (u_timer_id (unified w1) =? 0); exact Hobs1. }
  assert (Hps2 : u_pipe_state (unified w2) = STATE_PAUSED).
  { subst w2. destruct (u_timer_id (unified w1) =? 0); exact Hps1. }
  assert (Hsrc2 : sources w2 = without_timer w).
  { subst w2. unfold without_timer. rewrite <- Htid1, <- Hsrc1.
    destruct (u_timer_id (unified w1) =? 0); reflexivity. }
  assert (Htid2 : u_timer_id (unified w2) = u_timer_id (unified w)).
  { subst w2. destruct (u_timer_id (unified w1) =? 0); exact Htid1. }
  assert (Hev2 : events w2 = events w).
  { subst w2. destruct (u_timer_id (unified w1) =? 0); exact Hev1. }
  clearbody w2.
  destruct (get_current_graph w2 (graph_ok_obs _ _ Hobs2 Hok)) as (cur & Hcur).
  assert (Hidle : forall w3, u_pipe_state (unified w3) = STATE_PAUSED ->
                             UnifiedPlayer.pause w3 = Ok false w3).
  { intros w3 H3. unfold UnifiedPlayer.pause.
    rewrite bind_eq, unified_is_playing_eq, H3, bool_decide_eq_false_2 by discriminate.
    reflexivity. }
  exists cur. rewrite bind_eq, Hcur. cbv beta iota.
  eexists. split; [reflexivity|].
  split; [apply (unified_get_current_same w2); [reflexivity .. | exact Hcur]|].
  split; [exact Hps2|]. split; [exact Hsrc2|]. split; [exact Htid2|].
  split; [cbn; rewrite Hev2; reflexivity|].
  apply Hidle. exact Hps2.
Qed.

(** On [unified_crossfade_resumed] the timer recorded in [self.timer_id] is
    source 6, which is pending; [pause] takes it off and logs [track_a]. *)
Lemma unified_pause_cancels_timer_witness :
  (u_timer_id (unified unified_crossfade_resumed) = 6 /\
   map src_id (sources unified_crossfade_resumed) = [3; 4; 6] /\
   map src_id (sources (world_of (UnifiedPlayer.pause unified_crossfade_resumed))) = [3; 4] /\
   last (events (world_of (UnifiedPlayer.pause unified_crossfade_resumed)))
     = Some ("playback_pause", OPlayer, OTrack track_a)) /\
  exists cur w',
    UnifiedPlayer.pause unified_crossfade_resumed = Ok true w' /\
    UnifiedPlayer._get_current w' = Ok cur w' /\
    u_pipe_state (unified w') = STATE_PAUSED /\
    sources w' = without_timer unified_crossfade_resumed /\
    u_timer_id (unified w') = u_timer_id (unified unified_crossfade_resumed) /\
    events w' = events unified_crossfade_resumed
                  ++ [("playback_pause", OPlayer, obj_of_track cur)] /\
    UnifiedPlayer.pause w' = Ok false w'.
Proof.
  split; [vm_conj|].
  apply (unified_pause_cancels_timer
           [APlay (Some track_a) false; AIdle; AIdle; APause; AUnpause]
           settings_crossfade); vm_compute; reflexivity.
Defined.

(** ** Fades *)

Lemma fade_stream_tick (w : World) (sid : nat) (s : AudioStream)
    (direction : Z) (delete : bool) :
  heap w !! sid = Some s ->
  let v := (as_volume s + float_of_Z direction / 100)%float in
  let gone := delete && (v <? f0_01)%float in
  exists w',
    UnifiedPlayer._fade_stream sid direction delete w
      = Ok (negb gone && ((f0_01 <=? v)%float && (v <=? 1)%float)) w' /\
    stream_volume sid w' = v /\
    u_adder (unified w') =
      if gone then filter (fun x => x ≠ sid) (u_adder (unified w))
      else u_adder (unified w).
Proof.
  intros Hs. cbv zeta.
  unfold UnifiedPlayer._fade_stream, AudioStream.get_volume, AudioStream.self,
    AudioStream.set_volume, AudioStream.update.
  rewrite bind_eq, bind_eq, Hs. cbv beta iota. rewrite ret_eq. cbv beta iota zeta.
  rewrite bind_eq, modify_eq. cbv beta iota.
  set (v := (as_volume s + float_of_Z direction / 100)%float).
  set (w1 := set_heap _ w).
  assert (Hv : stream_volume sid w1 = v).
  { unfold stream_volume. subst w1. cbn [heap set_heap].
    rewrite lookup_alter_eq, Hs. reflexivity. }
  destruct (delete && (v <? f0_01)%float) eqn:Hgone; cbn [negb andb].
  - rewrite bind_eq.
    destruct (unlink_stream_returns (Some sid) w1) as (b & w' & Hu & _).
    pose proof (unlink_stream_effect (Some sid) w1) as (Hh & _ & Ha & _).
    rewrite Hu in *. cbn [world_of] in Hh, Ha. cbv beta iota. rewrite ret_eq.
    exists w'. split; [reflexivity|]. split; [|exact Ha].
    unfold stream_volume in *. rewrite Hh. exact Hv.
  - rewrite ret_eq. exists w1. split; [reflexivity|]. split; [exact Hv | reflexivity].
Qed.

(** A tick that unlinks nothing sets the volume of its stream and touches
    nothing else. *)
Lemma fade_stream_keeps (w : World) (sid : nat) (s : AudioStream)
    (direction : Z) (delete : bool) :
  heap w !! sid = Some s ->
  let v := (as_volume s + float_of_Z direction / 100)%float in
  delete && (v <? f0_01)%float = false ->
  UnifiedPlayer._fade_stream sid direction delete w
    = Ok (fade_answer delete v)
         (set_heap (alter (AudioStream.with_volume v) sid (heap w)) w).
Proof.
  intros Hs v Hkeep. subst v.
  unfold UnifiedPlayer._fade_stream, AudioStream.get_volume, AudioStream.self,
    AudioStream.set_volume, AudioStream.update, fade_answer.
  rewrite bind_eq, bind_eq, Hs. cbv beta iota. rewrite ret_eq. cbv beta iota zeta.
  rewrite bind_eq, modify_eq. cbv beta iota. rewrite Hkeep. reflexivity.
Qed.

(** Ticks in a row, none of which unlinks: the volume runs through
    [fade_values], and nothing but the volume of the stream changes. *)
Lemma fade_ticks_run (sid : nat) (direction : Z) (delete : bool) (n : nat) :
  forall (w : World) (s : AudioStream),
    heap w !! sid = Some s ->
    forallb (fun v => negb (delete && (v <? f0_01)%float))
      (fade_values direction (as_volume s) n) = true ->
    exists w',
      fade_ticks sid direction delete n w
        = Ok (map (fun v => (fade_answer delete v, v))
                (fade_values direction (as_volume s) n)) w' /\
      unified w' = unified w /\ sources w' = sources w /\ events w' = events w /\
      exists s', heap w' !! sid = Some s' /\
                 as_volume s' = default (as_volume s)
                                  (last (fade_values direction (as_volume s) n)).
Proof.
  induction n as [|n IH]; intros w s Hs Hall.
  - exists w. split; [reflexivity|]. do 3 (split; [reflexivity|]).
    exists s. split; [exact Hs | reflexivity].
  - cbn [fade_values] in *. cbv zeta in *.
    set (v := (as_volume s + float_of_Z direction / 100)%float) in *.
    cbn [forallb] in Hall. apply andb_prop in Hall as [Hkeep Hrest].
    apply negb_true_iff in Hkeep.
    set (w1 := set_heap (alter (AudioStream.with_volume v) sid (heap w)) w).
    assert (Hs1 : heap w1 !! sid = Some (AudioStream.with_volume v s)).
    { subst w1. cbn [heap set_heap]. rewrite lookup_alter_eq, Hs. reflexivity. }
    destruct (IH w1 (AudioStream.with_volume v s) Hs1 Hrest)
      as (w' & Hrun & Hu & Hsrc & Hev & s' & Hs' & Hv').
    exists w'. cbn [fade_ticks map].
    rewrite bind_eq, (fade_stream_keeps w sid s direction delete Hs Hkeep).
    fold v. fold w1. cbv beta iota.
    unfold AudioStream.get_volume, AudioStream.self.
    rewrite !bind_eq, Hs1. cbv beta iota. rewrite ret_eq. cbv beta iota.
    rewrite bind_eq, Hrun. cbv beta iota.
    split; [reflexivity|]. do 3 (split; [assumption|]).
    exists s'. split; [exact Hs'|]. rewrite Hv', last_cons.
    cbn [as_volume AudioStream.with_volume].
    destruct (last (fade_values direction v n)); reflexivity.
Qed.




(** After that third [play], stream 1 is driven by two timers at once, its
    fade-in (source 7) and its fade-out (source 14): its volume goes up and
    down. *)
Lemma fade_timers_overlap :
  map (fun w => stream_volume 1 w)
    [ fading_interrupted;
      world_of (MainLoop.dispatch 7 fading_interrupted);
      world_of (run [MainLoop.dispatch 7; MainLoop.dispatch 14] fading_interrupted) ]
  = [f0_01; (f0_01 + f0_01)%float; f0_01].
Proof. vm_compute. reflexivity. Qed.
